(** * Urdu story generator: subword codec and interpolated trigram model

    A shallow embedding of [Phase_2_BPE_Tokenizer/bpe_tokenizer.py] and
    [Phase_3_Trigram_Model/trigram_model.py].

    Conventions of the embedding.
    - A Python [str] is a list of Unicode code points ([char := N]).
    - A Python [dict] is an association list in insertion order with
      pairwise distinct keys: assigning to an existing key keeps its
      position, assigning to a new key appends.  The order is observable
      in the source ([max(pairs, key=pairs.get)] returns the first maximal
      key in iteration order), so it is part of the model.
    - Python [float] arithmetic is idealised as exact arithmetic on [Q];
      statements about probabilities use [==] on [Q].
    - Exceptions are values of [error]; fallible operations return
      [result A]. *)

From Stdlib Require Import String Ascii DecimalString.
From Stdlib Require Import List Bool Arith ZArith NArith QArith Qabs Lia Lqa.
From Stdlib Require Import Permutation Sorted.
From Stdlib Require Import Morphisms Setoid.
Import ListNotations.

Set Implicit Arguments.

(* ================================================================== *)
(** * Preliminaries *)
(* ================================================================== *)

(** ** Decidable equality on dictionary keys *)

Class Eqb (K : Type) : Type := {
  eqb : K -> K -> bool;
  eqb_spec : forall x y : K, reflect (x = y) (eqb x y)
}.

Arguments eqb : simpl never.

#[export] Instance Eqb_N : Eqb N := {| eqb := N.eqb; eqb_spec := N.eqb_spec |}.
#[export] Instance Eqb_Z : Eqb Z := {| eqb := Z.eqb; eqb_spec := Z.eqb_spec |}.

Fixpoint list_eqb {K} `{Eqb K} (a b : list K) : bool :=
  match a, b with
  | [], [] => true
  | x :: a', y :: b' => eqb x y && list_eqb a' b'
  | _, _ => false
  end.

Lemma list_eqb_spec {K} `{Eqb K} (a b : list K) : reflect (a = b) (list_eqb a b).
Proof.
  revert b; induction a as [|x a IH]; intros [|y b]; simpl;
    try (constructor; congruence).
  destruct (eqb_spec x y) as [->|Hn]; simpl.
  - destruct (IH b) as [->|Hn]; constructor; congruence.
  - constructor; congruence.
Qed.

#[export] Instance Eqb_list {K} `{Eqb K} : Eqb (list K) :=
  {| eqb := list_eqb; eqb_spec := list_eqb_spec |}.

Definition pair_eqb {A B} `{Eqb A} `{Eqb B} (p q : A * B) : bool :=
  eqb (fst p) (fst q) && eqb (snd p) (snd q).

Lemma pair_eqb_spec {A B} `{Eqb A} `{Eqb B} (p q : A * B) :
  reflect (p = q) (pair_eqb p q).
Proof.
  destruct p as [a b], q as [c d]; unfold pair_eqb; simpl.
  destruct (eqb_spec a c) as [->|Hn]; simpl.
  - destruct (eqb_spec b d) as [->|Hn]; constructor; congruence.
  - constructor; congruence.
Qed.

#[export] Instance Eqb_pair {A B} `{Eqb A} `{Eqb B} : Eqb (A * B) :=
  {| eqb := pair_eqb; eqb_spec := pair_eqb_spec |}.

Lemma eqb_refl {K} `{Eqb K} (x : K) : eqb x x = true.
Proof. destruct (eqb_spec x x); congruence. Qed.

Lemma eqb_neq {K} `{Eqb K} (x y : K) : x <> y -> eqb x y = false.
Proof. destruct (eqb_spec x y); congruence. Qed.

Lemma eqb_eq {K} `{Eqb K} (x y : K) : eqb x y = true -> x = y.
Proof. destruct (eqb_spec x y); congruence. Qed.

Lemma eqb_false {K} `{Eqb K} (x y : K) : eqb x y = false -> x <> y.
Proof. destruct (eqb_spec x y); congruence. Qed.

Ltac eqb_case x y :=
  let E := fresh "E" in
  destruct (eqb_spec x y) as [E|E]; [try subst|].

(** ** Strings *)

Definition char := N.
Definition str := list char.

(** [lit] turns a literal into a Python string (one code point per byte of
    the literal; the literals below are all ASCII). *)
Definition lit (s : string) : str :=
  List.map N_of_ascii (list_ascii_of_string s).

(** [Py_UNICODE_ISSPACE]: the characters on which [str.split()] splits and
    that the regular expression class [\s] matches. *)
Definition isspace (c : char) : bool :=
  ((9 <=? c) && (c <=? 13) || (28 <=? c) && (c <=? 32)
   || (c =? 133) || (c =? 160) || (c =? 5760)
   || (8192 <=? c) && (c <=? 8202)
   || (c =? 8232) || (c =? 8233) || (c =? 8239) || (c =? 8287)
   || (c =? 12288))%N.

(** [s.split()]: maximal runs of non-space characters.  [split_acc w s] is
    the scan with the current word [w] kept in reverse. *)
Fixpoint split_acc (w : str) (s : str) : list str :=
  match s with
  | [] => match w with [] => [] | _ => [rev w] end
  | c :: s' =>
      if isspace c
      then match w with [] => split_acc [] s' | _ => rev w :: split_acc [] s' end
      else split_acc (c :: w) s'
  end.

Definition split (s : str) : list str := split_acc [] s.

(** [sep.join(l)] *)
Fixpoint join (sep : str) (l : list str) : str :=
  match l with
  | [] => []
  | [x] => x
  | x :: l' => x ++ sep ++ join sep l'
  end.

Fixpoint starts_with (p s : str) : bool :=
  match p, s with
  | [], _ => true
  | a :: p', b :: s' => eqb a b && starts_with p' s'
  | _ :: _, [] => false
  end.

(** [s.replace(old, new)] for a non-empty [old]: leftmost non-overlapping
    occurrences.  The recursion is on the number of characters still to
    skip ([k]) and the remaining input. *)
Fixpoint replace_skip (old new : str) (k : nat) (s : str) : str :=
  match s with
  | [] => []
  | c :: s' =>
      match k with
      | S k' => replace_skip old new k' s'
      | O =>
          if starts_with old s
          then new ++ replace_skip old new (length old - 1) s'
          else c :: replace_skip old new 0 s'
      end
  end.

Definition replace (old new s : str) : str := replace_skip old new 0 s.

(** [s.strip()] *)
Fixpoint lstrip (s : str) : str :=
  match s with
  | c :: s' => if isspace c then lstrip s' else s
  | [] => []
  end.

Definition strip (s : str) : str := rev (lstrip (rev (lstrip s))).

(** ** Exceptions *)

Inductive error : Type :=
| ValueError (msg : string)
| RuntimeError (msg : string)
| AssertionError (msg : string)
| ZeroDivisionError
| IndexError
| SamplingError (msg : string).

Inductive result (A : Type) : Type :=
| Ok (a : A)
| Err (e : error).
Arguments Ok {A} a.
Arguments Err {A} e.

Definition bind {A B} (r : result A) (f : A -> result B) : result B :=
  match r with
  | Ok a => f a
  | Err e => Err e
  end.

Notation "x <- r ;; k" := (bind r (fun x => k))
  (at level 61, r at next level, right associativity).

(** ** Dictionaries *)

Section Dict.
Context {K V : Type} `{Eqb K}.

Definition dict := list (K * V).

Fixpoint get (d : dict) (k : K) : option V :=
  match d with
  | [] => None
  | (k', v) :: d' => if eqb k' k then Some v else get d' k
  end.

(** [d.get(k, dflt)] *)
Definition get_or (d : dict) (k : K) (dflt : V) : V :=
  match get d k with Some v => v | None => dflt end.

(** [d[k] = v] *)
Fixpoint set (d : dict) (k : K) (v : V) : dict :=
  match d with
  | [] => [(k, v)]
  | (k', v') :: d' =>
      if eqb k' k then (k', v) :: d' else (k', v') :: set d' k v
  end.

Definition keys (d : dict) : list K := List.map fst d.
Definition values (d : dict) : list V := List.map snd d.

(** [k in d] *)
Definition mem (d : dict) (k : K) : bool :=
  match get d k with Some _ => true | None => false end.

End Dict.

Arguments dict : clear implicits.
(** [d[k] += n] on a [collections.defaultdict(int)] *)
Definition incr {K} `{Eqb K} (d : dict K Z) (k : K) (n : Z) : dict K Z :=
  set d k (get_or d k 0%Z + n)%Z.

(** [sum(l)] on floats: a left fold from [0] *)
Definition sum (l : list Q) : Q := fold_left Qplus l 0.

(** Python sets of strings are lists without repetition; [union a b] is
    [a | b].  The iteration order of a Python set is unspecified: the
    model lists the elements of [a] first.  No statement below depends on
    that order. *)
Definition union {K} `{Eqb K} (a b : list K) : list K :=
  fold_left (fun acc x => if existsb (eqb x) acc then acc else acc ++ [x]) b a.

Definition Qltb (x y : Q) : bool := negb (Qle_bool y x).

(** The counting loops [for k in ks: d[k] += 1] *)
Definition count_all {K} `{Eqb K} (d : dict K Z) (ks : list K) : dict K Z :=
  fold_left (fun d k => incr d k 1%Z) ks d.

(** ** Vocabulary of the statements *)

Section Counting.
Context {K : Type} `{Eqb K}.
Implicit Types (d : dict K Z) (k : K) (ks : list K).

(** Number of occurrences of [k] in [ks] *)
Definition occ k ks : Z := Z.of_nat (length (filter (eqb k) ks)).

(** Sum of the values whose key satisfies [P] *)
Fixpoint fsum (P : K -> bool) d : Z :=
  match d with
  | [] => 0
  | (k, v) :: d' => ((if P k then v else 0) + fsum P d')%Z
  end.

(** The distinct elements of a list, in order of first occurrence *)
Definition distinct ks : list K :=
  fold_left (fun acc k => if existsb (eqb k) acc then acc else acc ++ [k]) ks [].
End Counting.

(* ================================================================== *)
(** * The interpolated trigram language model *)
(* ================================================================== *)

Module Trigram.

Definition EOT_TOKEN : str := lit "<EOT>".
Definition EOS_TOKEN : str := lit "<EOS>".
Definition EOP_TOKEN : str := lit "<EOP>".

(** A trigram context is a Python tuple of tokens; [load] rebuilds the
    tuples by splitting the persisted keys, so their arity is not fixed by
    the type. *)
Abbreviation ctx := (list str) (only parsing).

Record TrigramModel : Type := {
  lambda1 : Q;
  lambda2 : Q;
  lambda3 : Q;
  unigram_counts : dict str Z;
  bigram_counts : dict (str * str) Z;
  trigram_counts : dict (ctx * str) Z;
  unigram_probs : dict str Q;
  bigram_probs : dict str (dict str Q);
  trigram_probs : dict ctx (dict str Q);
  vocab_size : Z;
  total_tokens : Z
}.

Definition tolerance : Q := 1 # 1000000.

(** [TrigramModel.__init__] *)
Definition init (l1 l2 l3 : Q) : result TrigramModel :=
  if Qltb (Qabs (l1 + l2 + l3 - 1)) tolerance
  then Ok {| lambda1 := l1; lambda2 := l2; lambda3 := l3;
             unigram_counts := []; bigram_counts := []; trigram_counts := [];
             unigram_probs := []; bigram_probs := []; trigram_probs := [];
             vocab_size := 0; total_tokens := 0 |}
  else Err (AssertionError "Interpolation weights must sum to 1.").

(** The default weights of the constructor. *)
Definition default_lambda1 : Q := 1 # 10.
Definition default_lambda2 : Q := 3 # 10.
Definition default_lambda3 : Q := 6 # 10.

(** ** Training *)

(** [(tokens[i], tokens[i+1]) for i in range(len(tokens) - 1)] *)
Fixpoint bigrams (tokens : list str) : list (str * str) :=
  match tokens with
  | a :: (b :: _) as rest => (a, b) :: bigrams rest
  | _ => []
  end.

(** [((tokens[i], tokens[i+1]), tokens[i+2]) for i in range(len(tokens) - 2)] *)
Fixpoint trigrams (tokens : list str) : list (ctx * str) :=
  match tokens with
  | a :: (b :: c :: _) as rest => ([a; b], c) :: trigrams rest
  | _ => []
  end.

(** The two conversions of counts into conditional probabilities (lines
    85-93 for bigrams, 95-103 for trigrams) are the same loops over a
    different context type. *)
Section Conditional.
Context {C : Type} `{Eqb C}.

Definition context_totals (counts : dict (C * str) Z) : dict C Z :=
  fold_left (fun tot '((c, _), cnt) => incr tot c cnt) counts [].

Definition cond_step (tot : dict C Z) (probs : dict C (dict str Q))
    (item : (C * str) * Z) : dict C (dict str Q) :=
  let '((c, w), cnt) := item in
  let probs := if mem probs c then probs else set probs c [] in
  set probs c (set (get_or probs c []) w
                   (inject_Z cnt / inject_Z (get_or tot c 0%Z))).

Definition cond_probs (counts : dict (C * str) Z) (tot : dict C Z)
    (probs : dict C (dict str Q)) : dict C (dict str Q) :=
  fold_left (cond_step tot) counts probs.
End Conditional.

Definition unigram_step (total : Z) (probs : dict str Q) (item : str * Z)
    : dict str Q :=
  set probs (fst item) (inject_Z (snd item) / inject_Z total).

(** [TrigramModel.train]: the tables of [m] are updated in place. *)
Definition train_tokens (m : TrigramModel) (tokens : list str) : TrigramModel :=
  let total := Z.of_nat (length tokens) in
  let uc := count_all (unigram_counts m) tokens in
  let bc := count_all (bigram_counts m) (bigrams tokens) in
  let tc := count_all (trigram_counts m) (trigrams tokens) in
  {| lambda1 := lambda1 m; lambda2 := lambda2 m; lambda3 := lambda3 m;
     unigram_counts := uc; bigram_counts := bc; trigram_counts := tc;
     unigram_probs := fold_left (unigram_step total) uc (unigram_probs m);
     bigram_probs := cond_probs bc (context_totals bc) (bigram_probs m);
     trigram_probs := cond_probs tc (context_totals tc) (trigram_probs m);
     vocab_size := Z.of_nat (length uc);
     total_tokens := total |}.

Definition train (m : TrigramModel) (corpus : str) : result TrigramModel :=
  let tokens := split corpus in
  if (length tokens <? 3)%nat
  then Err (ValueError "Corpus too short to train a trigram model.")
  else Ok (train_tokens m tokens).

(** ** Interpolated probability *)

(** [TrigramModel._interpolated_prob].  The first assignment to [p_bi]
    (line 119) is overwritten by the second (line 121). *)
Definition interpolated_prob (m : TrigramModel) (w1 w2 w3 : str) : Q :=
  let p_uni := get_or (unigram_probs m) w3
                      (1 / inject_Z (Z.max (vocab_size m) 1)) in
  let p_bi := get_or (get_or (bigram_probs m) w1 []) w2 p_uni in
  let p_bi := get_or (get_or (bigram_probs m) w2 []) w3 p_uni in
  let p_tri := get_or (get_or (trigram_probs m) [w1; w2] []) w3 0 in
  lambda3 m * p_tri + lambda2 m * p_bi + lambda1 m * p_uni.

(** ** Candidate next-token distribution *)

Definition candidates (m : TrigramModel) (w1 w2 : str) : list str :=
  union (union (keys (get_or (trigram_probs m) [w1; w2] []))
               (keys (get_or (bigram_probs m) w2 [])))
        (keys (unigram_probs m)).

(** [{k: v / total for k, v in dist.items()}] *)
Definition scale (total : Q) (dist : dict str Q) : dict str Q :=
  List.map (fun kv => (fst kv, snd kv / total)) dist.

(** [TrigramModel._next_token_dist] *)
Definition next_token_dist (m : TrigramModel) (w1 w2 : str) : dict str Q :=
  let dist := List.map (fun w3 => (w3, interpolated_prob m w1 w2 w3))
                       (candidates m w1 w2) in
  let total := sum (values dist) in
  if Qltb 0 total then scale total dist else dist.

(** ** Text generation *)

Definition mapM {A B} (f : A -> result B) : list A -> result (list B) :=
  fix go l :=
    match l with
    | [] => Ok []
    | x :: l' => y <- f x ;; ys <- go l' ;; Ok (y :: ys)
    end.

(** [total = sum(dist.values()); dist = {k: v / total for ...}] as written
    in [generate]: no guard on [total], so a non-empty [dist] of total
    weight zero raises [ZeroDivisionError]. *)
Definition renormalise (dist : dict str Q) : result (dict str Q) :=
  let total := sum (values dist) in
  match dist with
  | [] => Ok []
  | _ => if Qeq_bool total 0 then Err ZeroDivisionError
         else Ok (scale total dist)
  end.

(** [sorted(items, key=lambda x: -x[1])]: stable, by decreasing value. *)
Fixpoint insert_desc (x : str * Q) (l : list (str * Q)) : list (str * Q) :=
  match l with
  | [] => [x]
  | y :: l' => if Qle_bool (snd y) (snd x) then x :: l
               else y :: insert_desc x l'
  end.

Definition sorted_desc (l : list (str * Q)) : list (str * Q) :=
  fold_right insert_desc [] l.

(** [l[:k]] *)
Definition slice_to {A} (k : Z) (l : list A) : list A :=
  if (0 <=? k)%Z then firstn (Z.to_nat k) l
  else firstn (length l - Z.to_nat (- k)) l.

Definition top_k_filter (top_k : option Z) (dist : dict str Q)
    : result (dict str Q) :=
  match top_k with
  | None => Ok dist
  | Some k => renormalise (slice_to k (sorted_desc dist))
  end.

Section Sampling.
(** The random source and floating-point exponentiation are library
    code: [random_seed n] is the generator state after [random.seed(n)],
    [choices g words weights] is [random.choices(words, weights=weights,
    k=1)[0]] together with the next generator state, and [pow v e] is
    [v ** e]. *)
Variable rng : Type.
Variable random_seed : Z -> rng.
Variable choices : rng -> list str -> list Q -> result (str * rng).
Variable pow : Q -> Q -> result Q.

Definition apply_temperature (temperature : Q) (dist : dict str Q)
    : result (dict str Q) :=
  if Qeq_bool temperature 1 then Ok dist
  else if Qeq_bool temperature 0 then Err ZeroDivisionError
  else
    powered <- mapM (fun kv => v <- pow (snd kv) (1 / temperature) ;;
                               Ok (fst kv, v)) dist ;;
    renormalise powered.

(** The body of [for _ in range(max_length)] *)
Fixpoint generate_loop (m : TrigramModel) (temperature : Q)
    (top_k : option Z) (n : nat) (tokens : list str) (g : rng)
    : result (list str) :=
  match n with
  | O => Ok tokens
  | S n' =>
      let w1 := nth (length tokens - 2) tokens [] in
      let w2 := nth (length tokens - 1) tokens [] in
      match next_token_dist m w1 w2 with
      | [] => Ok tokens
      | dist =>
          dist <- apply_temperature temperature dist ;;
          dist <- top_k_filter top_k dist ;;
          drawn <- choices g (keys dist) (values dist) ;;
          let tokens := tokens ++ [fst drawn] in
          if eqb (fst drawn) EOT_TOKEN then Ok tokens
          else generate_loop m temperature top_k n' tokens (snd drawn)
      end
  end.

(** [TrigramModel.generate] up to the final [" ".join(tokens)]; [g] is the
    state of the global generator when the call is made. *)
Definition generate_tokens (m : TrigramModel) (seed : list str)
    (max_length : Z) (temperature : Q) (top_k : option Z)
    (rseed : option Z) (g : rng) : result (list str) :=
  if (length seed <? 2)%nat
  then Err (ValueError "Seed must contain at least 2 tokens.")
  else match unigram_probs m with
       | [] => Err (RuntimeError "Model not trained yet.")
       | _ =>
           let g := match rseed with Some n => random_seed n | None => g end in
           generate_loop m temperature top_k (Z.to_nat max_length) seed g
       end.

Definition generate (m : TrigramModel) (seed : list str)
    (max_length : Z) (temperature : Q) (top_k : option Z)
    (rseed : option Z) (g : rng) : result str :=
  tokens <- generate_tokens m seed max_length temperature top_k rseed g ;;
  Ok (join (lit " ") tokens).
End Sampling.

(** ** Perplexity *)

(** [(tokens[i], tokens[i+1], tokens[i+2]) for i in range(len(tokens) - 2)] *)
Fixpoint windows (tokens : list str) : list (str * str * str) :=
  match tokens with
  | a :: (b :: c :: _) as rest => (a, b, c) :: windows rest
  | _ => []
  end.

(** [max(p, q)] on floats *)
Definition pymax (p q : Q) : Q := if Qltb p q then q else p.

Section Perplexity.
(** [math.log] and [math.exp] *)
Variable log : Q -> Q.
Variable exp : Q -> Q.

Definition floor_prob : Q := 1 # 10000000000.

Definition perplexity (m : TrigramModel) (test_corpus : str) : result Q :=
  let tokens := split test_corpus in
  if (length tokens <? 3)%nat then Err (ValueError "Test corpus too short.")
  else
    let step (acc : Q * Z) (w : str * str * str) :=
      let '(w1, w2, w3) := w in
      (fst acc + log (pymax (interpolated_prob m w1 w2 w3) floor_prob),
       (snd acc + 1)%Z) in
    let '(log_prob_sum, count) := fold_left step (windows tokens) (0, 0%Z) in
    Ok (exp (- log_prob_sum / inject_Z count)).
End Perplexity.

(** ** Persistence *)

(** The JSON object written by [save] and read by [load]. *)
Record State : Type := {
  st_lambda1 : Q;
  st_lambda2 : Q;
  st_lambda3 : Q;
  st_unigram_probs : dict str Q;
  st_bigram_probs : dict str (dict str Q);
  st_trigram_probs : dict str (dict str Q);
  st_vocab_size : Z;
  st_total_tokens : Z
}.

Definition TAB : str := [9%N].

(** [f"{ctx[0]}\t{ctx[1]}"] *)
Definition ctx_key (c : ctx) : result str :=
  match c with
  | a :: b :: _ => Ok (a ++ TAB ++ b)
  | _ => Err IndexError
  end.

(** [k.split("\t")] *)
Fixpoint split_tab_acc (w : str) (s : str) : list str :=
  match s with
  | [] => [rev w]
  | c :: s' => if eqb c 9%N then rev w :: split_tab_acc [] s'
               else split_tab_acc (c :: w) s'
  end.

Definition split_tab (s : str) : list str := split_tab_acc [] s.

(** [TrigramModel.save] *)
Definition save (m : TrigramModel) : result State :=
  tri <- fold_left (fun acc item =>
                      d <- acc ;; k <- ctx_key (fst item) ;;
                      Ok (set d k (snd item)))
                   (trigram_probs m) (Ok []) ;;
  Ok {| st_lambda1 := lambda1 m; st_lambda2 := lambda2 m;
        st_lambda3 := lambda3 m;
        st_unigram_probs := unigram_probs m;
        st_bigram_probs := bigram_probs m;
        st_trigram_probs := tri;
        st_vocab_size := vocab_size m;
        st_total_tokens := total_tokens m |}.

(** [TrigramModel.load]: the raw counts of the instance are left as they
    are, everything else is taken from the file without any check. *)
Definition load (m : TrigramModel) (st : State) : TrigramModel :=
  {| lambda1 := st_lambda1 st; lambda2 := st_lambda2 st;
     lambda3 := st_lambda3 st;
     unigram_counts := unigram_counts m;
     bigram_counts := bigram_counts m;
     trigram_counts := trigram_counts m;
     unigram_probs := st_unigram_probs st;
     bigram_probs := st_bigram_probs st;
     trigram_probs :=
       fold_left (fun d item => set d (split_tab (fst item)) (snd item))
                 (st_trigram_probs st) [];
     vocab_size := st_vocab_size st;
     total_tokens := st_total_tokens st |}.

(** ** Lifecycle *)

(** The states of a model instance: constructed, trained, or loaded from
    a file that [save] wrote for a model in such a state. *)
Inductive reachable : TrigramModel -> Prop :=
| reach_init l1 l2 l3 m :
    init l1 l2 l3 = Ok m -> reachable m
| reach_train m corpus m' :
    reachable m -> train m corpus = Ok m' -> reachable m'
| reach_load m m0 st :
    reachable m -> reachable m0 -> save m0 = Ok st -> reachable (load m st).

(** A trained model: built once by [train] from a fresh instance. *)
Definition trained (l1 l2 l3 : Q) (corpus : str) (m : TrigramModel) : Prop :=
  exists m0, init l1 l2 l3 = Ok m0 /\ train m0 corpus = Ok m.

End Trigram.

(* ================================================================== *)
(** * The subword vocabulary codec *)
(* ================================================================== *)

Module BPE.

Definition END_OF_WORD : str := lit "</w>".
Definition SPACE : str := lit " ".

(** [special_tokens = {"<EOS>", "<EOP>", "<EOT>"}] as a set. *)
Definition special_tokens : list str := [lit "<EOS>"; lit "<EOP>"; lit "<EOT>"].

Definition is_special (s : str) : bool := existsb (eqb s) special_tokens.

(** ** Core helpers *)

(** [get_stats]: the pairs are inserted in order of first occurrence. *)
Fixpoint adjacent (symbols : list str) : list (str * str) :=
  match symbols with
  | a :: (b :: _) as rest => (a, b) :: adjacent rest
  | _ => []
  end.

Definition get_stats (vocab : dict str Z) : dict (str * str) Z :=
  fold_left
    (fun pairs entry =>
       fold_left (fun pairs p => incr pairs p (snd entry))
                 (adjacent (split (fst entry))) pairs)
    vocab [].

(** [pattern.sub(merged, word)] for the pattern
    [(?<!\S) bigram (?!\S)]: a left-to-right scan for non-overlapping
    matches of [bigram] that are preceded by the start of the string or a
    space and followed by the end of the string or a space.  [k] counts
    the characters of the current match still to be skipped and
    [at_boundary] records what the look-behind sees. *)
Definition followed_by_boundary (n : nat) (s : str) : bool :=
  match skipn n s with
  | [] => true
  | c :: _ => isspace c
  end.

Fixpoint sub_scan (bigram merged : str) (k : nat) (at_boundary : bool)
    (s : str) : str :=
  match s with
  | [] => []
  | c :: s' =>
      match k with
      | S k' => sub_scan bigram merged k' (isspace c) s'
      | O =>
          if at_boundary && starts_with bigram s
             && followed_by_boundary (length bigram) s
          then merged ++ sub_scan bigram merged (length bigram - 1)
                                  (isspace c) s'
          else c :: sub_scan bigram merged 0 (isspace c) s'
      end
  end.

Definition pattern_sub (pair : str * str) (word : str) : str :=
  sub_scan (fst pair ++ SPACE ++ snd pair) (fst pair ++ snd pair) 0 true word.

(** [merge_vocab]: [vocab_out[pattern.sub(merged, word)] = freq] *)
Definition merge_vocab (pair : str * str) (vocab_in : dict str Z) : dict str Z :=
  fold_left (fun out entry => set out (pattern_sub pair (fst entry)) (snd entry))
            vocab_in [].

(** ** The tokenizer *)

Definition merge_rule : Type := (str * str) * str.

Record BPETokenizer : Type := {
  vocab : list str;
  merges : list merge_rule;
  token2id : dict str Z;
  id2token : dict Z str
}.

(** [BPETokenizer.__init__] *)
Definition init : BPETokenizer :=
  {| vocab := []; merges := []; token2id := []; id2token := [] |}.

(** *** Index *)

(** The order of Python strings: lexicographic on code points. *)
Fixpoint str_leb (a b : str) : bool :=
  match a, b with
  | [], _ => true
  | _ :: _, [] => false
  | x :: a', y :: b' => (x <? y)%N || ((x =? y)%N && str_leb a' b')
  end.

Fixpoint insert_sorted (x : str) (l : list str) : list str :=
  match l with
  | [] => [x]
  | y :: l' => if str_leb x y then x :: l else y :: insert_sorted x l'
  end.

(** [sorted(l)] *)
Definition sorted (l : list str) : list str := fold_right insert_sorted [] l.

(** [enumerate(l)] from [i] *)
Fixpoint enumerate_from {A} (i : Z) (l : list A) : list (Z * A) :=
  match l with
  | [] => []
  | x :: l' => (i, x) :: enumerate_from (i + 1) l'
  end.

(** [BPETokenizer._build_index]: the two dictionaries built from the set
    [vocab], given in any order of enumeration. *)
Definition build_token2id (vocab : list str) : dict str Z :=
  fold_left (fun d it => set d (snd it) (fst it))
            (enumerate_from 0 (sorted vocab)) [].

Definition build_id2token (t2i : dict str Z) : dict Z str :=
  fold_left (fun d it => set d (snd it) (fst it)) t2i [].

(** *** Training *)

Definition add {K} `{Eqb K} (s : list K) (x : K) : list K :=
  if existsb (eqb x) s then s else s ++ [x].

(** [f"SPECIAL{i}PLACEHOLDER"] *)
Definition placeholder (i : nat) : str :=
  lit "SPECIAL" ++ lit (NilEmpty.string_of_uint (Nat.to_uint i))
      ++ lit "PLACEHOLDER".

(** Lines 93-98.  [order] is the order in which [enumerate(special_tokens)]
    happens to visit the set. *)
Fixpoint protect (i : nat) (order : list str) (pm : dict str str)
    (safe_corpus : str) : dict str str * str :=
  match order with
  | [] => (pm, safe_corpus)
  | tok :: order' =>
      protect (S i) order' (set pm (placeholder i) tok)
              (replace tok (SPACE ++ placeholder i ++ SPACE) safe_corpus)
  end.

(** [list(word)] *)
Definition chars (word : str) : list str := List.map (fun c => [c]) word.

(** Lines 101-107 *)
Definition raw_vocab_step (pm : dict str str) (raw : dict str Z) (word : str)
    : dict str Z :=
  if mem pm word then incr raw word 1%Z
  else incr raw (join SPACE (chars word) ++ SPACE ++ END_OF_WORD) 1%Z.

(** Lines 110-115 *)
Definition restore_step (pm : dict str str) (vocab : dict str Z)
    (entry : str * Z) : dict str Z :=
  match get pm (fst entry) with
  | Some tok => set vocab tok (snd entry)
  | None => set vocab (fst entry) (snd entry)
  end.

Definition initial_vocab (order : list str) (corpus : str) : dict str Z :=
  let '(pm, safe_corpus) := protect 0 order [] corpus in
  let raw := fold_left (raw_vocab_step pm) (split safe_corpus) [] in
  fold_left (restore_step pm) raw [].

(** Lines 118-121 *)
Definition initial_tokens (vocab : dict str Z) : list str :=
  fold_left (fun u word => fold_left add (split word) u) (keys vocab) [].

(** [max(pairs, key=pairs.get)] on a non-empty dictionary: the first key,
    in iteration order, whose value is maximal. *)
Fixpoint max_by_value (best : (str * str) * Z) (rest : dict (str * str) Z)
    : str * str :=
  match rest with
  | [] => fst best
  | p :: rest' =>
      if (snd best <? snd p)%Z then max_by_value p rest'
      else max_by_value best rest'
  end.

(** The pairs that may be merged (lines 133-144): none of the two members
    is a control token. *)
Definition mergeable (vocab : dict str Z) : dict (str * str) Z :=
  filter (fun e => negb (is_special (fst (fst e)))
                   && negb (is_special (snd (fst e))))
         (get_stats vocab).

(** The state of the merging loop. *)
Record loop_state : Type := {
  ls_vocab : dict str Z;
  ls_unique : list str;
  ls_merges : list merge_rule
}.

(** [for i in range(num_merges)], lines 132-150 *)
Fixpoint merge_loop (n : nat) (st : loop_state) : loop_state :=
  match n with
  | O => st
  | S n' =>
      match mergeable (ls_vocab st) with
      | [] => st
      | p :: rest =>
          let best := max_by_value p rest in
          let merged := fst best ++ snd best in
          merge_loop n'
            {| ls_vocab := merge_vocab best (ls_vocab st);
               ls_unique := add (ls_unique st) merged;
               ls_merges := ls_merges st ++ [(best, merged)] |}
      end
  end.

(** [num_merges = max(0, target_vocab_size - len(unique_tokens))] *)
Definition num_merges (target_vocab_size : Z) (unique_tokens : list str) : Z :=
  Z.max 0 (target_vocab_size - Z.of_nat (length unique_tokens)).

Definition train_loop (order : list str) (corpus : str)
    (target_vocab_size : Z) : loop_state :=
  let vocab := initial_vocab order corpus in
  let unique_tokens := initial_tokens vocab in
  merge_loop (Z.to_nat (num_merges target_vocab_size unique_tokens))
             {| ls_vocab := vocab; ls_unique := unique_tokens;
                ls_merges := [] |}.

(** [BPETokenizer.train].  Training never raises. *)
Definition train (order : list str) (corpus : str) (target_vocab_size : Z)
    : BPETokenizer :=
  let st := train_loop order corpus target_vocab_size in
  let vocab := union (ls_unique st) special_tokens in
  let t2i := build_token2id vocab in
  {| vocab := vocab; merges := ls_merges st;
     token2id := t2i; id2token := build_id2token t2i |}.

(** *** Encoding and decoding *)

(** One pass of the [while] loop of [_tokenize_word] for one rule. *)
Fixpoint apply_merge (pair : str * str) (merged : str) (symbols : list str)
    : list str :=
  match symbols with
  | a :: ((b :: rest) as tail) =>
      if eqb a (fst pair) && eqb b (snd pair)
      then merged :: apply_merge pair merged rest
      else a :: apply_merge pair merged tail
  | _ => symbols
  end.

(** [BPETokenizer._tokenize_word] *)
Definition tokenize_word (rules : list merge_rule) (word : str) : list str :=
  fold_left (fun symbols r => apply_merge (fst r) (snd r) symbols)
            rules (chars word ++ [END_OF_WORD]).

(** [re.split(r"(<EOS>|<EOP>|<EOT>)", text)]: the pieces of text between
    the matches, with the matches themselves in between.  [k] counts the
    characters of the current match still to be skipped, [cur] is the
    current piece in reverse. *)
Definition match_special (s : str) : option str :=
  find (fun tok => starts_with tok s) special_tokens.

Fixpoint re_split_acc (k : nat) (cur : str) (s : str) : list str :=
  match s with
  | [] => [rev cur]
  | c :: s' =>
      match k with
      | S k' => re_split_acc k' cur s'
      | O =>
          match match_special s with
          | Some tok => rev cur :: tok :: re_split_acc (length tok - 1) [] s'
          | None => re_split_acc 0 (c :: cur) s'
          end
      end
  end.

Definition re_split (text : str) : list str := re_split_acc 0 [] text.

Definition encode_part (tk : BPETokenizer) (part : str) : list Z :=
  match part with
  | [] => []
  | _ =>
      if is_special part then [get_or (token2id tk) part 0%Z]
      else flat_map (fun word =>
                       List.map (fun tok => get_or (token2id tk) tok 0%Z)
                                (tokenize_word (merges tk) word))
                    (split part)
  end.

(** [BPETokenizer.encode] *)
Definition encode (tk : BPETokenizer) (text : str) : result (list Z) :=
  match token2id tk with
  | [] => Err (RuntimeError "Tokenizer not trained yet.")
  | _ => Ok (flat_map (encode_part tk) (re_split text))
  end.

(** [BPETokenizer.decode] *)
Definition decode (tk : BPETokenizer) (ids : list Z) : result str :=
  match id2token tk with
  | [] => Err (RuntimeError "Tokenizer not trained yet.")
  | _ =>
      let tokens := List.map (fun i => get_or (id2token tk) i []) ids in
      let text := join SPACE tokens in
      let text := replace END_OF_WORD [] (replace (SPACE ++ END_OF_WORD) [] text) in
      Ok (strip text)
  end.

(** One round trip, [decode(encode(text))] *)
Definition round_trip (tk : BPETokenizer) (text : str) : result str :=
  ids <- encode tk text ;; decode tk ids.

(** *** Persistence *)

(** The JSON object written by [save] and read by [load]: the vocabulary
    as a list and the merge rules as [[[a, b], merged]] entries. *)
Record State : Type := {
  st_vocab : list str;
  st_merges : list merge_rule
}.

(** [BPETokenizer.save].  [list(self.vocab)] lists the set in the order of
    its enumeration. *)
Definition save (tk : BPETokenizer) : State :=
  {| st_vocab := vocab tk; st_merges := merges tk |}.

(** [BPETokenizer.load]: [set(state["vocab"])] drops repetitions, and the
    index is built again from the vocabulary. *)
Definition load (st : State) : BPETokenizer :=
  let vocab := distinct (st_vocab st) in
  let t2i := build_token2id vocab in
  {| vocab := vocab; merges := st_merges st;
     token2id := t2i; id2token := build_id2token t2i |}.

End BPE.
(* ================================================================== *)
(** * The generation service *)
(* ================================================================== *)

(** A shallow embedding of [Phase_4_Microservice/main.py]: the helper
    [_build_seed] and the bodies of the two endpoints.  The web framework
    is not modelled: an endpoint is a function of the two global models
    and of a request that the schema [GenerateRequest] has accepted, and
    it returns a response or raises [HTTPException]. *)

Module Service.

(** The two globals [tokenizer] and [model]; [None] until [lifespan] has
    loaded them. *)
Record Globals : Type := {
  tokenizer : option BPE.BPETokenizer;
  model : option Trigram.TrigramModel
}.

Definition not_loaded : Globals := {| tokenizer := None; model := None |}.

(** [lifespan], up to the [yield]: both models are restored from their
    files; [TrigramModel()] is the model with the default weights. *)
Definition lifespan (bpe_file : BPE.State) (trigram_file : Trigram.State)
    : result Globals :=
  m <- Trigram.init Trigram.default_lambda1 Trigram.default_lambda2
                    Trigram.default_lambda3 ;;
  Ok {| tokenizer := Some (BPE.load bpe_file);
        model := Some (Trigram.load m trigram_file) |}.

(** The fields of [GenerateRequest] *)
Record GenerateRequest : Type := {
  prefix : str;
  max_length : Z;
  temperature : Q;
  top_k : Z
}.

(** The constraints of the schema: [min_length=1] and the [ge]/[le]
    bounds of the three numeric fields. *)
Definition accepted (req : GenerateRequest) : Prop :=
  (1 <= length (prefix req))%nat
  /\ (10 <= max_length req <= 1000)%Z
  /\ (1 # 10 <= temperature req /\ temperature req <= 2)
  /\ (1 <= top_k req <= 500)%Z.

Record GenerateResponse : Type := {
  generated_text : str;
  token_count : Z;
  stopped_at_eot : bool
}.

(** The [detail] of an [HTTPException]: a fixed message, or [str(exc)] of
    the exception that the model raised. *)
Inductive detail : Type :=
| Message (msg : string)
| OfException (exc : error).

Inductive HTTPException : Type :=
| http_exception (status_code : Z) (d : detail).

Inductive reply (A : Type) : Type :=
| Returns (a : A)
| Raises (e : HTTPException).
Arguments Returns {A} a.
Arguments Raises {A} e.

(** [_build_seed] *)
Definition build_seed (prefix : str) : list str :=
  let tokens := split (strip prefix) in
  let tokens := filter (fun t => match t with [] => false | _ => true end)
                       tokens in
  if (length tokens =? 1)%nat then tokens ++ tokens else tokens.

(** The body of [health] *)
Record Health : Type := {
  bpe_vocab_size : Z;
  trigram_vocab_size : Z;
  trigram_contexts : Z
}.

Definition health (gl : Globals) : reply Health :=
  match tokenizer gl, model gl with
  | Some tk, Some m =>
      Returns {| bpe_vocab_size := Z.of_nat (length (BPE.vocab tk));
                 trigram_vocab_size := Trigram.vocab_size m;
                 trigram_contexts :=
                   Z.of_nat (length (Trigram.trigram_probs m)) |}
  | _, _ => Raises (http_exception 503 (Message "Models not loaded yet."))
  end.

Section Endpoint.
(** The random source and the exponentiation of [TrigramModel.generate] *)
Variable rng : Type.
Variable random_seed : Z -> rng.
Variable choices : rng -> list str -> list Q -> result (str * rng).
Variable pow : Q -> Q -> result Q.

(** The body of [generate]; [g] is the state of the global random
    generator when the request is served. *)
Definition generate (gl : Globals) (req : GenerateRequest) (g : rng)
    : reply GenerateResponse :=
  match tokenizer gl, model gl with
  | Some _, Some m =>
      match build_seed (prefix req) with
      | [] => Raises (http_exception 422 (Message "Prefix produced no tokens."))
      | seed =>
          match Trigram.generate random_seed choices pow m seed
                                 (max_length req) (temperature req)
                                 (Some (top_k req)) None g with
          | Err exc => Raises (http_exception 500 (OfException exc))
          | Ok output =>
              let out_tokens := split output in
              Returns
                {| generated_text := output;
                   token_count := Z.of_nat (length out_tokens);
                   stopped_at_eot :=
                     match out_tokens with
                     | [] => false
                     | _ => eqb (last out_tokens []) (lit "<EOT>")
                     end |}
          end
      end
  | _, _ => Raises (http_exception 503 (Message "Models not loaded yet."))
  end.
End Endpoint.

End Service.

(* ================================================================== *)
(** * Reference formulas *)
(* ================================================================== *)

(** The probabilities below are written directly from the token stream,
    without the tables of the model. *)

Module Formula.

(** Number of pairs of [l] whose first component is [c] *)
Definition occ_ctx {C W} `{Eqb C} (c : C) (l : list (C * W)) : Z :=
  Z.of_nat (length (filter (fun k => eqb (fst k) c) l)).

(** Relative frequency [count(w3) / total], uniform [1 / vocab_size] for an
    unseen [w3] *)
Definition P_uni (tokens : list str) (w3 : str) : Q :=
  if (occ w3 tokens =? 0)%Z
  then 1 / inject_Z (Z.of_nat (length (distinct tokens)))
  else inject_Z (occ w3 tokens) / inject_Z (Z.of_nat (length tokens)).

(** Conditional maximum-likelihood estimate [count(w2 w3) / count(w2 .)] *)
Definition mle_bi (tokens : list str) (w2 w3 : str) : Q :=
  inject_Z (occ (w2, w3) (Trigram.bigrams tokens))
  / inject_Z (occ_ctx w2 (Trigram.bigrams tokens)).

(** The bigram term of the source: the estimate for a seen bigram, the
    unigram term otherwise *)
Definition P_bi (tokens : list str) (w2 w3 : str) : Q :=
  if (occ (w2, w3) (Trigram.bigrams tokens) =? 0)%Z
  then P_uni tokens w3
  else mle_bi tokens w2 w3.

(** [count(w1 w2 w3) / count(w1 w2 .)], and [0] when the trigram was not
    observed *)
Definition P_tri (tokens : list str) (w1 w2 w3 : str) : Q :=
  if (occ ([w1; w2], w3) (Trigram.trigrams tokens) =? 0)%Z
  then 0
  else inject_Z (occ ([w1; w2], w3) (Trigram.trigrams tokens))
       / inject_Z (occ_ctx [w1; w2] (Trigram.trigrams tokens)).

(** The interpolation as the source computes it *)
Definition interpolated (l1 l2 l3 : Q) (tokens : list str) (w1 w2 w3 : str) : Q :=
  l1 * P_uni tokens w3 + l2 * P_bi tokens w2 w3 + l3 * P_tri tokens w1 w2 w3.

(** The interpolation with the bigram term read as the plain conditional
    maximum-likelihood estimate *)
Definition interpolated_mle (l1 l2 l3 : Q) (tokens : list str)
    (w1 w2 w3 : str) : Q :=
  l1 * P_uni tokens w3 + l2 * mle_bi tokens w2 w3 + l3 * P_tri tokens w1 w2 w3.

End Formula.

(* ================================================================== *)
(** * Vocabulary of the statements *)
(* ================================================================== *)

(** ** Trigram model *)

Section TrigramVocabulary.
Import Trigram.


(** The row of context [c]: the counts of [c] divided by its total. *)
Definition row_of {C} `{Eqb C} (tot : dict C Z) (c : C)
    (items : dict (C * str) Z) : dict str Q :=
  List.map (fun it => (snd (fst it),
                       inject_Z (snd it) / inject_Z (get_or tot c 0%Z)))
           (filter (fun it => eqb (fst (fst it)) c) items).

(** A model with the default weights, before any training. *)
Definition fresh_model : TrigramModel :=
  {| lambda1 := default_lambda1; lambda2 := default_lambda2;
     lambda3 := default_lambda3;
     unigram_counts := []; bigram_counts := []; trigram_counts := [];
     unigram_probs := []; bigram_probs := []; trigram_probs := [];
     vocab_size := 0; total_tokens := 0 |}.

(** The default model trained on the corpus ["a b c"]. *)
Definition abc_model : TrigramModel :=
  train_tokens fresh_model (split (lit "a b c")).

(** A model whose whole weight is on the trigram term, trained on
    ["a b c"]. *)
Definition trigram_only_model : TrigramModel :=
  train_tokens
    {| lambda1 := 0; lambda2 := 0; lambda3 := 1;
       unigram_counts := []; bigram_counts := []; trigram_counts := [];
       unigram_probs := []; bigram_probs := []; trigram_probs := [];
       vocab_size := 0; total_tokens := 0 |}
    (split (lit "a b c")).

Definition positive_dist (d : dict str Q) : Prop :=
  d <> [] /\ Forall (fun v => 0 < v) (values d).

End TrigramVocabulary.

(** ** Codec *)

Section CodecVocabulary.
Import BPE.


Definition str_le (a b : str) : Prop := str_leb a b = true.

(** What the loop maintains. *)
Record loop_inv (st : loop_state) : Prop := {
  inv_nodup : NoDup (ls_unique st);
  inv_rules : forall r, In r (ls_merges st) ->
                snd r = fst (fst r) ++ snd (fst r)
                /\ In (snd r) (ls_unique st)
                /\ is_special (fst (fst r)) = false
                /\ is_special (snd (fst r)) = false
}.

(** The rules learnt by training merge a pair into its concatenation. *)
Definition rules_ok (rules : list merge_rule) : Prop :=
  forall r, In r rules -> snd r = fst (fst r) ++ snd (fst r).

(** The symbols of a word are consecutive non-empty chunks of the word;
    the last symbol carries the end-of-word marker. *)
Definition word_syms (w : str) (syms : list str) : Prop :=
  exists chunks body,
    syms = chunks ++ [body ++ END_OF_WORD]
    /\ concat chunks ++ body = w
    /\ Forall (fun c => c <> []) chunks.

(** A symbol either carries the end-of-word marker or does not. *)
Inductive item : Type :=
| Plain (c : str)
| Marked (body : str).

Definition render (it : item) : str :=
  match it with
  | Plain c => c
  | Marked b => b ++ END_OF_WORD
  end.

Definition bare (it : item) : str :=
  match it with
  | Plain c => c
  | Marked b => b
  end.

(** The marker on its own *)
Definition standalone (it : item) : bool :=
  match it with
  | Marked [] => true
  | _ => false
  end.

(** No white space and no ['<'] *)
Definition clean_str (s : str) : Prop :=
  Forall (fun ch => isspace ch = false /\ ch <> 60%N) s.

Definition good_item (it : item) : Prop :=
  match it with
  | Plain c => c <> [] /\ clean_str c
  | Marked b => clean_str b
  end.

Fixpoint tail_text (f : item -> str) (rest : list item) : str :=
  match rest with
  | [] => []
  | y :: rest' => 32%N :: f y ++ tail_text f rest'
  end.

Definition MARK_WITH_SPACE : str := 32%N :: END_OF_WORD.

(** A text that neither starts nor ends with white space *)
Definition trimmed (s : str) : Prop :=
  (exists ch s', s = ch :: s' /\ isspace ch = false)
  /\ (exists s' ch, s = s' ++ [ch] /\ isspace ch = false).

Definition word_like (s : str) : Prop :=
  s <> [] /\ Forall (fun ch => isspace ch = false) s.

(** The symbol without its last four characters *)
Definition unmark (s : str) : str := firstn (length s - length END_OF_WORD) s.

(** The symbols of a word as items: the last one carries the marker. *)
Definition itemize (syms : list str) : list item :=
  List.map Plain (removelast syms) ++ [Marked (unmark (last syms []))].

(** What one round trip leaves of a word: its symbols without the marker. *)
Definition pieces (rules : list merge_rule) (w : str) : list str :=
  List.map bare (filter (fun it => negb (standalone it))
                        (itemize (tokenize_word rules w))).

(** The string operations of [decode] on a list of symbols *)
Definition decode_text (syms : list str) : str :=
  strip (replace END_OF_WORD []
           (replace (SPACE ++ END_OF_WORD) [] (join SPACE syms))).

Definition clean_word (w : str) : Prop := w <> [] /\ clean_str w.

Definition items_of (rules : list merge_rule) (ws : list str) : list item :=
  flat_map (fun w => itemize (tokenize_word rules w)) ws.

(** A text without ['<'] whose characters, and the end-of-word marker, are
    tokens of the vocabulary. *)
Definition clean_text (tk : BPETokenizer) (t : str) : Prop :=
  Forall (fun ch => ch <> 60%N) t
  /\ In END_OF_WORD (vocab tk)
  /\ forall ch, In ch t -> isspace ch = false -> In [ch] (vocab tk).

(** [n] round trips in a row *)
Fixpoint iterate_round_trip (tk : BPETokenizer) (n : nat) (t : str) : result str :=
  match n with
  | O => Ok t
  | S n' => t' <- round_trip tk t ;; iterate_round_trip tk n' t'
  end.

(** The words after one more round trip *)
Definition step (rules : list merge_rule) (ws : list str) : list str :=
  flat_map (pieces rules) ws.

Fixpoint iter_step (rules : list merge_rule) (n : nat) (ws : list str) : list str :=
  match n with
  | O => ws
  | S n' => iter_step rules n' (step rules ws)
  end.

(** The codec trained on ["b b b b abc abc"] with a target of 6 tokens
    learns the rules [(b, </w>)] and [(a, b)], in this order. *)
Definition abc_codec : BPETokenizer :=
  train special_tokens (lit "b b b b abc abc") 6.

End CodecVocabulary.

(** ** Vocabulary of the statements on the enumeration of the control tokens *)

Section EntryVocabulary.
Import BPE.

(** An entry of the training vocabulary: a control token, kept whole, or
    an ordinary word. *)
Inductive entry : Type :=
| Tok (t : str)
| Ord (w : str).

(** The word collected so far, if any *)
Definition flush (classify : str -> entry) (acc : str) : list entry :=
  match acc with
  | [] => []
  | _ => [classify (rev acc)]
  end.

(** The token of [T] that the text starts with, if any *)
Definition match_tokens (T : list str) (s : str) : option str :=
  find (fun tok => starts_with tok s) T.

(** One pass over a text that cuts it at the tokens of [T] and at white
    space.  [k] counts the characters of the current token still to be
    skipped, [acc] is the current word in reverse. *)
Fixpoint scan (classify : str -> entry) (T : list str) (k : nat) (acc : str)
    (s : str) : list entry :=
  match s with
  | [] => flush classify acc
  | c :: s' =>
      match k with
      | S k' => scan classify T k' acc s'
      | O =>
          match match_tokens T s with
          | Some tok =>
              flush classify acc
              ++ Tok tok :: scan classify T (length tok - 1) [] s'
          | None =>
              if isspace c
              then flush classify acc ++ scan classify T 0 [] s'
              else scan classify T 0 (c :: acc) s'
          end
      end
  end.

(** The entries of a corpus: control tokens and words in order. *)
Definition entries (corpus : str) : list entry :=
  scan Ord special_tokens 0 [] corpus.

(** Classify the words of a list of entries again *)
Definition reclass (classify : str -> entry) (e : entry) : entry :=
  match e with
  | Tok t => Tok t
  | Ord w => classify w
  end.

(** The key of an entry in the training vocabulary *)
Definition entry_key (e : entry) : str :=
  match e with
  | Tok t => t
  | Ord w => join SPACE (chars w) ++ SPACE ++ END_OF_WORD
  end.

(** The strings that stand for the control tokens while the corpus is cut
    into words *)
Definition placeholders : list str := [placeholder 0; placeholder 1; placeholder 2].

(** No word of the corpus (a maximal run of characters between white
    space and control tokens) is one of the three placeholder strings. *)
Definition placeholder_free (corpus : str) : bool :=
  forallb (fun e => match e with
                    | Tok _ => true
                    | Ord w => negb (existsb (eqb w) placeholders)
                    end)
          (entries corpus).

(** The shape of a control token: [<], then four characters without [<]
    or space. *)
Definition shaped (tok : str) : Prop :=
  exists t1, tok = 60%N :: t1 /\ length t1 = 4%nat
             /\ Forall (fun ch => ch <> 60%N /\ ch <> 32%N) t1.

(** How the training loop reads a word of the protected corpus: through
    the placeholder table [pm] *)
Definition classify_by (pm : dict str str) (w : str) : entry :=
  match get pm w with
  | Some t => Tok t
  | None => Ord w
  end.

(** The key under which the word is counted first *)
Definition raw_key (pm : dict str str) (w : str) : str :=
  if mem pm w then w else join SPACE (chars w) ++ SPACE ++ END_OF_WORD.

(** The key after the placeholders were put back *)
Definition restored (pm : dict str str) (k : str) : str :=
  match get pm k with
  | Some t => t
  | None => k
  end.

(** The placeholder table after the three control tokens [a], [b], [c]
    were visited in this order. *)
Definition protected (a b c : str) : dict str str :=
  [(placeholder 0, a); (placeholder 1, b); (placeholder 2, c)].

End EntryVocabulary.

Section RekeyVocabulary.
Context {K : Type} `{Eqb K}.

(** [g] is injective on the elements of [l] *)
Definition inj_on (g : K -> K) (l : list K) : Prop :=
  forall x y, In x l -> In y l -> g x = g y -> x = y.

(** The dictionary with every key [k] renamed to [g k] *)
Definition rekeyed (g : K -> K) (d : dict K Z) : dict K Z :=
  List.map (fun e => (g (fst e), snd e)) d.

End RekeyVocabulary.

(** ** Vocabulary of the further statements on the codec *)

Section EncodeVocabulary.
Import BPE.

(** The ids of a word: its symbols looked up with the fallback [0] *)
Definition word_ids (tk : BPETokenizer) (w : str) : list Z :=
  List.map (fun tok => get_or (token2id tk) tok 0%Z)
           (tokenize_word (merges tk) w).

(** The ids of an entry of a text *)
Definition entry_ids (tk : BPETokenizer) (e : entry) : list Z :=
  match e with
  | Tok t => [get_or (token2id tk) t 0%Z]
  | Ord w => word_ids tk w
  end.

End EncodeVocabulary.

(** ** Vocabulary of the further statements on the trigram model *)

Section PersistenceVocabulary.
Import Trigram.

(** A context of two tokens without a tab *)
Definition pair_ctx (c : list str) : Prop :=
  exists a b, c = [a; b] /\ ~ In 9%N a /\ ~ In 9%N b.

(** The key of a context in the file *)
Definition file_key (c : list str) : str :=
  match c with
  | a :: b :: _ => a ++ TAB ++ b
  | _ => []
  end.

(** What the life cycle of a model keeps true of its trigram tables: the
    contexts, in the probabilities and in the counts, are pairs of tokens
    without a tab, and no context is stored twice. *)
Record well_keyed (m : TrigramModel) : Prop := {
  wk_nodup : NoDup (keys (trigram_probs m));
  wk_probs : Forall pair_ctx (keys (trigram_probs m));
  wk_counts : Forall (fun k => pair_ctx (fst k)) (keys (trigram_counts m))
}.

(** The sum of the counts of a table *)
Definition total_count {K} (d : dict K Z) : Z :=
  fold_right Z.add 0%Z (values d).

End PersistenceVocabulary.

(** ** Samplers used to run [generate] on examples *)

(** A random source that always draws the first candidate *)
Definition first_choice (g : unit) (words : list str) (weights : list Q)
    : result (str * unit) :=
  match words with
  | w :: _ => Ok (w, g)
  | [] => Err IndexError
  end.

(** No exponentiation is needed at temperature [1.0] *)
Definition no_pow (v e : Q) : result Q := Ok v.

(** ** Vocabulary of the statement on the top-k filter *)

(** [x] is at least as probable as [y] *)
Definition at_least (x y : str * Q) : Prop := snd y <= snd x.

(** ** Vocabulary of the statements on the training loop *)

Section TrainingVocabulary.
Import BPE.

(** The weight of a pair in a weighted vocabulary: for every entry, its
    frequency times the number of places where the two symbols are
    adjacent in the entry. *)
Definition pair_weight (p : str * str) (vocab : dict str Z) : Z :=
  fold_right (fun e acc => (snd e * occ p (adjacent (split (fst e))) + acc)%Z)
             0%Z vocab.

(** The symbols of a vocabulary entry after the merges [rules], applied
    in order *)
Definition merged_symbols (rules : list merge_rule) (syms : list str)
    : list str :=
  fold_left (fun symbols r => apply_merge (fst r) (snd r) symbols) rules syms.

(** The end of a text, or white space: what the look-ahead of the pattern
    of [merge_vocab] accepts *)
Definition boundary (t : str) : Prop :=
  t = [] \/ exists c t', t = c :: t' /\ isspace c = true.

(** An entry after the merges [rules]: its symbols, merged, joined by
    single spaces *)
Definition resegment (rules : list merge_rule) (k : str) : str :=
  join SPACE (merged_symbols rules (split k)).

(** The vocabulary with every entry segmented by [rules] and its
    frequency unchanged *)
Definition segmented (rules : list merge_rule) (V : dict str Z) : dict str Z :=
  List.map (fun e => (resegment rules (fst e), snd e)) V.

(** A key that lists symbols separated by single spaces *)
Definition symbol_key (k : str) : Prop :=
  Forall word_like (split k) /\ join SPACE (split k) = k.

(** A weighted vocabulary of a corpus: its keys are symbol keys, and no
    two of them spell the same text. *)
Record corpus_vocab (V : dict str Z) : Prop := {
  cv_nodup : NoDup (keys V);
  cv_keys : forall k, In k (keys V) -> symbol_key k;
  cv_spell : forall k1 k2, In k1 (keys V) -> In k2 (keys V) ->
               concat (split k1) = concat (split k2) -> k1 = k2
}.

(** What a word of the protected corpus stands for: a control token, or
    a word without white space *)
Definition corpus_entry (e : entry) : Prop :=
  match e with
  | Tok t => In t special_tokens
  | Ord w => word_like w
  end.

(** The symbols of an entry before any merge *)
Definition entry_symbols (e : entry) : list str :=
  match e with
  | Tok t => [t]
  | Ord w => chars w ++ [END_OF_WORD]
  end.

End TrainingVocabulary.

Section TrainingSpecVocabulary.
Import BPE.

(** What the merging loop keeps true: the vocabulary is the vocabulary of
    the corpus [V0] segmented by the rules learnt so far, and every rule
    merges a pair into its concatenation. *)
Record loop_segmented (V0 : dict str Z) (st : loop_state) : Prop := {
  seg_vocab : ls_vocab st = segmented (ls_merges st) V0;
  seg_corpus : corpus_vocab (segmented (ls_merges st) V0);
  seg_split : forall k, In k (keys V0) ->
                split (resegment (ls_merges st) k)
                = merged_symbols (ls_merges st) (split k)
}.

(** The rule [r] is a best choice for the vocabulary [V]: it merges a
    pair into its concatenation, the pair is the first of the mergeable
    pairs of [V] with the largest weight. *)
Definition best_rule (V : dict str Z) (r : merge_rule) : Prop :=
  snd r = fst (fst r) ++ snd (fst r)
  /\ exists p rest, mergeable V = p :: rest /\ fst r = max_by_value p rest.

End TrainingSpecVocabulary.
(* ================================================================== *)
(** * Facts about dictionaries *)
(* ================================================================== *)

Section DictFacts.
Context {K V : Type} `{Eqb K}.
Implicit Types (d : dict K V) (k : K) (v : V).

Lemma get_set_same d k v : get (set d k v) k = Some v.
Proof.
  induction d as [|[k' v'] d IH]; simpl.
  - now rewrite eqb_refl.
  - destruct (eqb k' k) eqn:E; simpl; rewrite E; auto.
Qed.

Lemma get_set_other d k k' v : k <> k' -> get (set d k v) k' = get d k'.
Proof.
  intros Hn; induction d as [|[k0 v0] d IH]; simpl.
  - now rewrite eqb_neq.
  - destruct (eqb k0 k) eqn:E; simpl.
    + apply eqb_eq in E; subst k0. now rewrite eqb_neq.
    + now rewrite IH.
Qed.

Lemma get_None_keys d k : get d k = None <-> ~ In k (keys d).
Proof.
  induction d as [|[k' v'] d IH]; simpl.
  - tauto.
  - eqb_case k' k.
    + split; [discriminate | intros Hn; exfalso; auto].
    + rewrite IH. tauto.
Qed.

Lemma get_Some_In d k v : get d k = Some v -> In (k, v) d.
Proof.
  induction d as [|[k' v'] d IH]; simpl; [discriminate|].
  eqb_case k' k.
  - intros [= ->]; auto.
  - auto.
Qed.

Lemma In_get_nodup d k v : NoDup (keys d) -> In (k, v) d -> get d k = Some v.
Proof.
  induction d as [|[k' v'] d IH]; simpl; [tauto|].
  intros Hnd [[= -> ->]|Hin].
  - now rewrite eqb_refl.
  - inversion Hnd; subst.
    eqb_case k' k.
    + exfalso. apply H2. change k with (fst (k, v)). now apply in_map.
    + auto.
Qed.

Lemma set_absent d k v : get d k = None -> set d k v = d ++ [(k, v)].
Proof.
  induction d as [|[k' v'] d IH]; simpl; auto.
  destruct (eqb k' k); [discriminate|].
  intros Hg; now rewrite IH.
Qed.

Lemma keys_set_absent d k v : get d k = None -> keys (set d k v) = keys d ++ [k].
Proof.
  intros Hg. rewrite set_absent by assumption.
  unfold keys. now rewrite map_app.
Qed.

Lemma keys_set_present d k v : get d k <> None -> keys (set d k v) = keys d.
Proof.
  induction d as [|[k' v'] d IH]; simpl; [congruence|].
  destruct (eqb k' k) eqn:E; simpl; auto.
  intros Hg. now rewrite IH.
Qed.

Lemma NoDup_keys_set d k v : NoDup (keys d) -> NoDup (keys (set d k v)).
Proof.
  intros Hnd. destruct (get d k) eqn:Hg.
  - rewrite keys_set_present; congruence.
  - rewrite keys_set_absent by assumption.
    apply NoDup_app; auto.
    + repeat constructor; auto.
    + intros x Hx [<-|[]]. now apply get_None_keys in Hg.
Qed.

Lemma get_map_values {W} (f : V -> W) d k :
  get (List.map (fun kv => (fst kv, f (snd kv))) d) k = option_map f (get d k).
Proof.
  induction d as [|[k' v'] d IH]; simpl; auto.
  destruct (eqb k' k); auto.
Qed.
End DictFacts.

(** ** Counting with [incr] *)

Section CountFacts.
Context {K : Type} `{Eqb K}.
Implicit Types (d : dict K Z) (k : K) (ks : list K).

Lemma occ_nonneg k ks : (0 <= occ k ks)%Z.
Proof. unfold occ; lia. Qed.

Lemma occ_app k ks ks' : occ k (ks ++ ks') = (occ k ks + occ k ks')%Z.
Proof. unfold occ. rewrite filter_app, length_app. lia. Qed.

Lemma occ_pos_In k ks : (0 < occ k ks)%Z <-> In k ks.
Proof.
  unfold occ. induction ks as [|x ks IH]; simpl.
  - split; [lia | tauto].
  - eqb_case k x; simpl.
    + split; [auto | lia].
    + rewrite IH. split; [auto | intros [->|]; [congruence | auto]].
Qed.

Lemma get_or_incr_same d k n : get_or (incr d k n) k 0%Z = (get_or d k 0 + n)%Z.
Proof. unfold incr, get_or at 1. now rewrite get_set_same. Qed.

Lemma get_incr_other d k k' n : k <> k' -> get (incr d k n) k' = get d k'.
Proof. intros; unfold incr; now apply get_set_other. Qed.

Lemma existsb_eqb_In k ks : existsb (eqb k) ks = true <-> In k ks.
Proof.
  rewrite existsb_exists. split.
  - intros (x & Hin & E). apply eqb_eq in E. now subst.
  - intros Hin. exists k. split; auto. apply eqb_refl.
Qed.

Lemma existsb_eqb_false k ks : existsb (eqb k) ks = false <-> ~ In k ks.
Proof.
  rewrite <- existsb_eqb_In. destruct (existsb (eqb k) ks); intuition congruence.
Qed.

Lemma keys_incr d k n :
  keys (incr d k n) = if existsb (eqb k) (keys d) then keys d else keys d ++ [k].
Proof.
  unfold incr. destruct (existsb (eqb k) (keys d)) eqn:E.
  - apply keys_set_present. rewrite get_None_keys.
    apply existsb_eqb_In in E. tauto.
  - apply keys_set_absent. rewrite get_None_keys.
    now apply existsb_eqb_false.
Qed.

Lemma NoDup_keys_incr d k n : NoDup (keys d) -> NoDup (keys (incr d k n)).
Proof. apply NoDup_keys_set. Qed.

Lemma fsum_app P d d' : fsum P (d ++ d') = (fsum P d + fsum P d')%Z.
Proof. induction d as [|[k v] d IH]; simpl; lia. Qed.

Lemma fsum_set P d k v :
  fsum P (set d k v) =
  (fsum P d + if P k then v - get_or d k 0 else 0)%Z.
Proof.
  unfold get_or. induction d as [|[k' v'] d IH]; simpl.
  - destruct (P k); lia.
  - eqb_case k' k; simpl.
    + destruct (P k); lia.
    + rewrite IH. destruct (P k), (P k'); lia.
Qed.

Lemma fsum_incr P d k n :
  fsum P (incr d k n) = (fsum P d + if P k then n else 0)%Z.
Proof. unfold incr. rewrite fsum_set. destruct (P k); lia. Qed.

(** *** [count_all]: what the counting loops compute *)

Lemma count_all_snoc d ks k :
  count_all d (ks ++ [k]) = incr (count_all d ks) k 1.
Proof. unfold count_all. now rewrite fold_left_app. Qed.

Lemma distinct_snoc ks k :
  distinct (ks ++ [k]) =
  if existsb (eqb k) (distinct ks) then distinct ks else distinct ks ++ [k].
Proof. unfold distinct. now rewrite fold_left_app. Qed.

Lemma keys_count_all ks : keys (count_all [] ks) = distinct ks.
Proof.
  induction ks as [|k ks IH] using rev_ind; [reflexivity|].
  rewrite count_all_snoc, distinct_snoc, keys_incr. now rewrite IH.
Qed.

Lemma In_distinct k ks : In k (distinct ks) <-> In k ks.
Proof.
  induction ks as [|x ks IH] using rev_ind; [reflexivity|].
  rewrite distinct_snoc, in_app_iff. simpl.
  destruct (existsb (eqb x) (distinct ks)) eqn:E.
  - apply existsb_eqb_In in E. rewrite IH in *.
    intuition (subst; auto).
  - rewrite in_app_iff, IH. simpl. tauto.
Qed.

Lemma NoDup_distinct ks : NoDup (distinct ks).
Proof.
  induction ks as [|x ks IH] using rev_ind; [constructor|].
  rewrite distinct_snoc.
  destruct (existsb (eqb x) (distinct ks)) eqn:E; auto.
  apply existsb_eqb_false in E.
  apply NoDup_app; auto.
  - repeat constructor; auto.
  - intros y Hy [<-|[]]. auto.
Qed.

Lemma NoDup_keys_count_all ks : NoDup (keys (count_all [] ks)).
Proof. rewrite keys_count_all. apply NoDup_distinct. Qed.

Lemma get_or_count_all ks k : get_or (count_all [] ks) k 0%Z = occ k ks.
Proof.
  induction ks as [|x ks IH] using rev_ind; [reflexivity|].
  rewrite count_all_snoc, occ_app.
  eqb_case x k.
  - rewrite get_or_incr_same, IH. unfold occ; simpl. rewrite eqb_refl. simpl. lia.
  - unfold get_or in *. rewrite get_incr_other by assumption.
    rewrite IH. unfold occ; simpl. rewrite eqb_neq by congruence. simpl. lia.
Qed.

Lemma get_count_all ks k :
  get (count_all [] ks) k = if (occ k ks =? 0)%Z then None else Some (occ k ks).
Proof.
  destruct (get (count_all [] ks) k) as [v|] eqn:Hg.
  - pose proof (get_or_count_all ks k) as Ho. unfold get_or in Ho.
    rewrite Hg in Ho. subst v.
    assert (Hin : In k ks).
    { apply In_distinct. rewrite <- keys_count_all.
      apply get_Some_In in Hg. change k with (fst (k, occ k ks)).
      now apply in_map. }
    apply occ_pos_In in Hin.
    destruct (Z.eqb_spec (occ k ks) 0); [lia | reflexivity].
  - apply get_None_keys in Hg. rewrite keys_count_all, In_distinct in Hg.
    rewrite <- occ_pos_In in Hg. pose proof (occ_nonneg k ks).
    destruct (Z.eqb_spec (occ k ks) 0); [reflexivity | lia].
Qed.

Lemma In_count_all ks k v :
  In (k, v) (count_all [] ks) -> v = occ k ks /\ (0 < v)%Z.
Proof.
  intros Hin.
  apply In_get_nodup in Hin; [|apply NoDup_keys_count_all].
  rewrite get_count_all in Hin.
  pose proof (occ_nonneg k ks).
  destruct (Z.eqb_spec (occ k ks) 0); [discriminate|].
  injection Hin as <-. split; [reflexivity | lia].
Qed.

Lemma fsum_count_all P ks :
  fsum P (count_all [] ks) = Z.of_nat (length (filter P ks)).
Proof.
  induction ks as [|x ks IH] using rev_ind; [reflexivity|].
  rewrite count_all_snoc, fsum_incr, IH, filter_app, length_app. simpl.
  destruct (P x); simpl; lia.
Qed.
End CountFacts.

(** ** Sets as lists *)

Section UnionFacts.
Context {K : Type} `{Eqb K}.

Lemma In_union (a b : list K) (x : K) : In x (union a b) <-> In x a \/ In x b.
Proof.
  unfold union. revert a; induction b as [|y b IH]; intros a; simpl.
  - tauto.
  - rewrite IH. destruct (existsb (eqb y) a) eqn:E.
    + apply existsb_eqb_In in E. intuition (subst; auto).
    + rewrite in_app_iff. simpl. intuition (subst; auto).
Qed.

Lemma NoDup_union (a b : list K) : NoDup a -> NoDup (union a b).
Proof.
  unfold union. revert a; induction b as [|y b IH]; intros a Ha; simpl; auto.
  apply IH. destruct (existsb (eqb y) a) eqn:E; auto.
  apply existsb_eqb_false in E.
  apply NoDup_app; auto.
  - repeat constructor; auto.
  - intros z Hz [<-|[]]. auto.
Qed.
End UnionFacts.

(* ================================================================== *)
(** * Facts about sums of rationals *)
(* ================================================================== *)

Section SumFacts.

Lemma fold_left_Qplus (l : list Q) (a : Q) :
  fold_left Qplus l a == a + sum l.
Proof.
  unfold sum. revert a; induction l as [|x l IH]; intros a; simpl.
  - ring.
  - rewrite IH, (IH (0 + x)). ring.
Qed.

Lemma sum_cons (x : Q) (l : list Q) : sum (x :: l) == x + sum l.
Proof. unfold sum at 1; simpl. rewrite fold_left_Qplus. ring. Qed.

Lemma sum_app (l l' : list Q) : sum (l ++ l') == sum l + sum l'.
Proof.
  induction l as [|x l IH]; simpl.
  - unfold sum at 2; simpl. ring.
  - rewrite !sum_cons, IH. ring.
Qed.

Lemma sum_nonneg (l : list Q) : Forall (fun x => 0 <= x) l -> 0 <= sum l.
Proof.
  induction 1 as [|x l Hx _ IH].
  - unfold sum; simpl. lra.
  - rewrite sum_cons. lra.
Qed.

Lemma sum_pos (l : list Q) :
  l <> [] -> Forall (fun x => 0 < x) l -> 0 < sum l.
Proof.
  intros Hne Hall. destruct Hall as [|x l Hx Hl]; [congruence|].
  rewrite sum_cons.
  assert (0 <= sum l).
  { apply sum_nonneg. eapply Forall_impl; [|exact Hl]. simpl; intros; lra. }
  lra.
Qed.

Lemma sum_ge_member (l : list Q) (x : Q) :
  Forall (fun y => 0 <= y) l -> In x l -> x <= sum l.
Proof.
  induction 1 as [|y l Hy Hl IH]; simpl; [tauto|].
  rewrite sum_cons. pose proof (sum_nonneg Hl).
  intros [->|Hin]; [lra|]. specialize (IH Hin). lra.
Qed.

Lemma sum_map_div {A} (f : A -> Q) (t : Q) (l : list A) :
  sum (List.map (fun x => f x / t) l) == sum (List.map f l) / t.
Proof.
  induction l as [|x l IH]; simpl.
  - unfold sum; simpl. unfold Qdiv. ring.
  - rewrite !sum_cons, IH. unfold Qdiv. ring.
Qed.

Lemma sum_map_inject_Z {A} (f : A -> Z) (l : list A) :
  sum (List.map (fun x => inject_Z (f x)) l)
  == inject_Z (fold_right Z.add 0%Z (List.map f l)).
Proof.
  induction l as [|x l IH]; simpl.
  - reflexivity.
  - rewrite sum_cons, IH, inject_Z_plus. reflexivity.
Qed.

End SumFacts.

(* ================================================================== *)
(** * The tables built by [TrigramModel.train] *)
(* ================================================================== *)

Section FoldSet.
Context {K V A : Type} `{Eqb K}.

Lemma fold_set_fresh (f : A -> K) (g : A -> V) (items : list A) (d : dict K V) :
  NoDup (List.map f items) ->
  (forall x, In x items -> ~ In (f x) (keys d)) ->
  fold_left (fun p it => set p (f it) (g it)) items d
  = d ++ List.map (fun it => (f it, g it)) items.
Proof.
  revert d; induction items as [|x items IH]; intros d Hnd Hfresh; simpl.
  - now rewrite app_nil_r.
  - inversion Hnd as [|? ? Hx Hnd']; subst.
    rewrite set_absent.
    + rewrite IH; auto.
      * now rewrite <- app_assoc.
      * intros y Hy. unfold keys. rewrite map_app, in_app_iff. simpl.
        intros [Hin|[E|[]]].
        -- eapply Hfresh; [right; exact Hy | exact Hin].
        -- apply Hx. rewrite E. now apply in_map.
    + apply get_None_keys. apply Hfresh. now left.
Qed.
End FoldSet.

Section ConditionalFacts.
Context {C : Type} `{Eqb C}.
Implicit Types (items : dict (C * str) Z) (tot : dict C Z) (c : C) (w : str).

Lemma row_of_app tot c items items' :
  row_of tot c (items ++ items') = row_of tot c items ++ row_of tot c items'.
Proof. unfold row_of. now rewrite filter_app, map_app. Qed.

Lemma get_row_of tot c items w :
  get (row_of tot c items) w
  = option_map (fun n => inject_Z n / inject_Z (get_or tot c 0%Z))
               (get items (c, w)).
Proof.
  unfold row_of. induction items as [|[[c' w'] n] items IH]; simpl; auto.
  destruct (eqb_spec c' c) as [->|Hc]; simpl.
  - destruct (eqb_spec w' w) as [->|Hw].
    + now rewrite eqb_refl.
    + rewrite (@eqb_neq _ _ (c, w') (c, w)) by congruence. apply IH.
  - rewrite (@eqb_neq _ _ (c', w') (c, w)) by congruence. apply IH.
Qed.

Lemma get_or_context_totals items c :
  get_or (Trigram.context_totals items) c 0%Z
  = fsum (fun k => eqb (fst k) c) items.
Proof.
  unfold Trigram.context_totals.
  induction items as [|[[c' w'] n] items IH] using rev_ind; [reflexivity|].
  rewrite fold_left_app, fsum_app. simpl.
  eqb_case c' c.
  - rewrite get_or_incr_same, IH. lia.
  - unfold get_or in *. rewrite get_incr_other by assumption.
    rewrite IH. lia.
Qed.

Lemma NoDup_keys_cond_probs items tot (probs : dict C (dict str Q)) :
  NoDup (keys probs) -> NoDup (keys (Trigram.cond_probs items tot probs)).
Proof.
  unfold Trigram.cond_probs. revert probs.
  induction items as [|[[c w] n] items IH]; intros probs Hnd; simpl; auto.
  apply IH. apply NoDup_keys_set.
  destruct (mem probs c); auto. now apply NoDup_keys_set.
Qed.

Lemma get_or_cond_probs items tot c :
  NoDup (keys items) ->
  get (Trigram.cond_probs items tot []) c
  = match row_of tot c items with [] => None | r => Some r end.
Proof.
  unfold Trigram.cond_probs.
  induction items as [|[[c0 w0] n0] items IH] using rev_ind; intros Hnd.
  - reflexivity.
  - unfold keys in Hnd. rewrite map_app in Hnd. simpl in Hnd.
    apply NoDup_remove in Hnd. rewrite app_nil_r in Hnd.
    destruct Hnd as [Hnd Hfresh]. specialize (IH Hnd).
    rewrite fold_left_app, row_of_app. simpl.
    set (P := fold_left (Trigram.cond_step tot) items []) in *.
    eqb_case c0 c.
    + assert (Hrow : get_or (if mem P c then P else set P c []) c []
                     = row_of tot c items).
      { unfold mem, get_or. rewrite IH.
        destruct (row_of tot c items) eqn:Er.
        - now rewrite get_set_same.
        - now rewrite IH. }
      rewrite Hrow, get_set_same.
      assert (Hw : get (row_of tot c items) w0 = None).
      { rewrite get_row_of.
        destruct (get items (c, w0)) eqn:Hg; [|reflexivity].
        exfalso. apply Hfresh. apply get_Some_In in Hg.
        change (c, w0) with (fst (c, w0, z)). now apply in_map. }
      rewrite (set_absent _ _ _ Hw).
      unfold row_of at 3. simpl. rewrite eqb_refl. simpl.
      destruct (row_of tot c items); reflexivity.
    + rewrite get_set_other by assumption.
      unfold row_of at 2. simpl. rewrite eqb_neq by assumption. simpl.
      rewrite app_nil_r.
      destruct (mem P c0); [apply IH|].
      rewrite get_set_other by assumption. apply IH.
Qed.

Lemma get_or_row items tot c :
  NoDup (keys items) ->
  get_or (Trigram.cond_probs items tot []) c [] = row_of tot c items.
Proof.
  intros Hnd. unfold get_or. rewrite get_or_cond_probs by assumption.
  now destruct (row_of tot c items).
Qed.

Lemma sum_row items c :
  (forall k n, In (k, n) items -> (0 < n)%Z) ->
  row_of (Trigram.context_totals items) c items <> [] ->
  sum (values (row_of (Trigram.context_totals items) c items)) == 1.
Proof.
  intros Hpos Hne. unfold values, row_of in *.
  rewrite map_map. simpl.
  rewrite (sum_map_div (fun it => inject_Z (snd it))), sum_map_inject_Z.
  rewrite get_or_context_totals.
  set (sel := filter (fun it => eqb (fst (fst it)) c) items) in *.
  assert (E : fsum (fun k => eqb (fst k) c) items
              = fold_right Z.add 0%Z (List.map snd sel)).
  { subst sel. clear. induction items as [|[k n] items IH]; simpl; auto.
    destruct (eqb (fst k) c); simpl; lia. }
  rewrite E.
  assert (Hs : (0 < fold_right Z.add 0 (List.map snd sel))%Z).
  { assert (Hall : forall it, In it sel -> (0 < snd it)%Z).
    { intros [k n] Hin. subst sel. apply filter_In in Hin.
      eapply Hpos. apply Hin. }
    destruct sel as [|it sel']; [simpl in Hne; congruence|].
    clear Hne E. simpl.
    assert (0 <= fold_right Z.add 0 (List.map snd sel'))%Z.
    { clear -Hall. induction sel' as [|y l IH]; simpl; [lia|].
      assert (0 < snd y)%Z by (apply Hall; simpl; auto).
      assert (0 <= fold_right Z.add 0 (List.map snd l))%Z; [|lia].
      apply IH. intros z [->|Hz]; apply Hall; simpl; auto. }
    assert (0 < snd it)%Z by (apply Hall; simpl; auto). lia. }
  field. intros Hz.
  assert (Hq : 0 < inject_Z (fold_right Z.add 0%Z (List.map snd sel))).
  { change 0 with (inject_Z 0). now rewrite <- Zlt_Qlt. }
  lra.
Qed.

(** Lookup in the table built from the counts of a stream [ks]. *)
Lemma cond_lookup (ks : list (C * str)) c w (dflt : Q) :
  let items := count_all [] ks in
  get_or (get_or (Trigram.cond_probs items (Trigram.context_totals items) [])
                 c []) w dflt
  = if (occ (c, w) ks =? 0)%Z then dflt
    else inject_Z (occ (c, w) ks) / inject_Z (Formula.occ_ctx c ks).
Proof.
  intros items.
  rewrite get_or_row by apply NoDup_keys_count_all.
  unfold get_or at 1. rewrite get_row_of.
  unfold items at 2. rewrite get_count_all.
  destruct (occ (c, w) ks =? 0)%Z; simpl; [reflexivity|].
  rewrite get_or_context_totals. unfold items.
  now rewrite fsum_count_all.
Qed.
End ConditionalFacts.

(** ** The model after one training run *)

Section Trained.
Import Trigram.

Variables (l1 l2 l3 : Q) (corpus : str) (m : TrigramModel).
Hypothesis Htrained : trained l1 l2 l3 corpus m.

Let tokens := split corpus.
Let uc := count_all [] tokens.
Let bc := count_all [] (bigrams tokens).
Let tc := count_all [] (trigrams tokens).

Lemma trained_unfold :
  (3 <= length tokens)%nat /\
  Qabs (l1 + l2 + l3 - 1) < tolerance /\
  m = train_tokens
        {| lambda1 := l1; lambda2 := l2; lambda3 := l3;
           unigram_counts := []; bigram_counts := []; trigram_counts := [];
           unigram_probs := []; bigram_probs := []; trigram_probs := [];
           vocab_size := 0; total_tokens := 0 |} tokens.
Proof.
  destruct Htrained as (m0 & Hinit & Htrain).
  unfold init in Hinit.
  destruct (Qltb (Qabs (l1 + l2 + l3 - 1)) tolerance) eqn:Hq; [|discriminate].
  injection Hinit as <-.
  unfold train in Htrain. fold tokens in Htrain.
  destruct (length tokens <? 3)%nat eqn:Hlen; [discriminate|].
  injection Htrain as <-.
  apply Nat.ltb_ge in Hlen.
  repeat split; auto.
  unfold Qltb in Hq. apply negb_true_iff in Hq.
  destruct (Qlt_le_dec (Qabs (l1 + l2 + l3 - 1)) tolerance) as [|Hle]; auto.
  apply Qle_bool_iff in Hle. congruence.
Qed.

Lemma trained_lambdas : lambda1 m = l1 /\ lambda2 m = l2 /\ lambda3 m = l3.
Proof. destruct trained_unfold as (_ & _ & ->). now simpl. Qed.

Lemma trained_unigram_probs :
  unigram_probs m
  = List.map (fun kv => (fst kv, inject_Z (snd kv)
                                 / inject_Z (Z.of_nat (length tokens)))) uc.
Proof.
  destruct trained_unfold as (_ & _ & ->). simpl.
  unfold unigram_step.
  rewrite (fold_set_fresh fst
             (fun it => inject_Z (snd it) / inject_Z (Z.of_nat (length tokens)))).
  - reflexivity.
  - apply NoDup_keys_count_all.
  - simpl; auto.
Qed.

Lemma trained_bigram_probs :
  bigram_probs m = cond_probs bc (context_totals bc) [].
Proof. destruct trained_unfold as (_ & _ & ->). reflexivity. Qed.

Lemma trained_trigram_probs :
  trigram_probs m = cond_probs tc (context_totals tc) [].
Proof. destruct trained_unfold as (_ & _ & ->). reflexivity. Qed.

Lemma trained_vocab_size :
  vocab_size m = Z.of_nat (length (distinct tokens)) /\ (1 <= vocab_size m)%Z.
Proof.
  destruct trained_unfold as (Hlen & _ & ->). simpl.
  assert (E : length (count_all [] tokens) = length (distinct tokens)).
  { rewrite <- keys_count_all. unfold keys. now rewrite length_map. }
  rewrite E. split; auto.
  destruct tokens as [|t ts] eqn:Et; [simpl in Hlen; lia|].
  assert (Hin : In t (distinct (t :: ts))) by (apply In_distinct; now left).
  destruct (distinct (t :: ts)); [destruct Hin | simpl; lia].
Qed.

Lemma trained_unigram_nonempty : unigram_probs m <> [].
Proof.
  rewrite trained_unigram_probs.
  destruct trained_unfold as (Hlen & _).
  unfold uc. destruct tokens as [|t ts] eqn:Et; [simpl in Hlen; lia|].
  assert (Hin : In t (keys (count_all [] (t :: ts)))).
  { rewrite keys_count_all. apply In_distinct. now left. }
  destruct (count_all [] (t :: ts)); [destruct Hin | discriminate].
Qed.

Lemma tokens_pos : 0 < inject_Z (Z.of_nat (length tokens)).
Proof.
  destruct trained_unfold as (Hlen & _).
  change 0 with (inject_Z 0). rewrite <- Zlt_Qlt. lia.
Qed.

Lemma get_unigram w :
  get (unigram_probs m) w
  = if (occ w tokens =? 0)%Z then None
    else Some (inject_Z (occ w tokens) / inject_Z (Z.of_nat (length tokens))).
Proof.
  rewrite trained_unigram_probs.
  rewrite (get_map_values
             (fun c => inject_Z c / inject_Z (Z.of_nat (length tokens)))).
  unfold uc. rewrite get_count_all.
  now destruct (occ w tokens =? 0)%Z.
Qed.

Lemma p_uni_eq w3 :
  get_or (unigram_probs m) w3 (1 / inject_Z (Z.max (vocab_size m) 1))
  = Formula.P_uni tokens w3.
Proof.
  unfold get_or, Formula.P_uni. rewrite get_unigram.
  destruct trained_vocab_size as [Ev Hv].
  rewrite Z.max_l by lia. rewrite Ev.
  now destruct (occ w3 tokens =? 0)%Z.
Qed.

Lemma interpolated_prob_formula w1 w2 w3 :
  interpolated_prob m w1 w2 w3 == Formula.interpolated l1 l2 l3 tokens w1 w2 w3.
Proof.
  unfold interpolated_prob, Formula.interpolated.
  destruct trained_lambdas as (-> & -> & ->).
  rewrite p_uni_eq, trained_bigram_probs, trained_trigram_probs.
  unfold bc, tc. rewrite !cond_lookup.
  unfold Formula.P_bi, Formula.mle_bi, Formula.P_tri.
  generalize (Formula.P_uni tokens w3); intros a.
  repeat match goal with
         | |- context [if ?b then _ else _] => destruct b
         end; unfold Qdiv; ring.
Qed.

(** *** Signs of the three terms *)

Lemma occ_le_occ_ctx {C} `{Eqb C} (c : C) (w : str) (ks : list (C * str)) :
  (occ (c, w) ks <= Formula.occ_ctx c ks)%Z.
Proof.
  unfold occ, Formula.occ_ctx. apply inj_le.
  induction ks as [|[c' w'] ks IH]; simpl; auto.
  destruct (eqb_spec (c, w) (c', w')) as [E|E].
  - injection E as <- <-. rewrite eqb_refl. simpl. lia.
  - destruct (eqb c' c); simpl; lia.
Qed.

Lemma ratio_pos (a b : Z) : (0 < a <= b)%Z -> 0 < inject_Z a / inject_Z b.
Proof.
  intros [Ha Hb].
  apply Qlt_shift_div_l.
  - change 0 with (inject_Z 0). rewrite <- Zlt_Qlt. lia.
  - rewrite Qmult_0_l. change 0 with (inject_Z 0). now rewrite <- Zlt_Qlt.
Qed.

Lemma P_uni_pos w3 : 0 < Formula.P_uni tokens w3.
Proof.
  unfold Formula.P_uni.
  pose proof (occ_nonneg w3 tokens) as Ho.
  destruct (Z.eqb_spec (occ w3 tokens) 0) as [E|E].
  - destruct trained_vocab_size as [Ev Hv]. rewrite <- Ev.
    change 1 with (inject_Z 1). apply ratio_pos. lia.
  - apply ratio_pos. split; [lia|].
    unfold occ. apply inj_le. apply filter_length_le.
Qed.

Lemma cond_term_pos {C} `{Eqb C} (c : C) (w : str) (ks : list (C * str)) :
  (occ (c, w) ks =? 0)%Z = false ->
  0 < inject_Z (occ (c, w) ks) / inject_Z (Formula.occ_ctx c ks).
Proof.
  intros E. apply Z.eqb_neq in E.
  pose proof (occ_nonneg (c, w) ks). pose proof (occ_le_occ_ctx c w ks).
  apply ratio_pos. lia.
Qed.

Lemma P_bi_pos w2 w3 : 0 < Formula.P_bi tokens w2 w3.
Proof.
  unfold Formula.P_bi, Formula.mle_bi.
  destruct (occ (w2, w3) (bigrams tokens) =? 0)%Z eqn:E.
  - apply P_uni_pos.
  - now apply cond_term_pos.
Qed.

Lemma P_tri_nonneg w1 w2 w3 : 0 <= Formula.P_tri tokens w1 w2 w3.
Proof.
  unfold Formula.P_tri.
  destruct (occ ([w1; w2], w3) (trigrams tokens) =? 0)%Z eqn:E.
  - lra.
  - apply Qlt_le_weak. now apply cond_term_pos.
Qed.

Lemma interpolated_nonneg w1 w2 w3 :
  0 <= l1 -> 0 <= l2 -> 0 <= l3 -> 0 <= interpolated_prob m w1 w2 w3.
Proof.
  intros H1 H2 H3. rewrite interpolated_prob_formula.
  unfold Formula.interpolated.
  pose proof (P_uni_pos w3). pose proof (P_bi_pos w2 w3).
  pose proof (P_tri_nonneg w1 w2 w3).
  nra.
Qed.

Lemma interpolated_pos w1 w2 w3 :
  0 <= l1 -> 0 <= l2 -> 0 <= l3 -> 0 < l1 + l2 ->
  0 < interpolated_prob m w1 w2 w3.
Proof.
  intros H1 H2 H3 H12. rewrite interpolated_prob_formula.
  unfold Formula.interpolated.
  pose proof (P_uni_pos w3) as Ha. pose proof (P_bi_pos w2 w3) as Hb.
  pose proof (P_tri_nonneg w1 w2 w3) as Hc.
  assert (0 <= l3 * Formula.P_tri tokens w1 w2 w3)
    by (apply Qmult_le_0_compat; lra).
  assert (0 <= l1 * Formula.P_uni tokens w3)
    by (apply Qmult_le_0_compat; lra).
  assert (0 <= l2 * Formula.P_bi tokens w2 w3)
    by (apply Qmult_le_0_compat; lra).
  destruct (Qlt_le_dec 0 l1) as [Hl1|Hl1].
  - assert (0 < l1 * Formula.P_uni tokens w3)
      by (apply Qmult_lt_0_compat; lra).
    lra.
  - assert (0 < l2 * Formula.P_bi tokens w2 w3)
      by (apply Qmult_lt_0_compat; lra).
    lra.
Qed.

End Trained.

(* ================================================================== *)
(** * Properties of the trigram model *)
(* ================================================================== *)

Section TrigramExamples.
Import Trigram.

Lemma fresh_model_init :
  init default_lambda1 default_lambda2 default_lambda3 = Ok fresh_model.
Proof. reflexivity. Defined.

Lemma abc_model_trained :
  trained default_lambda1 default_lambda2 default_lambda3 (lit "a b c") abc_model.
Proof. exists fresh_model. split; reflexivity. Defined.

Lemma trigram_only_model_trained :
  trained 0 0 1 (lit "a b c") trigram_only_model.
Proof. eexists. split; reflexivity. Defined.

End TrigramExamples.

(** ** C1: the interpolated probability *)

(** C1, as amended.  For a model trained with weights [l1], [l2], [l3] on
    [corpus], the interpolated probability of [w3] after [(w1, w2)] is
    [l1 * P_uni(w3) + l2 * P_bi(w3 | w2) + l3 * P_tri(w3 | w1, w2)], where
    [P_uni] is the relative frequency of [w3] (uniform [1 / vocab_size] for
    an unseen [w3]), [P_tri] is the conditional relative frequency of the
    trigram ([0] when it was not observed), and [P_bi] is the conditional
    relative frequency of the bigram [(w2, w3)] when that bigram was
    observed and falls back to [P_uni(w3)] when it was not. *)
Theorem interpolated_prob_correct
    (l1 l2 l3 : Q) (corpus : str) (m : Trigram.TrigramModel) (w1 w2 w3 : str) :
  Trigram.trained l1 l2 l3 corpus m ->
  Trigram.interpolated_prob m w1 w2 w3
  == Formula.interpolated l1 l2 l3 (split corpus) w1 w2 w3.
Proof.
  intros Htrained. now apply interpolated_prob_formula.
Qed.

Lemma interpolated_prob_correct_witness :
  Trigram.trained Trigram.default_lambda1 Trigram.default_lambda2
                  Trigram.default_lambda3 (lit "a b c") abc_model
  /\ Trigram.interpolated_prob abc_model (lit "a") (lit "b") (lit "c")
     == Formula.interpolated Trigram.default_lambda1 Trigram.default_lambda2
          Trigram.default_lambda3 (split (lit "a b c"))
          (lit "a") (lit "b") (lit "c").
Proof.
  split.
  - exact abc_model_trained.
  - exact (interpolated_prob_correct (lit "a") (lit "b") (lit "c")
             abc_model_trained).
Defined.

(** C1, as stated, fails: with the bigram term read as the conditional
    maximum-likelihood estimate, the model trained on ["a b c"] should give
    the unseen bigram [(a, c)] the bigram term [0]; the source gives it the
    unigram term [1/3]. *)
Lemma interpolated_prob_not_mle :
  exists m,
    Trigram.trained Trigram.default_lambda1 Trigram.default_lambda2
                    Trigram.default_lambda3 (lit "a b c") m
    /\ Trigram.interpolated_prob m (lit "b") (lit "a") (lit "c") == 2 # 15
    /\ Formula.interpolated_mle Trigram.default_lambda1 Trigram.default_lambda2
         Trigram.default_lambda3 (split (lit "a b c"))
         (lit "b") (lit "a") (lit "c") == 1 # 30
    /\ ~ Trigram.interpolated_prob m (lit "b") (lit "a") (lit "c")
         == Formula.interpolated_mle Trigram.default_lambda1
              Trigram.default_lambda2 Trigram.default_lambda3
              (split (lit "a b c")) (lit "b") (lit "a") (lit "c").
Proof.
  exists abc_model. split; [exact abc_model_trained|].
  repeat split; try (vm_compute; reflexivity).
  intros H. vm_compute in H. discriminate.
Qed.

(** ** C10: the stored tables are normalised *)

Lemma filter_true_id {A} (l : list A) : filter (fun _ => true) l = l.
Proof. induction l as [|x l IH]; simpl; congruence. Qed.

Lemma fold_add_fsum {K} (d : dict K Z) :
  fold_right Z.add 0%Z (List.map snd d) = fsum (fun _ => true) d.
Proof. induction d as [|[k v] d IH]; simpl; auto. now rewrite IH. Qed.

Lemma stored_row_normalised {C} `{Eqb C} (ks : list (C * str)) (c : C)
    (row : dict str Q) :
  let items := count_all [] ks in
  In (c, row) (Trigram.cond_probs items (Trigram.context_totals items) []) ->
  sum (values row) == 1.
Proof.
  intros items Hin.
  apply In_get_nodup in Hin.
  2:{ apply NoDup_keys_cond_probs. constructor. }
  rewrite get_or_cond_probs in Hin by apply NoDup_keys_count_all.
  destruct (row_of (Trigram.context_totals items) c items) eqn:Er;
    [discriminate|].
  injection Hin as <-. rewrite <- Er.
  apply sum_row.
  - intros k n Hk. now apply In_count_all in Hk.
  - congruence.
Qed.

(** C10.  After training, the unigram probabilities sum to 1 and, for
    every bigram context and every trigram context stored in the tables,
    the stored continuation probabilities of that context sum to 1
    (exactly, on rationals). *)
Theorem trained_tables_normalised
    (l1 l2 l3 : Q) (corpus : str) (m : Trigram.TrigramModel) :
  Trigram.trained l1 l2 l3 corpus m ->
  sum (values (Trigram.unigram_probs m)) == 1
  /\ (forall w1 row, In (w1, row) (Trigram.bigram_probs m) ->
                     sum (values row) == 1)
  /\ (forall c row, In (c, row) (Trigram.trigram_probs m) ->
                    sum (values row) == 1).
Proof.
  intros Htrained. repeat split.
  - rewrite (trained_unigram_probs Htrained).
    unfold values. rewrite map_map. simpl.
    rewrite (sum_map_div (fun kv => inject_Z (snd kv))), sum_map_inject_Z.
    rewrite fold_add_fsum, fsum_count_all.
    rewrite filter_true_id.
    pose proof (tokens_pos Htrained) as Hpos. simpl in Hpos.
    field. lra.
  - intros w1 row. rewrite (trained_bigram_probs Htrained).
    apply stored_row_normalised.
  - intros c row. rewrite (trained_trigram_probs Htrained).
    apply stored_row_normalised.
Qed.

Lemma trained_tables_normalised_witness :
  Trigram.trained Trigram.default_lambda1 Trigram.default_lambda2
                  Trigram.default_lambda3 (lit "a b c") abc_model
  /\ sum (values (Trigram.unigram_probs abc_model)) == 1.
Proof.
  split.
  - exact abc_model_trained.
  - exact (proj1 (trained_tables_normalised abc_model_trained)).
Defined.

(** ** C3: the candidate distribution *)

Lemma values_map_pair {A B} (f : A -> B) (l : list A) :
  values (List.map (fun x => (x, f x)) l) = List.map f l.
Proof. unfold values. rewrite map_map. simpl. reflexivity. Qed.

Lemma values_scale (t : Q) (d : dict str Q) :
  values (Trigram.scale t d) = List.map (fun v => v / t) (values d).
Proof. unfold values, Trigram.scale. now rewrite !map_map. Qed.

Lemma Qltb_true (x y : Q) : Qltb x y = true <-> x < y.
Proof.
  unfold Qltb. rewrite negb_true_iff.
  destruct (Qle_bool y x) eqn:E.
  - apply Qle_bool_iff in E. split; [discriminate | intros; lra].
  - split; auto. intros _.
    destruct (Qlt_le_dec x y) as [|Hle]; auto.
    apply Qle_bool_iff in Hle. congruence.
Qed.

Lemma Qltb_false (x y : Q) : Qltb x y = false <-> y <= x.
Proof.
  rewrite <- not_true_iff_false, Qltb_true. split; intros; lra.
Qed.

(** Dividing non-negative scores by their positive total gives a
    probability distribution. *)
Lemma scaled_scores_normalised (scores : list Q) :
  Forall (fun p => 0 <= p) scores -> 0 < sum scores ->
  sum (List.map (fun v => v / sum scores) scores) == 1
  /\ Forall (fun p => 0 <= p) (List.map (fun v => v / sum scores) scores).
Proof.
  intros Hnn Hpos. split.
  - rewrite (sum_map_div (fun v => v)), map_id. field. lra.
  - apply Forall_map. eapply Forall_impl; [|exact Hnn].
    simpl. intros v Hv. apply Qle_shift_div_l; lra.
Qed.

Section CandidateDistribution.
Import Trigram.
Variables (l1 l2 l3 : Q) (corpus : str) (m : TrigramModel) (w1 w2 : str).
Hypothesis Htrained : trained l1 l2 l3 corpus m.
Hypotheses (H1 : 0 <= l1) (H2 : 0 <= l2) (H3 : 0 <= l3).

Let scores := List.map (interpolated_prob m w1 w2) (candidates m w1 w2).

Lemma scores_nonneg : Forall (fun p => 0 <= p) scores.
Proof.
  apply Forall_map, Forall_forall. intros w3 _.
  now apply (interpolated_nonneg Htrained).
Qed.

Lemma vocabulary_in_candidates w :
  In w (split corpus) -> In w (candidates m w1 w2).
Proof.
  intros Hin. unfold candidates. apply In_union. right.
  rewrite (trained_unigram_probs Htrained).
  unfold keys. rewrite map_map. simpl.
  change (List.map (fun x : str * Z => fst x) (count_all [] (split corpus)))
    with (keys (count_all [] (split corpus))).
  rewrite keys_count_all. now apply In_distinct.
Qed.

Lemma total_pos_smoothed : 0 < l1 + l2 -> 0 < sum scores.
Proof.
  intros H12. apply sum_pos.
  - destruct (trained_unfold Htrained) as (Hlen & _).
    destruct (split corpus) as [|t ts] eqn:Et; [simpl in Hlen; lia|].
    assert (Hin : In t (candidates m w1 w2)).
    { apply vocabulary_in_candidates. rewrite Et. now left. }
    unfold scores. destruct (candidates m w1 w2); [destruct Hin|discriminate].
  - apply Forall_map, Forall_forall. intros w3 _.
    now apply (interpolated_pos Htrained).
Qed.

Lemma weight_on_trigrams : l1 + l2 <= 0 -> 0 < l3.
Proof.
  intros H12. destruct (trained_unfold Htrained) as (_ & Htol & _).
  apply Qabs_Qlt_condition in Htol. unfold tolerance in Htol.
  destruct Htol as [Hlo _].
  assert (E : - (1 # 1000000) + 1 < l1 + l2 + l3) by lra.
  assert (0 < - (1 # 1000000) + 1) by reflexivity.
  lra.
Qed.

Lemma total_pos_seen_context :
  0 < l3 -> mem (trigram_probs m) [w1; w2] = true -> 0 < sum scores.
Proof.
  intros Hl3 Hmem. unfold mem in Hmem.
  destruct (get (trigram_probs m) [w1; w2]) as [r|] eqn:Hg; [|discriminate].
  clear Hmem.
  pose proof Hg as Hrow.
  rewrite (trained_trigram_probs Htrained) in Hrow.
  rewrite get_or_cond_probs in Hrow by apply NoDup_keys_count_all.
  set (tc := count_all [] (trigrams (split corpus))) in *.
  destruct (row_of (context_totals tc) [w1; w2] tc) as [|[w3 p] d] eqn:Er;
    [discriminate|].
  injection Hrow as <-.
  assert (Hocc : (occ ([w1; w2], w3) (trigrams (split corpus)) =? 0)%Z = false).
  { assert (Hget : get (row_of (context_totals tc) [w1; w2] tc) w3 = Some p).
    { rewrite Er. simpl. now rewrite eqb_refl. }
    rewrite get_row_of in Hget. unfold tc in Hget at 2.
    rewrite get_count_all in Hget.
    destruct (occ ([w1; w2], w3) (trigrams (split corpus)) =? 0)%Z;
      [discriminate | reflexivity]. }
  assert (Hcand : In w3 (candidates m w1 w2)).
  { unfold candidates. apply In_union. left. apply In_union. left.
    unfold get_or. rewrite Hg. simpl. now left. }
  assert (Hscore : 0 < interpolated_prob m w1 w2 w3).
  { rewrite (interpolated_prob_formula Htrained). unfold Formula.interpolated.
    pose proof (P_uni_pos Htrained w3) as Ha.
    pose proof (P_bi_pos Htrained w2 w3) as Hb.
    assert (Hc : 0 < Formula.P_tri (split corpus) w1 w2 w3).
    { unfold Formula.P_tri. rewrite Hocc. now apply cond_term_pos. }
    assert (0 <= l1 * Formula.P_uni (split corpus) w3)
      by (apply Qmult_le_0_compat; lra).
    assert (0 <= l2 * Formula.P_bi (split corpus) w2 w3)
      by (apply Qmult_le_0_compat; lra).
    assert (0 < l3 * Formula.P_tri (split corpus) w1 w2 w3)
      by (apply Qmult_lt_0_compat; lra).
    lra. }
  eapply Qlt_le_trans; [exact Hscore|].
  apply sum_ge_member; [apply scores_nonneg|].
  unfold scores. now apply in_map.
Qed.

Lemma next_token_dist_scaled :
  0 < sum scores ->
  values (next_token_dist m w1 w2)
  = List.map (fun v => v / sum scores) scores.
Proof.
  intros Hpos. unfold next_token_dist.
  rewrite values_map_pair. fold scores.
  apply Qltb_true in Hpos. rewrite Hpos.
  now rewrite values_scale, values_map_pair.
Qed.

End CandidateDistribution.

(** C3, as amended.  For a model trained with non-negative weights and a
    context [(w1, w2)] such that [l1 + l2 > 0] or [(w1, w2)] is a trigram
    context stored by training, the renormalised candidate distribution
    sums to 1 (exactly, on rationals) and has no negative entry. *)
Theorem next_token_dist_normalised
    (l1 l2 l3 : Q) (corpus : str) (m : Trigram.TrigramModel) (w1 w2 : str) :
  Trigram.trained l1 l2 l3 corpus m ->
  0 <= l1 -> 0 <= l2 -> 0 <= l3 ->
  0 < l1 + l2 \/ mem (Trigram.trigram_probs m) [w1; w2] = true ->
  sum (values (Trigram.next_token_dist m w1 w2)) == 1
  /\ Forall (fun p => 0 <= p) (values (Trigram.next_token_dist m w1 w2)).
Proof.
  intros Htrained H1 H2 H3 Hcase.
  assert (Hpos : 0 < sum (List.map (Trigram.interpolated_prob m w1 w2)
                                   (Trigram.candidates m w1 w2))).
  { destruct (Qlt_le_dec 0 (l1 + l2)) as [H12|H12].
    - eapply total_pos_smoothed; eauto.
    - destruct Hcase as [Hc|Hc]; [lra|].
      eapply total_pos_seen_context; eauto.
      eapply weight_on_trigrams; eauto. }
  rewrite (next_token_dist_scaled m w1 w2 Hpos).
  apply scaled_scores_normalised; auto.
  eapply scores_nonneg; eauto.
Qed.

Lemma next_token_dist_normalised_witness :
  Trigram.trained Trigram.default_lambda1 Trigram.default_lambda2
                  Trigram.default_lambda3 (lit "a b c") abc_model
  /\ sum (values (Trigram.next_token_dist abc_model (lit "x") (lit "y"))) == 1.
Proof.
  split.
  - exact abc_model_trained.
  - refine (proj1 (@next_token_dist_normalised
                     Trigram.default_lambda1 Trigram.default_lambda2
                     Trigram.default_lambda3 (lit "a b c") abc_model
                     (lit "x") (lit "y") abc_model_trained _ _ _ _)).
    + vm_compute; discriminate.
    + vm_compute; discriminate.
    + vm_compute; discriminate.
    + left. vm_compute; reflexivity.
Defined.

(** C3, as stated, fails: the weights [(0, 0, 1)] are non-negative and sum
    to 1, and after training on ["a b c"] every candidate for the unseen
    context [(x, y)] scores [0]; the guard [if total > 0] then skips the
    renormalisation and the returned values sum to [0]. *)
Lemma next_token_dist_zero_total :
  exists m,
    Trigram.trained 0 0 1 (lit "a b c") m
    /\ keys (Trigram.next_token_dist m (lit "x") (lit "y"))
       = [lit "a"; lit "b"; lit "c"]
    /\ sum (values (Trigram.next_token_dist m (lit "x") (lit "y"))) == 0
    /\ ~ Qabs (sum (values (Trigram.next_token_dist m (lit "x") (lit "y"))) - 1)
         <= Trigram.tolerance.
Proof.
  exists trigram_only_model. split; [exact trigram_only_model_trained|].
  repeat split; try (vm_compute; reflexivity).
  intros H. vm_compute in H. apply H. reflexivity.
Qed.

(** ** C5: the interpolation weights *)

Lemma init_accepts (l1 l2 l3 : Q) (m : Trigram.TrigramModel) :
  Trigram.init l1 l2 l3 = Ok m ->
  Qabs (l1 + l2 + l3 - 1) < Trigram.tolerance
  /\ Trigram.lambda1 m = l1 /\ Trigram.lambda2 m = l2 /\ Trigram.lambda3 m = l3.
Proof.
  unfold Trigram.init.
  destruct (Qltb (Qabs (l1 + l2 + l3 - 1)) Trigram.tolerance) eqn:E;
    [|discriminate].
  intros [= <-]. apply Qltb_true in E. simpl. auto.
Qed.

Lemma train_keeps_weights (m m' : Trigram.TrigramModel) (corpus : str) :
  Trigram.train m corpus = Ok m' ->
  Trigram.lambda1 m' = Trigram.lambda1 m
  /\ Trigram.lambda2 m' = Trigram.lambda2 m
  /\ Trigram.lambda3 m' = Trigram.lambda3 m.
Proof.
  unfold Trigram.train.
  destruct (length (split corpus) <? 3)%nat; [discriminate|].
  intros [= <-]. simpl. auto.
Qed.

Lemma save_keeps_weights (m : Trigram.TrigramModel) (st : Trigram.State) :
  Trigram.save m = Ok st ->
  Trigram.st_lambda1 st = Trigram.lambda1 m
  /\ Trigram.st_lambda2 st = Trigram.lambda2 m
  /\ Trigram.st_lambda3 st = Trigram.lambda3 m.
Proof.
  unfold Trigram.save.
  match goal with
  | |- context [bind ?r _] => destruct r; simpl; [|discriminate]
  end.
  intros [= <-]. simpl. auto.
Qed.

(** C5, as amended.  In every state reached by construction, training, and
    loading a file that [save] wrote for such a state, the weights sum to 1
    within [1e-6]; constructing a model with the weights [(0.2, 0.2, 0.2)]
    fails.  The sign of the weights is not checked anywhere. *)
Theorem reachable_weights_sum (m : Trigram.TrigramModel) :
  Trigram.reachable m ->
  Qabs (Trigram.lambda1 m + Trigram.lambda2 m + Trigram.lambda3 m - 1)
    < Trigram.tolerance
  /\ Trigram.init (2 # 10) (2 # 10) (2 # 10)
     = Err (AssertionError "Interpolation weights must sum to 1.").
Proof.
  intros Hr. split; [|reflexivity].
  induction Hr as [l1 l2 l3 m Hinit | m corpus m' _ IH Htrain
                   | m m0 st _ _ _ IH0 Hsave].
  - apply init_accepts in Hinit. destruct Hinit as (Htol & -> & -> & ->).
    exact Htol.
  - apply train_keeps_weights in Htrain. destruct Htrain as (-> & -> & ->).
    exact IH.
  - apply save_keeps_weights in Hsave. destruct Hsave as (E1 & E2 & E3).
    simpl. now rewrite E1, E2, E3.
Qed.

Lemma reachable_weights_sum_witness :
  Trigram.reachable abc_model
  /\ Qabs (Trigram.lambda1 abc_model + Trigram.lambda2 abc_model
           + Trigram.lambda3 abc_model - 1) < Trigram.tolerance.
Proof.
  assert (Hr : Trigram.reachable abc_model).
  { apply Trigram.reach_train with (m := fresh_model) (corpus := lit "a b c").
    - apply Trigram.reach_init
        with (l1 := Trigram.default_lambda1) (l2 := Trigram.default_lambda2)
             (l3 := Trigram.default_lambda3).
      reflexivity.
    - reflexivity. }
  split.
  - exact Hr.
  - exact (proj1 (reachable_weights_sum Hr)).
Defined.

(** C5, as stated, fails: the constructor accepts the weights
    [(-1, 1, 1)], which sum to 1, so a reachable state has a negative
    weight. *)
Lemma reachable_negative_weight :
  exists m, Trigram.init (-1) 1 1 = Ok m
            /\ Trigram.reachable m
            /\ Trigram.lambda1 m < 0.
Proof.
  eexists. split; [reflexivity|]. split.
  - apply Trigram.reach_init with (l1 := -1) (l2 := 1) (l3 := 1). reflexivity.
  - reflexivity.
Qed.

(** ** C4: generation *)

Lemma last_app_nonempty {A} (l l' : list A) (d : A) :
  l' <> [] -> last (l ++ l') d = last l' d.
Proof.
  intros Hne. induction l as [|x l IH]; simpl; auto.
  rewrite IH. destruct (l ++ l') eqn:E; auto.
  apply app_eq_nil in E. destruct E; congruence.
Qed.

Section GenerateFacts.
Import Trigram.
Variable rng : Type.
Variable random_seed : Z -> rng.
Variable choices : rng -> list str -> list Q -> result (str * rng).
Variable pow : Q -> Q -> result Q.
Variables (m : TrigramModel) (temperature : Q) (top_k : option Z).

Lemma next_token_dist_nonempty w1 w2 :
  unigram_probs m <> [] -> next_token_dist m w1 w2 <> [].
Proof.
  intros Hne.
  assert (Hc : candidates m w1 w2 <> []).
  { destruct (unigram_probs m) as [|[k v] d] eqn:E; [congruence|].
    assert (Hin : In k (candidates m w1 w2)).
    { unfold candidates. apply In_union. right. rewrite E. now left. }
    destruct (candidates m w1 w2); [destruct Hin | discriminate]. }
  unfold next_token_dist.
  destruct (candidates m w1 w2) as [|c cs]; [congruence|].
  simpl. destruct (Qltb 0 _); discriminate.
Qed.

(** What [generate_loop] returns, when it returns: the tokens it started
    from followed by at most [n] drawn tokens; only the last drawn token
    can be [<EOT>], and fewer than [n] tokens were drawn only if it is. *)
Lemma generate_loop_shape (n : nat) :
  unigram_probs m <> [] ->
  forall tokens g toks,
    generate_loop choices pow m temperature top_k n tokens g = Ok toks ->
    exists drawn,
      toks = tokens ++ drawn
      /\ (length drawn <= n)%nat
      /\ Forall (fun t => t <> EOT_TOKEN) (removelast drawn)
      /\ (length drawn = n \/ last drawn [] = EOT_TOKEN).
Proof.
  intros Hne. induction n as [|n IH]; intros tokens g toks Hrun; simpl in Hrun.
  - injection Hrun as <-. exists []. rewrite app_nil_r. simpl. auto.
  - set (w1 := nth (length tokens - 2) tokens []) in *.
    set (w2 := nth (length tokens - 1) tokens []) in *.
    pose proof (next_token_dist_nonempty w1 w2 Hne) as Hd.
    destruct (next_token_dist m w1 w2) as [|e d]; [congruence|].
    destruct (apply_temperature pow temperature (e :: d)) as [d1|];
      simpl in Hrun; [|discriminate].
    destruct (top_k_filter top_k d1) as [d2|]; simpl in Hrun; [|discriminate].
    destruct (choices g (keys d2) (values d2)) as [[x g']|];
      simpl in Hrun; [|discriminate].
    destruct (eqb_spec x EOT_TOKEN) as [Ex|Ex].
    + injection Hrun as <-. exists [x]. simpl. repeat split; auto. lia.
    + apply IH in Hrun. destruct Hrun as (drawn & -> & Hlen & Hall & Hlast).
      exists (x :: drawn). rewrite <- app_assoc. simpl.
      split; [reflexivity|]. split; [lia|].
      destruct drawn as [|y drawn'].
      * simpl in *. split; [constructor|].
        destruct Hlast as [<-|Hl]; [now left|].
        exfalso. vm_compute in Hl. discriminate.
      * split; [constructor; auto|].
        destruct Hlast as [Hl|Hl]; [left; simpl in *; lia | right; exact Hl].
Qed.

(** The property of C4, for every call of [generate] that returns. *)
Lemma generate_tokens_shape (seed : list str) (max_length : Z)
    (rseed : option Z) (g : rng) (toks : list str) :
  (0 <= max_length)%Z ->
  generate_tokens random_seed choices pow m seed max_length temperature
                  top_k rseed g = Ok toks ->
  last toks [] = EOT_TOKEN
  \/ Z.of_nat (length toks) = (Z.of_nat (length seed) + max_length)%Z.
Proof.
  intros Hn. unfold generate_tokens.
  destruct (length seed <? 2)%nat; [discriminate|].
  destruct (unigram_probs m) as [|e d] eqn:Eu; [discriminate|].
  intros Hrun. apply generate_loop_shape in Hrun; [|rewrite Eu; discriminate].
  destruct Hrun as (drawn & -> & Hlen & _ & [Hl|Hl]).
  - right. rewrite length_app. lia.
  - left. destruct drawn as [|y drawn'].
    + exfalso. vm_compute in Hl. discriminate.
    + rewrite last_app_nonempty by discriminate. exact Hl.
Qed.

End GenerateFacts.

(** Under the default temperature, a top-k bound of at least 1 (or none),
    non-negative weights with [l1 + l2 > 0] and a sampler that answers on
    positive weights, every call of [generate] on a trained model with a
    seed of at least 2 tokens returns. *)
Section GenerateReturns.
Import Trigram.
Variable rng : Type.
Variable random_seed : Z -> rng.
Variable choices : rng -> list str -> list Q -> result (str * rng).
Variable pow : Q -> Q -> result Q.
Hypothesis choices_total :
  forall g words weights,
    words <> [] -> length words = length weights ->
    Forall (fun x => 0 < x) weights ->
    exists w g', choices g words weights = Ok (w, g').

Variables (l1 l2 l3 : Q) (corpus : str) (m : TrigramModel).
Hypothesis Htrained : trained l1 l2 l3 corpus m.
Hypotheses (H1 : 0 <= l1) (H2 : 0 <= l2) (H3 : 0 <= l3) (H12 : 0 < l1 + l2).
Variables (temperature : Q) (top_k : option Z).
Hypothesis Htemp : temperature == 1.
Hypothesis Htopk : forall k, top_k = Some k -> (1 <= k)%Z.

Lemma next_token_dist_positive w1 w2 : positive_dist (next_token_dist m w1 w2).
Proof.
  split.
  - apply next_token_dist_nonempty. eapply trained_unigram_nonempty; eauto.
  - assert (Hpos : 0 < sum (List.map (interpolated_prob m w1 w2)
                                     (candidates m w1 w2))).
    { eapply total_pos_smoothed; eauto. }
    rewrite (next_token_dist_scaled m w1 w2 Hpos).
    apply Forall_map, Forall_map, Forall_forall. intros w3 _.
    apply Qlt_shift_div_l; [exact Hpos|].
    rewrite Qmult_0_l. eapply interpolated_pos; eauto.
Qed.

Lemma renormalise_positive d :
  positive_dist d -> exists d', renormalise d = Ok d' /\ positive_dist d'.
Proof.
  intros [Hne Hall].
  assert (Hpos : 0 < sum (values d)).
  { apply sum_pos; auto. destruct d; [congruence | discriminate]. }
  unfold renormalise. destruct d as [|e d]; [congruence|].
  destruct (Qeq_bool (sum (values (e :: d))) 0) eqn:E.
  - apply Qeq_bool_iff in E. lra.
  - eexists. split; [reflexivity|]. split; [discriminate|].
    rewrite values_scale. apply Forall_map.
    eapply Forall_impl; [|exact Hall]. simpl. intros v Hv.
    apply Qlt_shift_div_l; [exact Hpos|]. now rewrite Qmult_0_l.
Qed.

Lemma In_firstn {A} (n : nat) (l : list A) (x : A) :
  In x (firstn n l) -> In x l.
Proof.
  revert l; induction n as [|n IH]; intros [|y l]; simpl; try tauto.
  intros [->|Hin]; auto.
Qed.

Lemma insert_desc_In x l y : In y (insert_desc x l) <-> y = x \/ In y l.
Proof.
  induction l as [|z l IH]; simpl.
  - intuition.
  - destruct (Qle_bool (snd z) (snd x)); simpl; [intuition|].
    rewrite IH. intuition.
Qed.

Lemma sorted_desc_In l y : In y (sorted_desc l) <-> In y l.
Proof.
  induction l as [|x l IH]; simpl; [tauto|].
  rewrite insert_desc_In, IH. intuition.
Qed.

Lemma top_k_filter_positive d :
  positive_dist d -> exists d', top_k_filter top_k d = Ok d' /\ positive_dist d'.
Proof.
  intros Hd. unfold top_k_filter.
  destruct top_k as [k|] eqn:Ek; [|eauto].
  specialize (Htopk eq_refl).
  apply renormalise_positive. destruct Hd as [Hne Hall].
  unfold slice_to. destruct (Z.leb_spec 0 k); [|lia].
  split.
  - destruct d as [|e d]; [congruence|].
    assert (Hin : In e (sorted_desc (e :: d)))
      by (apply sorted_desc_In; now left).
    destruct (sorted_desc (e :: d)) as [|s ss]; [destruct Hin|].
    destruct (Z.to_nat k) eqn:Ez; [lia|]. discriminate.
  - unfold values. apply Forall_map, Forall_forall. intros y Hy.
    apply In_firstn in Hy. rewrite sorted_desc_In in Hy.
    unfold values in Hall. rewrite Forall_map, Forall_forall in Hall. auto.
Qed.

Lemma generate_loop_returns (n : nat) (tokens : list str) (g : rng) :
  exists toks,
    generate_loop choices pow m temperature top_k n tokens g = Ok toks.
Proof.
  revert tokens g. induction n as [|n IH]; intros tokens g; simpl; [eauto|].
  set (w1 := nth (length tokens - 2) tokens []).
  set (w2 := nth (length tokens - 1) tokens []).
  pose proof (next_token_dist_positive w1 w2) as Hd.
  destruct (next_token_dist m w1 w2) as [|e d]; [eauto|].
  unfold apply_temperature.
  apply Qeq_bool_iff in Htemp. rewrite Htemp. simpl.
  destruct (top_k_filter_positive Hd) as (d2 & -> & Hne & Hall). simpl.
  destruct (choices_total g (words := keys d2) (weights := values d2))
    as (w & g' & ->); auto.
  - destruct d2; [congruence | discriminate].
  - unfold keys, values. now rewrite !length_map.
  - simpl. destruct (eqb w EOT_TOKEN); eauto.
Qed.

Lemma generate_tokens_returns (seed : list str) (max_length : Z)
    (rseed : option Z) (g : rng) :
  (2 <= length seed)%nat ->
  exists toks,
    generate_tokens random_seed choices pow m seed max_length temperature
                    top_k rseed g = Ok toks.
Proof.
  intros Hseed. unfold generate_tokens.
  destruct (Nat.ltb_spec (length seed) 2); [lia|].
  pose proof (trained_unigram_nonempty Htrained) as Hne.
  destruct (unigram_probs m) eqn:Eu; [congruence|].
  apply generate_loop_returns.
Qed.

End GenerateReturns.

(** C4 at the input where the source departs from it.  The model with the
    weights [(0, 0, 1)] trained on ["a b c"], the seed [["x"; "y"]],
    [max_length = 1] and the default [temperature = 1.0], [top_k = 50]:
    every candidate has weight [0], the renormalisation after the top-k
    filter divides by the total [0], and [generate] raises
    [ZeroDivisionError] instead of returning a sequence. *)
Theorem generate_zero_total_raises
    (rng : Type) (random_seed : Z -> rng)
    (choices : rng -> list str -> list Q -> result (str * rng))
    (pow : Q -> Q -> result Q) (g : rng) :
  Trigram.trained 0 0 1 (lit "a b c") trigram_only_model
  /\ Trigram.generate random_seed choices pow trigram_only_model
       [lit "x"; lit "y"] 1 1 (Some 50%Z) None g
     = Err ZeroDivisionError.
Proof.
  split; [exact trigram_only_model_trained | reflexivity].
Qed.

(** ** C2: operations on an untrained instance *)

(** A freshly constructed language model answers the probability query
    with [l1 + l2]: all tables are empty and the vocabulary size is clamped
    to 1, so the unigram and bigram terms are both [1] and the trigram term
    is [0]. *)
Lemma untrained_query (l1 l2 l3 : Q) (m : Trigram.TrigramModel) (w1 w2 w3 : str) :
  Trigram.init l1 l2 l3 = Ok m ->
  Trigram.interpolated_prob m w1 w2 w3 == l1 + l2.
Proof.
  intros Hinit. unfold Trigram.init in Hinit.
  destruct (Qltb _ _); [|discriminate]. injection Hinit as <-.
  unfold Trigram.interpolated_prob. simpl. unfold get_or. simpl.
  change (inject_Z (Z.max 0 1)) with 1. unfold Qdiv.
  setoid_replace (/ 1) with 1 by reflexivity. ring.
Qed.

(** C2, as amended.  On an instance that was constructed and neither
    trained nor loaded, [generate] aborts (with the seed-length error for a
    seed of fewer than 2 tokens, with the not-trained error otherwise) and
    the codec's [encode] and [decode] abort with the not-trained error.
    The probability query has no such check: it returns [l1 + l2]. *)
Theorem untrained_operations
    (l1 l2 l3 : Q) (m : Trigram.TrigramModel) :
  Trigram.init l1 l2 l3 = Ok m ->
  (forall (rng : Type) (random_seed : Z -> rng)
          (choices : rng -> list str -> list Q -> result (str * rng))
          (pow : Q -> Q -> result Q)
          (seed : list str) (max_length : Z) (temperature : Q)
          (top_k rseed : option Z) (g : rng),
      Trigram.generate random_seed choices pow m seed max_length temperature
                       top_k rseed g
      = if (length seed <? 2)%nat
        then Err (ValueError "Seed must contain at least 2 tokens.")
        else Err (RuntimeError "Model not trained yet."))
  /\ (forall text,
         BPE.encode BPE.init text = Err (RuntimeError "Tokenizer not trained yet."))
  /\ (forall ids,
         BPE.decode BPE.init ids = Err (RuntimeError "Tokenizer not trained yet."))
  /\ (forall w1 w2 w3, Trigram.interpolated_prob m w1 w2 w3 == l1 + l2).
Proof.
  intros Hinit. repeat split.
  - intros. unfold Trigram.generate, Trigram.generate_tokens.
    destruct (length seed <? 2)%nat; [reflexivity|].
    unfold Trigram.init in Hinit.
    destruct (Qltb _ _); [|discriminate]. injection Hinit as <-.
    reflexivity.
  - intros. now apply untrained_query with (l3 := l3) (m := m).
Qed.

Lemma untrained_operations_witness :
  Trigram.init Trigram.default_lambda1 Trigram.default_lambda2
               Trigram.default_lambda3 = Ok fresh_model
  /\ Trigram.interpolated_prob fresh_model (lit "a") (lit "b") (lit "c")
     == Trigram.default_lambda1 + Trigram.default_lambda2.
Proof.
  split.
  - exact fresh_model_init.
  - exact (proj2 (proj2 (proj2 (@untrained_operations _ _ _ _ fresh_model_init)))
             (lit "a") (lit "b") (lit "c")).
Defined.

(** C2, as stated, fails: on the untrained default model the probability
    query returns [2/5] and [perplexity] of the corpus ["a b c"] returns a
    number, [exp(-log(p))] for a [p] equal to [2/5]; neither aborts. *)
Lemma untrained_perplexity_returns :
  exists m,
    Trigram.init Trigram.default_lambda1 Trigram.default_lambda2
                 Trigram.default_lambda3 = Ok m
    /\ Trigram.interpolated_prob m (lit "a") (lit "b") (lit "c") == 2 # 5
    /\ forall log exp : Q -> Q,
         exists p, p == 2 # 5
                   /\ Trigram.perplexity log exp m (lit "a b c")
                      = Ok (exp (- (0 + log p) / inject_Z 1)).
Proof.
  exists fresh_model. split; [reflexivity|]. split; [reflexivity|].
  intros log exp. eexists. split; [|reflexivity]. reflexivity.
Qed.

(* ================================================================== *)
(** * Facts about the codec *)
(* ================================================================== *)

(** ** The order of strings and [sorted] *)

Section StringOrder.
Import BPE.

Lemma str_leb_refl (a : str) : str_leb a a = true.
Proof.
  induction a as [|x a IH]; simpl; auto.
  rewrite N.eqb_refl, IH. apply orb_true_r.
Qed.

Lemma str_leb_antisym (a b : str) :
  str_leb a b = true -> str_leb b a = true -> a = b.
Proof.
  revert b; induction a as [|x a IH]; intros [|y b]; simpl; try congruence.
  intros Hab Hba.
  apply orb_true_iff in Hab. apply orb_true_iff in Hba.
  rewrite andb_true_iff, N.ltb_lt, N.eqb_eq in Hab, Hba.
  destruct Hab as [Hab|[-> Hab]]; destruct Hba as [Hba|[E Hba]]; try lia.
  f_equal. now apply IH.
Qed.

Lemma str_leb_trans (a b c : str) :
  str_leb a b = true -> str_leb b c = true -> str_leb a c = true.
Proof.
  revert b c; induction a as [|x a IH]; intros [|y b] [|z c]; simpl;
    try congruence.
  intros Hab Hbc.
  apply orb_true_iff in Hab. apply orb_true_iff in Hbc.
  rewrite andb_true_iff, N.ltb_lt, N.eqb_eq in Hab, Hbc.
  apply orb_true_iff. rewrite andb_true_iff, N.ltb_lt, N.eqb_eq.
  destruct Hab as [Hab|[-> Hab]]; destruct Hbc as [Hbc|[-> Hbc]];
    try (left; lia).
  right. split; [reflexivity|]. eapply IH; eauto.
Qed.

Lemma str_leb_total (a b : str) : str_leb a b = true \/ str_leb b a = true.
Proof.
  revert b; induction a as [|x a IH]; intros [|y b]; simpl; auto.
  destruct (N.lt_trichotomy x y) as [Hlt|[->|Hgt]].
  - left. apply N.ltb_lt in Hlt. now rewrite Hlt.
  - rewrite N.eqb_refl, N.ltb_irrefl. simpl. apply IH.
  - right. apply N.ltb_lt in Hgt. now rewrite Hgt.
Qed.

Lemma insert_sorted_perm (x : str) (l : list str) :
  Permutation (x :: l) (insert_sorted x l).
Proof.
  induction l as [|y l IH]; simpl; auto.
  destruct (str_leb x y); auto.
  rewrite perm_swap. now constructor.
Qed.

Lemma sorted_perm (l : list str) : Permutation l (sorted l).
Proof.
  induction l as [|x l IH]; simpl; auto.
  rewrite <- insert_sorted_perm. now constructor.
Qed.

Lemma insert_sorted_sorted (x : str) (l : list str) :
  StronglySorted str_le l -> StronglySorted str_le (insert_sorted x l).
Proof.
  induction 1 as [|y l Hs IH Hall]; simpl.
  - repeat constructor.
  - destruct (str_leb x y) eqn:E.
    + constructor; [now constructor|].
      constructor; [exact E|].
      eapply Forall_impl; [|exact Hall].
      intros z Hz. eapply str_leb_trans; eauto.
    + constructor; [exact IH|].
      assert (Hyx : str_le y x).
      { destruct (str_leb_total x y); [congruence | assumption]. }
      eapply Permutation_Forall; [apply insert_sorted_perm|].
      now constructor.
Qed.

Lemma sorted_sorted (l : list str) : StronglySorted str_le (sorted l).
Proof.
  induction l as [|x l IH]; simpl; [constructor|].
  now apply insert_sorted_sorted.
Qed.

(** Two sorted lists with the same elements are equal. *)
Lemma sorted_unique (l l' : list str) :
  StronglySorted str_le l -> StronglySorted str_le l' ->
  Permutation l l' -> l = l'.
Proof.
  intros Hl; revert l'; induction Hl as [|x l Hs IH Hall]; intros l' Hl' Hp.
  - apply Permutation_nil in Hp. now subst.
  - destruct Hl' as [|y l' Hs' Hall'].
    + apply Permutation_sym, Permutation_nil in Hp. discriminate.
    + assert (Exy : x = y).
      { assert (Hy : In y (x :: l))
          by (eapply Permutation_in; [apply Permutation_sym; exact Hp | now left]).
        assert (Hx : In x (y :: l'))
          by (eapply Permutation_in; [exact Hp | now left]).
        rewrite Forall_forall in Hall, Hall'.
        destruct Hy as [->|Hy]; auto.
        destruct Hx as [->|Hx]; auto.
        apply str_leb_antisym; [apply Hall | apply Hall']; auto. }
      subst y. f_equal. apply IH; auto.
      eapply Permutation_cons_inv; eauto.
Qed.

(** [sorted] does not depend on the order in which the set is enumerated. *)
Lemma sorted_permutation_invariant (l l' : list str) :
  Permutation l l' -> sorted l = sorted l'.
Proof.
  intros Hp. apply sorted_unique; try apply sorted_sorted.
  rewrite <- !sorted_perm. exact Hp.
Qed.

Lemma NoDup_sorted (l : list str) : NoDup l -> NoDup (sorted l).
Proof. intros Hnd. eapply Permutation_NoDup; [apply sorted_perm | exact Hnd]. Qed.

End StringOrder.

(** ** The index *)

Section Index.
Import BPE.

Lemma enumerate_from_nth {A} (l : list A) (i : Z) (k : nat) (x : A) :
  nth_error l k = Some x ->
  In ((i + Z.of_nat k)%Z, x) (enumerate_from i l).
Proof.
  revert i k; induction l as [|y l IH]; intros i [|k]; simpl; try discriminate.
  - intros [= ->]. left. f_equal. lia.
  - intros Hk. right. replace (i + Z.pos (Pos.of_succ_nat k))%Z
      with ((i + 1) + Z.of_nat k)%Z by lia. now apply IH.
Qed.

Lemma In_enumerate_from {A} (l : list A) (i j : Z) (x : A) :
  In (j, x) (enumerate_from i l) ->
  (i <= j)%Z /\ nth_error l (Z.to_nat (j - i)) = Some x.
Proof.
  revert i; induction l as [|y l IH]; intros i; simpl; [tauto|].
  intros [[= <- <-]|Hin].
  - rewrite Z.sub_diag. simpl. split; [lia | reflexivity].
  - apply IH in Hin. destruct Hin as [Hle Hn]. split; [lia|].
    replace (Z.to_nat (j - i)) with (S (Z.to_nat (j - (i + 1)))) by lia.
    exact Hn.
Qed.

Lemma map_snd_enumerate_from {A} (l : list A) (i : Z) :
  List.map snd (enumerate_from i l) = l.
Proof. revert i; induction l as [|y l IH]; intros i; simpl; congruence. Qed.

Lemma NoDup_fst_enumerate_from {A} (l : list A) (i : Z) :
  NoDup (List.map fst (enumerate_from i l)).
Proof.
  revert i; induction l as [|y l IH]; intros i; simpl; constructor; auto.
  intros Hin. apply in_map_iff in Hin. destruct Hin as ([j x] & Ej & Hin).
  simpl in Ej. subst j. apply In_enumerate_from in Hin. lia.
Qed.

(** The first dictionary lists the sorted vocabulary with its ranks. *)
Lemma build_token2id_eq (vocab : list str) :
  NoDup vocab ->
  build_token2id vocab
  = List.map (fun it => (snd it, fst it)) (enumerate_from 0 (sorted vocab)).
Proof.
  intros Hnd. unfold build_token2id.
  rewrite (fold_set_fresh snd fst); auto.
  rewrite map_snd_enumerate_from. now apply NoDup_sorted.
Qed.

Lemma build_id2token_eq (vocab : list str) :
  NoDup vocab ->
  build_id2token (build_token2id vocab) = enumerate_from 0 (sorted vocab).
Proof.
  intros Hnd. unfold build_id2token.
  rewrite (fold_set_fresh snd fst); auto.
  - rewrite build_token2id_eq by assumption. rewrite map_map. simpl.
    rewrite <- (map_id (enumerate_from 0 (sorted vocab))) at 2.
    apply map_ext. now intros [i t].
  - rewrite build_token2id_eq by assumption. rewrite map_map. simpl.
    apply NoDup_fst_enumerate_from.
Qed.

Lemma NoDup_keys_token2id (vocab : list str) :
  NoDup vocab -> NoDup (keys (build_token2id vocab)).
Proof.
  intros Hnd. rewrite build_token2id_eq by assumption.
  unfold keys. rewrite map_map. simpl.
  change (List.map (fun x : Z * str => snd x) (enumerate_from 0 (sorted vocab)))
    with (List.map (@snd Z str) (enumerate_from 0 (sorted vocab))).
  rewrite map_snd_enumerate_from. now apply NoDup_sorted.
Qed.

(** [token2id] maps a token to its rank in the sorted vocabulary. *)
Lemma get_token2id (vocab : list str) (t : str) (i : Z) :
  NoDup vocab ->
  get (build_token2id vocab) t = Some i
  <-> (0 <= i)%Z /\ nth_error (sorted vocab) (Z.to_nat i) = Some t.
Proof.
  intros Hnd. split.
  - intros Hg. apply get_Some_In in Hg.
    rewrite build_token2id_eq in Hg by assumption.
    apply in_map_iff in Hg. destruct Hg as ([j x] & [= <- <-] & Hin).
    apply In_enumerate_from in Hin. now rewrite Z.sub_0_r in Hin.
  - intros [Hi Hn]. apply In_get_nodup; [now apply NoDup_keys_token2id|].
    rewrite build_token2id_eq by assumption.
    apply in_map_iff. exists (i, t). split; [reflexivity|].
    apply (enumerate_from_nth _ 0) in Hn. simpl in Hn.
    now rewrite Z2Nat.id in Hn.
Qed.

Lemma get_id2token (vocab : list str) (t : str) (i : Z) :
  NoDup vocab ->
  get (build_id2token (build_token2id vocab)) i = Some t
  <-> get (build_token2id vocab) t = Some i.
Proof.
  intros Hnd. rewrite get_token2id by assumption.
  rewrite build_id2token_eq by assumption. split.
  - intros Hg. apply get_Some_In, In_enumerate_from in Hg.
    now rewrite Z.sub_0_r in Hg.
  - intros [Hi Hn]. apply In_get_nodup; [apply NoDup_fst_enumerate_from|].
    apply (enumerate_from_nth _ 0) in Hn. simpl in Hn.
    now rewrite Z2Nat.id in Hn.
Qed.

(** Every token of the vocabulary has an id. *)
Lemma token2id_defined (vocab : list str) (t : str) :
  NoDup vocab -> In t vocab -> exists i, get (build_token2id vocab) t = Some i.
Proof.
  intros Hnd Hin.
  assert (Hs : In t (sorted vocab))
    by (eapply Permutation_in; [apply sorted_perm | exact Hin]).
  apply In_nth_error in Hs. destruct Hs as [k Hk].
  exists (Z.of_nat k). apply get_token2id; auto.
  split; [lia|]. now rewrite Nat2Z.id.
Qed.

(** Distinct tokens have distinct ids. *)
Lemma token2id_injective (vocab : list str) (s t : str) (i : Z) :
  NoDup vocab ->
  get (build_token2id vocab) s = Some i ->
  get (build_token2id vocab) t = Some i -> s = t.
Proof.
  intros Hnd Hs Ht.
  apply get_token2id in Hs; auto. apply get_token2id in Ht; auto.
  destruct Hs as [_ Hs], Ht as [_ Ht]. congruence.
Qed.

(** The ids follow the order of the strings. *)
Lemma nth_error_sorted_le (l : list str) (i j : nat) (s t : str) :
  StronglySorted str_le l ->
  nth_error l i = Some s -> nth_error l j = Some t ->
  (i <= j)%nat -> str_le s t.
Proof.
  intros Hs; revert i j; induction Hs as [|x l Hs IH Hall]; intros i j.
  - destruct i; discriminate.
  - destruct i as [|i], j as [|j]; simpl; intros Hi Hj Hle; try lia.
    + injection Hi as <-. injection Hj as <-. apply str_leb_refl.
    + injection Hi as <-. apply nth_error_In in Hj.
      rewrite Forall_forall in Hall. auto.
    + eapply IH; eauto. lia.
Qed.

Lemma token2id_monotone (vocab : list str) (s t : str) (i j : Z) :
  NoDup vocab ->
  get (build_token2id vocab) s = Some i ->
  get (build_token2id vocab) t = Some j ->
  ((i <= j)%Z <-> str_le s t).
Proof.
  intros Hnd Hs Ht.
  pose proof Hs as Hs'. pose proof Ht as Ht'.
  apply get_token2id in Hs; auto. apply get_token2id in Ht; auto.
  destruct Hs as [Hi Hs], Ht as [Hj Ht].
  split.
  - intros Hle. eapply nth_error_sorted_le; eauto using sorted_sorted. lia.
  - intros Hst.
    destruct (Z.le_gt_cases i j) as [|Hgt]; auto.
    assert (Hts : str_le t s).
    { eapply nth_error_sorted_le; eauto using sorted_sorted. lia. }
    assert (s = t) by (now apply str_leb_antisym). subst t.
    assert (i = j) by congruence. lia.
Qed.

End Index.

(** ** The merging loop *)

Section MergeLoop.
Import BPE.

Lemma NoDup_add {K} `{Eqb K} (s : list K) (x : K) : NoDup s -> NoDup (add s x).
Proof.
  intros Hnd. unfold add. destruct (existsb (eqb x) s) eqn:E; auto.
  apply existsb_eqb_false in E. apply NoDup_app; auto.
  - repeat constructor; auto.
  - intros y Hy [<-|[]]. auto.
Qed.

Lemma In_add {K} `{Eqb K} (s : list K) (x y : K) :
  In y (add s x) <-> In y s \/ y = x.
Proof.
  unfold add. destruct (existsb (eqb x) s) eqn:E.
  - apply existsb_eqb_In in E. intuition (subst; auto).
  - rewrite in_app_iff. simpl. intuition.
Qed.

Lemma NoDup_fold_add {K} `{Eqb K} (xs s : list K) :
  NoDup s -> NoDup (fold_left add xs s).
Proof.
  revert s; induction xs as [|x xs IH]; intros s Hnd; simpl; auto.
  apply IH. now apply NoDup_add.
Qed.

Lemma NoDup_initial_tokens (v : dict str Z) : NoDup (initial_tokens v).
Proof.
  unfold initial_tokens. generalize (keys v); intros ks.
  assert (Hgen : forall s, NoDup s ->
            NoDup (fold_left (fun u word => fold_left add (split word) u) ks s)).
  { induction ks as [|k ks IH]; intros s Hnd; simpl; auto.
    apply IH. now apply NoDup_fold_add. }
  apply Hgen. constructor.
Qed.

(** The pair chosen by [max] is one of the mergeable pairs. *)
Lemma max_by_value_In (best : (str * str) * Z) (rest : dict (str * str) Z) :
  In (max_by_value best rest) (List.map fst (best :: rest)).
Proof.
  revert best; induction rest as [|p rest IH]; intros best; simpl.
  - now left.
  - destruct (snd best <? snd p)%Z.
    + right. apply IH.
    + destruct (IH best) as [E|Hin]; [now left | right; now right].
Qed.

Lemma mergeable_not_special (v : dict str Z) (p : str * str) :
  In p (keys (mergeable v)) ->
  is_special (fst p) = false /\ is_special (snd p) = false.
Proof.
  unfold keys, mergeable. intros Hin. apply in_map_iff in Hin.
  destruct Hin as (e & <- & He). apply filter_In in He.
  destruct He as [_ Hf]. apply andb_true_iff in Hf.
  now rewrite !negb_true_iff in Hf.
Qed.

Lemma merge_loop_inv (n : nat) (st : loop_state) :
  loop_inv st -> loop_inv (merge_loop n st).
Proof.
  revert st; induction n as [|n IH]; intros st Hinv; simpl; auto.
  destruct (mergeable (ls_vocab st)) as [|p rest] eqn:Em; auto.
  apply IH. destruct Hinv as [Hnd Hr]. constructor; simpl.
  - now apply NoDup_add.
  - intros r Hin. apply in_app_iff in Hin. destruct Hin as [Hin|[<-|[]]].
    + destruct (Hr r Hin) as (E & Hu & Hs). repeat split; try apply Hs; auto.
      apply In_add. now left.
    + simpl. split; [reflexivity|]. split; [apply In_add; now right|].
      apply (mergeable_not_special (ls_vocab st)).
      rewrite Em. apply max_by_value_In.
Qed.

Lemma merge_loop_incl (n : nat) (st : loop_state) (x : str) :
  In x (ls_unique st) -> In x (ls_unique (merge_loop n st)).
Proof.
  revert st; induction n as [|n IH]; intros st Hin; simpl; auto.
  destruct (mergeable (ls_vocab st)); auto.
  apply IH. simpl. apply In_add. now left.
Qed.

(** The loop runs at most [n] times and stops early only when no pair can
    be merged. *)
Lemma merge_loop_count (n : nat) (st : loop_state) :
  (length (ls_merges (merge_loop n st)) <= length (ls_merges st) + n)%nat
  /\ ((length (ls_merges (merge_loop n st)) < length (ls_merges st) + n)%nat ->
      mergeable (ls_vocab (merge_loop n st)) = []).
Proof.
  revert st; induction n as [|n IH]; intros st; simpl.
  - split; lia.
  - destruct (mergeable (ls_vocab st)) as [|p rest] eqn:Em.
    + split; [lia | auto].
    + match goal with |- context [merge_loop n ?s] => specialize (IH s) end.
      simpl in IH. rewrite length_app in IH. simpl in IH.
      destruct IH as [IH1 IH2]. split; [lia|].
      intros Hlt. apply IH2. lia.
Qed.

Lemma train_loop_inv (order : list str) (corpus : str) (target : Z) :
  loop_inv (train_loop order corpus target).
Proof.
  unfold train_loop. apply merge_loop_inv. constructor; simpl.
  - apply NoDup_initial_tokens.
  - intros r [].
Qed.

Lemma train_vocab (order : list str) (corpus : str) (target : Z) :
  vocab (train order corpus target)
  = union (ls_unique (train_loop order corpus target)) special_tokens.
Proof. reflexivity. Qed.

Lemma train_merges (order : list str) (corpus : str) (target : Z) :
  merges (train order corpus target) = ls_merges (train_loop order corpus target).
Proof. reflexivity. Qed.

Lemma train_token2id (order : list str) (corpus : str) (target : Z) :
  token2id (train order corpus target)
  = build_token2id (vocab (train order corpus target)).
Proof. reflexivity. Qed.

Lemma train_id2token (order : list str) (corpus : str) (target : Z) :
  id2token (train order corpus target)
  = build_id2token (build_token2id (vocab (train order corpus target))).
Proof. reflexivity. Qed.

Lemma NoDup_train_vocab (order : list str) (corpus : str) (target : Z) :
  NoDup (vocab (train order corpus target)).
Proof.
  rewrite train_vocab. apply NoDup_union.
  apply (inv_nodup (train_loop_inv order corpus target)).
Qed.

Lemma special_in_train_vocab (order : list str) (corpus : str) (target : Z)
    (c : str) :
  In c special_tokens -> In c (vocab (train order corpus target)).
Proof. intros Hin. rewrite train_vocab. apply In_union. now right. Qed.

Lemma train_token2id_nonempty (order : list str) (corpus : str) (target : Z) :
  token2id (train order corpus target) <> [].
Proof.
  destruct (token2id_defined (lit "<EOS>")
              (NoDup_train_vocab order corpus target)) as [i Hi].
  - apply special_in_train_vocab. now left.
  - rewrite train_token2id. intros E. rewrite E in Hi. discriminate.
Qed.

Lemma train_id2token_nonempty (order : list str) (corpus : str) (target : Z) :
  id2token (train order corpus target) <> [].
Proof.
  destruct (token2id_defined (lit "<EOS>")
              (NoDup_train_vocab order corpus target)) as [i Hi].
  - apply special_in_train_vocab. now left.
  - apply get_id2token in Hi; [|apply NoDup_train_vocab].
    rewrite train_id2token. intros E. rewrite E in Hi. discriminate.
Qed.

End MergeLoop.

(** ** C9: the number of merges *)


(** ** Splitting a text at the control tokens *)

Section ReSplit.
Import BPE.

Lemma starts_with_length (p s : str) :
  starts_with p s = true -> (length p <= length s)%nat.
Proof.
  revert s; induction p as [|a p IH]; intros [|b s]; simpl;
    try discriminate; try lia.
  intros H. apply andb_true_iff in H. destruct H as [_ H].
  apply IH in H. lia.
Qed.

Lemma starts_with_app (p s r : str) :
  (length p <= length s)%nat -> starts_with p (s ++ r) = starts_with p s.
Proof.
  revert s; induction p as [|a p IH]; intros [|b s]; simpl; auto; try lia.
  intros H. f_equal. apply IH. lia.
Qed.

Lemma starts_with_self_app (p r : str) : starts_with p (p ++ r) = true.
Proof.
  induction p as [|a p IH]; simpl; auto. now rewrite eqb_refl, IH.
Qed.

(** A control token opens with ['<'], which occurs nowhere else in a
    control token: a control token that starts inside [s] and is as long
    as [s] or longer cannot run into a following ['<']. *)
Lemma special_not_across (tok s r : str) :
  In tok special_tokens -> s <> [] -> (length s < length tok)%nat ->
  starts_with tok (s ++ 60%N :: r) = false.
Proof.
  intros Htok Hne Hlen.
  destruct s as [|a [|b [|c [|d [|e s]]]]]; try congruence;
    simpl in Htok;
    destruct Htok as [<-|[<-|[<-|[]]]]; simpl in Hlen; try lia;
    cbn [starts_with app lit List.map list_ascii_of_string];
    repeat match goal with
           | |- context [@eqb ?T ?I ?x ?y] =>
               first [ is_var y; destruct (@eqb T I x y)
                     | change (@eqb T I x y) with false
                     | change (@eqb T I x y) with true ];
               cbn [andb]
           end; reflexivity.
Qed.

Lemma special_head (c : str) :
  In c special_tokens -> exists r, c = 60%N :: r /\ length r = 4%nat.
Proof.
  simpl. intros [<-|[<-|[<-|[]]]]; eexists; split; reflexivity.
Qed.

Lemma match_special_Some (s tok : str) :
  match_special s = Some tok ->
  In tok special_tokens /\ starts_with tok s = true.
Proof.
  unfold match_special. intros H. now apply find_some in H.
Qed.

(** Appending a control token does not change what is matched at a
    position before it. *)
Lemma match_special_app (s c r : str) :
  In c special_tokens -> s <> [] ->
  match_special (s ++ c ++ r) = match_special s.
Proof.
  intros Hc Hne. destruct (special_head Hc) as (c' & -> & _).
  unfold match_special.
  assert (Hall : forall tok, In tok special_tokens ->
            starts_with tok (s ++ (60%N :: c') ++ r) = starts_with tok s).
  { intros tok Htok.
    destruct (Nat.le_gt_cases (length tok) (length s)) as [Hle|Hgt].
    - now apply starts_with_app.
    - simpl. rewrite special_not_across by assumption.
      destruct (starts_with tok s) eqn:E; auto.
      apply starts_with_length in E. lia. }
  clear Hc. induction special_tokens as [|tok toks IH]; simpl; auto.
  rewrite Hall by now left.
  destruct (starts_with tok s); auto.
  apply IH. intros t Ht. apply Hall. now right.
Qed.

Lemma re_split_acc_app (c t2 : str) :
  In c special_tokens ->
  forall t1 k cur,
    (k <= length t1)%nat ->
    re_split_acc k cur (t1 ++ c ++ t2)
    = re_split_acc k cur t1 ++ c :: re_split t2.
Proof.
  intros Hc. induction t1 as [|a t1 IH]; intros k cur Hk.
  - assert (k = 0)%nat by (simpl in Hk; lia). subst k.
    simpl in Hc. destruct Hc as [<-|[<-|[<-|[]]]]; reflexivity.
  - destruct k as [|k]; simpl re_split_acc.
    + change (a :: t1 ++ c ++ t2) with ((a :: t1) ++ c ++ t2).
      rewrite match_special_app by (auto; discriminate).
      destruct (match_special (a :: t1)) as [tok|] eqn:Em.
      * apply match_special_Some in Em. destruct Em as [Htok Hsw].
        apply starts_with_length in Hsw.
        simpl in Htok.
        destruct Htok as [<-|[<-|[<-|[]]]]; simpl in Hsw;
          change (length (lit _) - 1)%nat with 4%nat;
          rewrite IH by lia; reflexivity.
      * apply IH. lia.
    + apply IH. simpl in Hk. lia.
Qed.

(** The control token [c] between [t1] and [t2] is one piece of the split. *)
Lemma re_split_app (c t1 t2 : str) :
  In c special_tokens ->
  re_split (t1 ++ c ++ t2) = re_split t1 ++ c :: re_split t2.
Proof. intros Hc. apply re_split_acc_app; auto. lia. Qed.

End ReSplit.

(** ** C6: control tokens are atomic *)

Lemma encode_trained (order : list str) (corpus : str) (target : Z) (text : str) :
  let tk := BPE.train order corpus target in
  BPE.encode tk text = Ok (flat_map (BPE.encode_part tk) (BPE.re_split text)).
Proof.
  intros tk. unfold BPE.encode.
  pose proof (train_token2id_nonempty order corpus target) as Hne.
  fold tk in Hne. destruct (BPE.token2id tk); [congruence | reflexivity].
Qed.

Lemma encode_part_special (tk : BPE.BPETokenizer) (c : str) :
  In c BPE.special_tokens ->
  BPE.encode_part tk c = [get_or (BPE.token2id tk) c 0%Z].
Proof.
  simpl. intros [<-|[<-|[<-|[]]]]; reflexivity.
Qed.


(** ** Round trips *)

(** *** The symbols of a word *)

Section WordSymbols.
Import BPE.

Lemma apply_merge_cons2 (p : str * str) (m x y : str) (rest : list str) :
  apply_merge p m (x :: y :: rest)
  = if eqb x (fst p) && eqb y (snd p)
    then m :: apply_merge p m rest
    else x :: apply_merge p m (y :: rest).
Proof. reflexivity. Qed.

Lemma apply_merge_chunks (a b : str) (n : nat) :
  forall chunks body,
    (length chunks <= n)%nat ->
    Forall (fun c => c <> []) chunks ->
    exists chunks' body',
      apply_merge (a, b) (a ++ b) (chunks ++ [body ++ END_OF_WORD])
      = chunks' ++ [body' ++ END_OF_WORD]
      /\ concat chunks' ++ body' = concat chunks ++ body
      /\ Forall (fun c => c <> []) chunks'.
Proof.
  induction n as [|n IH]; intros chunks body Hlen Hne.
  - destruct chunks; [|simpl in Hlen; lia].
    exists [], body. simpl. auto.
  - destruct chunks as [|x [|y rest]].
    + exists [], body. simpl. auto.
    + change ([x] ++ [body ++ END_OF_WORD]) with [x; body ++ END_OF_WORD].
      rewrite apply_merge_cons2. cbn [fst snd apply_merge].
      match goal with
      | |- context [if ?c then _ else _] => destruct c eqn:E
      end.
      * apply andb_true_iff in E. destruct E as [Ex Ey].
        apply eqb_eq in Ex, Ey. subst x b.
        exists [], (a ++ body). simpl.
        rewrite app_nil_r, <- app_assoc. auto.
      * exists [x], body. simpl. auto.
    + inversion Hne as [|? ? Hx Hne1]; subst.
      inversion Hne1 as [|? ? Hy Hne2]; subst.
      change ((x :: y :: rest) ++ [body ++ END_OF_WORD])
        with (x :: y :: (rest ++ [body ++ END_OF_WORD])).
      rewrite apply_merge_cons2. cbn [fst snd].
      match goal with
      | |- context [if ?c then _ else _] => destruct c eqn:E
      end.
      * apply andb_true_iff in E. destruct E as [Ex Ey].
        apply eqb_eq in Ex, Ey. subst x y.
        destruct (IH rest body) as (chunks' & body' & E1 & E2 & E3);
          [simpl in Hlen; lia | assumption |].
        exists ((a ++ b) :: chunks'), body'.
        split; [simpl; f_equal; exact E1|]. split.
        -- simpl. rewrite <- !app_assoc. do 2 f_equal. exact E2.
        -- constructor; auto. destruct a; [congruence | discriminate].
      * destruct (IH (y :: rest) body) as (chunks' & body' & E1 & E2 & E3);
          [simpl in *; lia | assumption |].
        exists (x :: chunks'), body'.
        split; [simpl; f_equal; exact E1|]. split.
        -- simpl. rewrite <- !app_assoc. f_equal.
           etransitivity; [exact E2|]. simpl. now rewrite <- app_assoc.
        -- constructor; auto.
Qed.

Lemma apply_merge_word_syms (r : merge_rule) (w : str) (syms : list str) :
  snd r = fst (fst r) ++ snd (fst r) ->
  word_syms w syms -> word_syms w (apply_merge (fst r) (snd r) syms).
Proof.
  intros Er (chunks & body & -> & Ew & Hne).
  destruct r as [[a b] m]. simpl in *. subst m.
  destruct (@apply_merge_chunks a b (length chunks) chunks body)
    as (chunks' & body' & E1 & E2 & E3); auto.
  exists chunks', body'. rewrite E1. split; [reflexivity|].
  split; [congruence | assumption].
Qed.

Lemma chars_concat (w : str) : concat (chars w) = w.
Proof. induction w as [|c w IH]; simpl; congruence. Qed.

Lemma tokenize_word_syms (rules : list merge_rule) (w : str) :
  rules_ok rules -> word_syms w (tokenize_word rules w).
Proof.
  intros Hok. unfold tokenize_word.
  assert (H0 : word_syms w (chars w ++ [END_OF_WORD])).
  { exists (chars w), []. simpl. rewrite app_nil_r, chars_concat.
    repeat split. unfold chars. apply Forall_map, Forall_forall.
    intros; discriminate. }
  revert H0. generalize (chars w ++ [END_OF_WORD]).
  induction rules as [|r rules IH]; intros syms Hs; simpl; auto.
  apply IH.
  - intros r' Hr'. apply Hok. now right.
  - apply apply_merge_word_syms; auto. apply Hok. now left.
Qed.

Lemma apply_merge_In (p : str * str) (m : str) (syms : list str) (s : str) :
  In s (apply_merge p m syms) -> In s syms \/ s = m.
Proof.
  remember (length syms) as n eqn:En.
  assert (Hlen : (length syms <= n)%nat) by lia. clear En.
  revert syms Hlen. induction n as [|n IH]; intros syms Hlen.
  - destruct syms; [simpl; tauto | simpl in Hlen; lia].
  - destruct syms as [|x [|y rest]]; [simpl; auto ..|].
    rewrite apply_merge_cons2.
    destruct (eqb x (fst p) && eqb y (snd p)).
    + intros [<-|Hin]; auto.
      apply IH in Hin; [|simpl in Hlen; lia]. simpl. intuition.
    + intros [<-|Hin]; [simpl; auto|].
      apply IH in Hin; [|simpl in *; lia].
      simpl in Hin. simpl. intuition.
Qed.

Lemma tokenize_word_In (rules : list merge_rule) (w s : str) :
  In s (tokenize_word rules w) ->
  In s (chars w ++ [END_OF_WORD]) \/ exists r, In r rules /\ s = snd r.
Proof.
  unfold tokenize_word. generalize (chars w ++ [END_OF_WORD]).
  induction rules as [|r rules IH]; intros syms; simpl; auto.
  intros Hin. apply IH in Hin. destruct Hin as [Hin|(r' & Hr' & ->)].
  - apply apply_merge_In in Hin. destruct Hin as [Hin| ->]; eauto.
  - eauto.
Qed.

End WordSymbols.

(** *** Replacement in a string *)

Section Replace.

Lemma replace_skip_no_head (old' new c r : str) (h : char) :
  Forall (fun ch => ch <> h) c ->
  replace_skip (h :: old') new 0 (c ++ r)
  = c ++ replace_skip (h :: old') new 0 r.
Proof.
  induction 1 as [|ch c Hch _ IH]; [reflexivity|].
  simpl. rewrite (eqb_neq (x := h) (y := ch)) by congruence.
  simpl. now rewrite IH.
Qed.

Lemma replace_skip_drop (old new s r : str) :
  replace_skip old new (length s) (s ++ r) = replace_skip old new 0 r.
Proof.
  induction s as [|c s IH]; simpl; auto.
Qed.

Lemma replace_skip_match (old' new r : str) (h : char) :
  replace_skip (h :: old') new 0 ((h :: old') ++ r)
  = new ++ replace_skip (h :: old') new 0 r.
Proof.
  simpl. rewrite eqb_refl, starts_with_self_app. simpl.
  rewrite Nat.sub_0_r. now rewrite replace_skip_drop.
Qed.

Lemma replace_skip_no_match (old' new r : str) (h : char) :
  starts_with old' r = false ->
  replace_skip (h :: old') new 0 (h :: r)
  = h :: replace_skip (h :: old') new 0 r.
Proof.
  intros Hno. simpl. rewrite eqb_refl, Hno. reflexivity.
Qed.

End Replace.

(** *** Decoding a sequence of symbols *)

Section DecodeText.
Import BPE.

Lemma join_items (f : item -> str) (x : item) (rest : list item) :
  join SPACE (List.map f (x :: rest)) = f x ++ tail_text f rest.
Proof.
  revert x; induction rest as [|y rest IH]; intros x.
  - simpl. now rewrite app_nil_r.
  - change (join SPACE (List.map f (x :: y :: rest)))
      with (f x ++ SPACE ++ join SPACE (List.map f (y :: rest))).
    rewrite IH. reflexivity.
Qed.

Lemma clean_no_space (s : str) :
  clean_str s -> Forall (fun ch => ch <> 32%N) s.
Proof.
  intros H. eapply Forall_impl; [|exact H]. simpl.
  intros ch [Hs _] ->. discriminate.
Qed.

Lemma clean_no_lt (s : str) :
  clean_str s -> Forall (fun ch => ch <> 60%N) s.
Proof. intros H. eapply Forall_impl; [|exact H]. simpl. tauto. Qed.

Lemma render_no_space (it : item) :
  good_item it -> Forall (fun ch => ch <> 32%N) (render it).
Proof.
  destruct it as [c|b]; simpl.
  - intros [_ H]. now apply clean_no_space.
  - intros H. apply Forall_app. split; [now apply clean_no_space|].
    repeat constructor; discriminate.
Qed.

Lemma render_head (it : item) (r : str) :
  good_item it -> standalone it = false ->
  starts_with END_OF_WORD (render it ++ r) = false.
Proof.
  destruct it as [[|ch c]|[|ch b]]; simpl; try tauto; try discriminate.
  - intros [_ H] _. inversion H; subst.
    now rewrite (eqb_neq (x := 60%N) (y := ch)) by (intros E; symmetry in E; tauto).
  - intros H _. inversion H; subst.
    now rewrite (eqb_neq (x := 60%N) (y := ch)) by (intros E; symmetry in E; tauto).
Qed.

(** First pass of [decode]: the markers that stand alone go away together
    with the space before them. *)
Lemma drop_standalone_tail (rest : list item) :
  Forall good_item rest ->
  replace_skip MARK_WITH_SPACE [] 0 (tail_text render rest)
  = tail_text render (filter (fun it => negb (standalone it)) rest).
Proof.
  induction 1 as [|y rest Hy _ IH]; [reflexivity|].
  cbn [tail_text filter].
  destruct (standalone y) eqn:Es; cbn [negb].
  - destruct y as [c|[|ch b]]; try discriminate.
    rewrite <- IH.
    change (32%N :: render (Marked []) ++ tail_text render rest)
      with (MARK_WITH_SPACE ++ tail_text render rest).
    unfold MARK_WITH_SPACE at 1 3. now rewrite replace_skip_match.
  - cbn [tail_text]. rewrite <- IH. unfold MARK_WITH_SPACE.
    rewrite replace_skip_no_match by now apply render_head.
    f_equal. now apply replace_skip_no_head, render_no_space.
Qed.

Lemma drop_standalone (x : item) (rest : list item) :
  good_item x -> Forall good_item rest ->
  replace (SPACE ++ END_OF_WORD) [] (render x ++ tail_text render rest)
  = render x ++ tail_text render (filter (fun it => negb (standalone it)) rest).
Proof.
  intros Hx Hrest. rewrite <- drop_standalone_tail by assumption.
  unfold replace. change (SPACE ++ END_OF_WORD) with MARK_WITH_SPACE.
  unfold MARK_WITH_SPACE.
  now apply replace_skip_no_head, render_no_space.
Qed.

(** Second pass: the markers attached to a symbol go away. *)
Lemma unmark_item (it : item) (r : str) :
  good_item it ->
  replace_skip END_OF_WORD [] 0 (render it ++ r)
  = bare it ++ replace_skip END_OF_WORD [] 0 r.
Proof.
  change END_OF_WORD with (60%N :: lit "/w>").
  destruct it as [c|b]; cbn [render bare].
  - intros [_ H]. now apply replace_skip_no_head, clean_no_lt.
  - intros H. change END_OF_WORD with (60%N :: lit "/w>").
    rewrite <- app_assoc.
    rewrite replace_skip_no_head by now apply clean_no_lt.
    now rewrite replace_skip_match.
Qed.

Lemma unmark_tail (rest : list item) :
  Forall good_item rest ->
  replace_skip END_OF_WORD [] 0 (tail_text render rest) = tail_text bare rest.
Proof.
  induction 1 as [|y rest Hy _ IH]; [reflexivity|].
  cbn [tail_text]. rewrite <- IH.
  change (32%N :: render y ++ tail_text render rest)
    with ([32%N] ++ render y ++ tail_text render rest).
  change END_OF_WORD with (60%N :: lit "/w>") at 1.
  rewrite replace_skip_no_head by (repeat constructor; discriminate).
  change (60%N :: lit "/w>") with END_OF_WORD.
  cbn [app]. f_equal. now apply unmark_item.
Qed.

Lemma unmark_text (x : item) (rest : list item) :
  good_item x -> Forall good_item rest ->
  replace END_OF_WORD [] (render x ++ tail_text render rest)
  = bare x ++ tail_text bare rest.
Proof.
  intros Hx Hrest. rewrite <- unmark_tail by assumption.
  now apply unmark_item.
Qed.

End DecodeText.

(** *** Stripping and splitting the decoded text *)

Section StripSplit.
Import BPE.

Lemma lstrip_id (ch : char) (s : str) :
  isspace ch = false -> lstrip (ch :: s) = ch :: s.
Proof. intros H. simpl. now rewrite H. Qed.

Lemma strip_trimmed (s : str) : trimmed s -> strip s = s.
Proof.
  intros [(ch & s1 & E1 & H1) (s2 & ch2 & E2 & H2)].
  unfold strip. rewrite E1, lstrip_id by assumption. rewrite <- E1, E2.
  rewrite rev_unit, lstrip_id by assumption.
  now rewrite <- rev_unit, rev_involutive.
Qed.

Lemma word_like_ends (s : str) :
  word_like s -> exists s' ch, s = s' ++ [ch] /\ isspace ch = false.
Proof.
  intros [Hne Hall]. destruct (exists_last Hne) as (s' & ch & ->).
  exists s', ch. split; auto.
  apply Forall_app in Hall. destruct Hall as [_ Hl]. now inversion Hl.
Qed.

Lemma tail_text_ends (f : item -> str) (rest : list item) :
  rest <> [] -> Forall (fun it => word_like (f it)) rest ->
  exists s' ch, tail_text f rest = s' ++ [ch] /\ isspace ch = false.
Proof.
  intros Hne Hall. induction Hall as [|y rest Hy Hall IH]; [congruence|].
  cbn [tail_text]. destruct rest as [|z rest].
  - destruct (word_like_ends Hy) as (s' & ch & -> & Hch).
    exists (32%N :: s'), ch. simpl. rewrite app_nil_r. auto.
  - destruct IH as (s' & ch & E & Hch); [discriminate|].
    exists (32%N :: f y ++ s'), ch. rewrite E. simpl.
    rewrite <- app_assoc. auto.
Qed.

Lemma text_trimmed (f : item -> str) (x : item) (rest : list item) :
  word_like (f x) -> Forall (fun it => word_like (f it)) rest ->
  trimmed (f x ++ tail_text f rest).
Proof.
  intros Hx Hrest. split.
  - destruct Hx as [Hne Hall]. destruct (f x) as [|ch s]; [congruence|].
    exists ch, (s ++ tail_text f rest). split; [reflexivity|].
    now inversion Hall.
  - destruct rest as [|y rest].
    + simpl. rewrite app_nil_r. now apply word_like_ends.
    + destruct (@tail_text_ends f (y :: rest)) as (s' & ch & E & Hch);
        [discriminate | assumption |].
      exists (f x ++ s'), ch. rewrite E, app_assoc. auto.
Qed.

Lemma split_acc_word (c acc r : str) :
  Forall (fun ch => isspace ch = false) c ->
  split_acc acc (c ++ r) = split_acc (rev c ++ acc) r.
Proof.
  intros Hc. revert acc. induction Hc as [|ch c Hch _ IH]; intros acc.
  - reflexivity.
  - simpl. rewrite Hch, IH. now rewrite <- app_assoc.
Qed.

Lemma split_text (f : item -> str) (rest : list item) :
  Forall (fun it => word_like (f it)) rest ->
  forall c, word_like c ->
    split_acc [] (c ++ tail_text f rest) = c :: List.map f rest.
Proof.
  induction 1 as [|y rest Hy _ IH]; intros c [Hne Hc].
  - simpl. rewrite app_nil_r.
    rewrite <- (app_nil_r c) at 1. rewrite split_acc_word by assumption.
    rewrite app_nil_r. simpl.
    destruct (rev c) eqn:E.
    + apply (f_equal (@rev _)) in E. rewrite rev_involutive in E.
      simpl in E. congruence.
    + rewrite <- E. now rewrite rev_involutive.
  - cbn [tail_text]. rewrite split_acc_word by assumption.
    rewrite app_nil_r. simpl.
    destruct (rev c) eqn:E.
    + apply (f_equal (@rev _)) in E. rewrite rev_involutive in E.
      simpl in E. congruence.
    + rewrite <- E, rev_involutive. f_equal. now apply IH.
Qed.

(** The words of a text *)
Lemma split_acc_words (s acc : str) :
  Forall (fun ch => isspace ch = false) acc ->
  Forall (fun w => word_like w /\ forall ch, In ch w -> In ch acc \/ In ch s)
         (split_acc acc s).
Proof.
  revert acc. induction s as [|c s IH]; intros acc Hacc.
  - simpl. destruct acc as [|a acc]; [constructor|].
    constructor; [|constructor]. split.
    + split.
      * intros E. apply (f_equal (@rev _)) in E.
        rewrite rev_involutive in E. discriminate.
      * now apply Forall_rev.
    + intros ch Hin. left. now apply in_rev.
  - simpl. destruct (isspace c) eqn:Ec.
    + assert (Hrest : Forall (fun w => word_like w
                          /\ (forall ch, In ch w -> In ch acc \/ In ch (c :: s)))
                        (split_acc [] s)).
      { eapply Forall_impl; [|apply (IH [])]; [|constructor].
        intros w [Hw Hin]. split; auto.
        intros ch Hch. apply Hin in Hch. destruct Hch as [[]|]. right. now right. }
      destruct acc as [|a acc]; [exact Hrest|].
      constructor; [|exact Hrest]. split.
      * split.
        -- intros E. apply (f_equal (@rev _)) in E.
           rewrite rev_involutive in E. discriminate.
        -- now apply Forall_rev.
      * intros ch Hin. left. now apply in_rev.
    + eapply Forall_impl; [|apply (IH (c :: acc))]; [|now constructor].
      intros w [Hw Hin]. split; auto.
      intros ch Hch. apply Hin in Hch.
      destruct Hch as [[<-|]|]; [right; now left | now left | right; now right].
Qed.

Lemma split_words (s : str) :
  Forall (fun w => word_like w /\ forall ch, In ch w -> In ch s) (split s).
Proof.
  eapply Forall_impl; [|apply (@split_acc_words s [])]; [|constructor].
  intros w [Hw Hin]. split; auto.
  intros ch Hch. apply Hin in Hch. now destruct Hch as [[]|].
Qed.

End StripSplit.

(** *** One round trip *)

Section RoundTrip.
Import BPE.

Lemma unmark_marked (b : str) : unmark (b ++ END_OF_WORD) = b.
Proof.
  unfold unmark. rewrite length_app, Nat.add_sub.
  rewrite firstn_app, Nat.sub_diag, firstn_all. simpl. apply app_nil_r.
Qed.

Lemma itemize_chunks (chunks : list str) (body : str) :
  itemize (chunks ++ [body ++ END_OF_WORD])
  = List.map Plain chunks ++ [Marked body].
Proof.
  unfold itemize. now rewrite removelast_last, last_last, unmark_marked.
Qed.

Lemma clean_concat (chunks : list str) (body : str) :
  clean_str (concat chunks ++ body) ->
  Forall clean_str chunks /\ clean_str body.
Proof.
  unfold clean_str. intros H. apply Forall_app in H. destruct H as [Hc Hb].
  split; auto. induction chunks as [|c chunks IH]; [constructor|].
  simpl in Hc. apply Forall_app in Hc. destruct Hc as [H1 H2].
  constructor; auto.
Qed.

(** The items of a clean word. *)
Lemma itemize_word (rules : list merge_rule) (w : str) :
  rules_ok rules -> w <> [] -> clean_str w ->
  let items := itemize (tokenize_word rules w) in
  List.map render items = tokenize_word rules w
  /\ Forall good_item items
  /\ (exists x rest, items = x :: rest /\ standalone x = false)
  /\ concat (pieces rules w) = w
  /\ Forall (fun p => p <> [] /\ clean_str p) (pieces rules w).
Proof.
  intros Hok Hne Hclean items.
  destruct (tokenize_word_syms w Hok) as (chunks & body & Es & Ew & Hch).
  subst items. unfold pieces. rewrite Es, itemize_chunks.
  rewrite <- Ew in Hclean. apply clean_concat in Hclean.
  destruct Hclean as [Hcc Hcb].
  assert (Hgood : Forall good_item (List.map Plain chunks ++ [Marked body])).
  { apply Forall_app. split; [|repeat constructor; exact Hcb].
    apply Forall_map. rewrite Forall_forall in *. intros c Hc. simpl. auto. }
  assert (Hfilter : filter (fun it => negb (standalone it)) (List.map Plain chunks)
                    = List.map Plain chunks).
  { clear. induction chunks as [|c chunks IH]; simpl; congruence. }
  repeat split.
  - rewrite map_app, map_map. simpl. now rewrite map_id.
  - exact Hgood.
  - destruct chunks as [|c chunks].
    + exists (Marked body), []. split; [reflexivity|].
      simpl in Ew. subst body. destruct w; [congruence | reflexivity].
    + exists (Plain c), (List.map Plain chunks ++ [Marked body]).
      split; reflexivity.
  - rewrite filter_app, Hfilter, map_app, map_map. simpl List.map at 1.
    rewrite map_id, concat_app.
    destruct body as [|ch body]; simpl; rewrite ?app_nil_r in *; exact Ew.
  - rewrite filter_app, Hfilter, map_app, map_map. simpl List.map at 1.
    rewrite map_id. apply Forall_app. split.
    + rewrite Forall_forall in *. intros c Hc. auto.
    + destruct body as [|ch body]; simpl; [constructor|].
      constructor; [|constructor]. split; [discriminate | exact Hcb].
Qed.

Lemma bare_word_like (it : item) :
  good_item it -> standalone it = false -> word_like (bare it).
Proof.
  assert (Hw : forall s, clean_str s ->
                 Forall (fun ch => isspace ch = false) s).
  { intros s H. eapply Forall_impl; [|exact H]. simpl. tauto. }
  destruct it as [c|[|ch b]]; simpl; try discriminate.
  - intros [Hne Hc] _. split; auto.
  - intros Hc _. split; [discriminate | auto].
Qed.

Lemma decode_items (x : item) (rest : list item) :
  Forall good_item (x :: rest) -> standalone x = false ->
  decode_text (List.map render (x :: rest))
  = join SPACE (List.map bare
                  (filter (fun it => negb (standalone it)) (x :: rest))).
Proof.
  intros Hgood Hx. inversion Hgood as [|? ? Hgx Hgrest]; subst.
  unfold decode_text. rewrite join_items, drop_standalone by assumption.
  set (rest' := filter (fun it => negb (standalone it)) rest).
  assert (Hrest' : Forall good_item rest').
  { subst rest'. rewrite Forall_forall in *. intros it Hit.
    apply filter_In in Hit. now apply Hgrest. }
  rewrite unmark_text by assumption.
  cbn [filter]. rewrite Hx. cbn [negb]. fold rest'.
  rewrite join_items. apply strip_trimmed, text_trimmed.
  - now apply bare_word_like.
  - subst rest'. rewrite Forall_forall in *. intros it Hit.
    apply filter_In in Hit. destruct Hit as [Hit Hs].
    apply bare_word_like; auto. now apply negb_true_iff.
Qed.

Lemma render_items_of (rules : list merge_rule) (ws : list str) :
  rules_ok rules -> Forall clean_word ws ->
  List.map render (items_of rules ws) = flat_map (tokenize_word rules) ws.
Proof.
  intros Hok Hws. induction Hws as [|w ws [Hne Hc] _ IH]; [reflexivity|].
  unfold items_of in *. simpl. rewrite map_app, IH. f_equal.
  now apply (itemize_word Hok Hne Hc).
Qed.

Lemma good_items_of (rules : list merge_rule) (ws : list str) :
  rules_ok rules -> Forall clean_word ws ->
  Forall good_item (items_of rules ws).
Proof.
  intros Hok Hws. induction Hws as [|w ws [Hne Hc] _ IH]; [constructor|].
  unfold items_of in *. simpl. apply Forall_app. split; auto.
  now apply (itemize_word Hok Hne Hc).
Qed.

Lemma bare_items_of (rules : list merge_rule) (ws : list str) :
  List.map bare (filter (fun it => negb (standalone it)) (items_of rules ws))
  = flat_map (pieces rules) ws.
Proof.
  unfold items_of. induction ws as [|w ws IH]; [reflexivity|].
  simpl. rewrite filter_app, map_app, IH. reflexivity.
Qed.

Lemma decode_words (rules : list merge_rule) (ws : list str) :
  rules_ok rules -> Forall clean_word ws ->
  decode_text (flat_map (tokenize_word rules) ws)
  = join SPACE (flat_map (pieces rules) ws).
Proof.
  intros Hok Hws.
  rewrite <- render_items_of, <- bare_items_of by assumption.
  pose proof (good_items_of Hok Hws) as Hgood.
  destruct Hws as [|w ws [Hne Hc] Hws]; [reflexivity|].
  destruct (itemize_word Hok Hne Hc) as (_ & _ & (x & rest & Ex & Hx) & _).
  unfold items_of in *. cbn [flat_map] in *. rewrite Ex in *.
  cbn [app] in *. now apply decode_items.
Qed.

End RoundTrip.

(** *** Round trips of a trained codec *)

Section TrainedRoundTrip.
Import BPE.

Lemma flat_map_map_inner {A B C} (f : B -> C) (g : A -> list B) (l : list A) :
  flat_map (fun x => List.map f (g x)) l = List.map f (flat_map g l).
Proof.
  induction l as [|x l IH]; [reflexivity|].
  simpl. now rewrite map_app, IH.
Qed.

Lemma match_special_none (ch : char) (s : str) :
  ch <> 60%N -> match_special (ch :: s) = None.
Proof.
  intros Hch. unfold match_special. simpl.
  now rewrite !(eqb_neq (x := 60%N) (y := ch)) by congruence.
Qed.

Lemma re_split_acc_clean (t cur : str) :
  Forall (fun ch => ch <> 60%N) t -> re_split_acc 0 cur t = [rev cur ++ t].
Proof.
  intros Ht. revert cur. induction Ht as [|ch t Hch _ IH]; intros cur.
  - simpl. now rewrite app_nil_r.
  - cbn [re_split_acc]. rewrite match_special_none by assumption.
    rewrite IH. simpl. now rewrite <- app_assoc.
Qed.

Lemma is_special_clean (ch : char) (s : str) :
  ch <> 60%N -> is_special (ch :: s) = false.
Proof.
  intros Hch. unfold is_special. simpl.
  rewrite !(@eqb_neq str _ (ch :: s)); [reflexivity | ..];
    intros E; injection E; intros; congruence.
Qed.

Variables (order : list str) (corpus : str) (target : Z).
Let tk := train order corpus target.
Let rules := merges tk.

Lemma trained_rules_ok : rules_ok rules.
Proof.
  intros r Hr. subst rules tk. rewrite train_merges in Hr.
  now apply (inv_rules (train_loop_inv order corpus target)) in Hr.
Qed.

Lemma merged_in_vocab (r : merge_rule) : In r rules -> In (snd r) (vocab tk).
Proof.
  intros Hr. subst rules tk. rewrite train_merges in Hr. rewrite train_vocab.
  apply In_union. left.
  now apply (inv_rules (train_loop_inv order corpus target)) in Hr.
Qed.

Lemma encode_clean (t : str) :
  Forall (fun ch => ch <> 60%N) t ->
  encode tk t
  = Ok (List.map (fun s => get_or (token2id tk) s 0%Z)
                 (flat_map (tokenize_word rules) (split t))).
Proof.
  intros Ht. subst tk. rewrite encode_trained.
  unfold re_split. rewrite re_split_acc_clean by assumption.
  simpl. rewrite app_nil_r. f_equal.
  destruct t as [|ch s]; [reflexivity|].
  unfold encode_part. inversion Ht; subst.
  rewrite is_special_clean by assumption.
  apply flat_map_map_inner.
Qed.

Lemma decode_trained (ids : list Z) :
  decode tk ids
  = Ok (decode_text (List.map (fun i => get_or (id2token tk) i []) ids)).
Proof.
  unfold decode.
  pose proof (train_id2token_nonempty order corpus target) as Hne.
  fold tk in Hne. destruct (id2token tk); [congruence | reflexivity].
Qed.

Lemma id_round_trip (s : str) :
  In s (vocab tk) ->
  get_or (id2token tk) (get_or (token2id tk) s 0%Z) [] = s.
Proof.
  intros Hs. pose proof (NoDup_train_vocab order corpus target) as Hnd.
  fold tk in Hnd.
  destruct (token2id_defined s Hnd Hs) as [i Hi].
  pose proof Hi as Hi'. apply get_id2token in Hi'; auto.
  subst tk. rewrite train_token2id, train_id2token.
  unfold get_or. now rewrite Hi, Hi'.
Qed.

Lemma clean_text_words (t : str) :
  clean_text tk t ->
  Forall (fun w => clean_word w
                   /\ Forall (fun s => In s (vocab tk))
                             (tokenize_word rules w))
         (split t).
Proof.
  intros (Hlt & Hmark & Hknown).
  pose proof (split_words t) as Hws.
  eapply Forall_impl; [|exact Hws]. simpl.
  intros w [[Hne Hsp] Hin].
  assert (Hclean : clean_str w).
  { unfold clean_str. rewrite Forall_forall in *. intros ch Hch. split; auto. }
  split; [split; assumption|].
  apply Forall_forall. intros s Hs.
  apply tokenize_word_In in Hs. destruct Hs as [Hs|(r & Hr & ->)].
  - apply in_app_iff in Hs. destruct Hs as [Hs|[<-|[]]]; auto.
    unfold chars in Hs. apply in_map_iff in Hs. destruct Hs as (ch & <- & Hch).
    apply Hknown; auto. rewrite Forall_forall in Hsp. auto.
  - now apply merged_in_vocab.
Qed.

(** One round trip of a clean text: every word is replaced by its pieces. *)
Lemma round_trip_clean (t : str) :
  clean_text tk t ->
  round_trip tk t = Ok (join SPACE (step rules (split t))).
Proof.
  intros Hclean. pose proof (clean_text_words Hclean) as Hws.
  destruct Hclean as (Hlt & _).
  unfold round_trip. rewrite encode_clean by assumption.
  cbn [bind]. rewrite decode_trained. f_equal.
  rewrite map_map.
  assert (Hsyms : List.map (fun s => get_or (id2token tk)
                                       (get_or (token2id tk) s 0%Z) [])
                           (flat_map (tokenize_word rules) (split t))
                  = flat_map (tokenize_word rules) (split t)).
  { rewrite <- (map_id (flat_map _ _)) at 2. apply map_ext_in.
    intros s Hs. apply id_round_trip.
    apply in_flat_map in Hs. destruct Hs as (w & Hw & Hs).
    rewrite Forall_forall in Hws. destruct (Hws w Hw) as [_ Hk].
    rewrite Forall_forall in Hk. auto. }
  rewrite Hsyms. apply decode_words; [apply trained_rules_ok|].
  eapply Forall_impl; [|exact Hws]. simpl. tauto.
Qed.

End TrainedRoundTrip.

(** *** Repeated round trips *)

Section FixedPoint.
Import BPE.

Lemma pieces_facts (rules : list merge_rule) (w : str) :
  rules_ok rules -> clean_word w ->
  concat (pieces rules w) = w /\ Forall clean_word (pieces rules w).
Proof.
  intros Hok [Hne Hc].
  destruct (itemize_word Hok Hne Hc) as (_ & _ & _ & E & Hp). auto.
Qed.

Lemma length_le_concat (l : list str) :
  Forall (fun p => p <> []) l -> (length l <= length (concat l))%nat.
Proof.
  induction 1 as [|p l Hp _ IH]; simpl; auto.
  rewrite length_app. destruct p; [congruence | simpl; lia].
Qed.

Lemma clean_words_nonempty (l : list str) :
  Forall clean_word l -> Forall (fun p => p <> []) l.
Proof. intros H. eapply Forall_impl; [|exact H]. now intros p [Hne _]. Qed.

(** A round trip keeps the characters, never joins two words, and leaves
    the list of words unchanged unless it splits one of them. *)
Lemma step_facts (rules : list merge_rule) (ws : list str) :
  rules_ok rules -> Forall clean_word ws ->
  concat (step rules ws) = concat ws
  /\ Forall clean_word (step rules ws)
  /\ (length ws <= length (step rules ws))%nat
  /\ (length (step rules ws) = length ws -> step rules ws = ws).
Proof.
  intros Hok Hws. unfold step.
  induction Hws as [|w ws Hw _ IH]; [simpl; auto|].
  destruct IH as (IH1 & IH2 & IH3 & IH4).
  destruct (pieces_facts Hok Hw) as [Ec Hp].
  assert (Hlen : (1 <= length (pieces rules w))%nat).
  { destruct (pieces rules w); [|simpl; lia].
    simpl in Ec. destruct Hw. congruence. }
  cbn [flat_map]. repeat split.
  - rewrite concat_app, IH1, Ec. reflexivity.
  - apply Forall_app. auto.
  - rewrite length_app. simpl. lia.
  - rewrite length_app. simpl. intros Hl.
    assert (H1 : length (pieces rules w) = 1%nat) by lia.
    destruct (pieces rules w) as [|p [|q l]]; try discriminate.
    simpl in Ec. rewrite app_nil_r in Ec. subst p.
    simpl. f_equal. apply IH4. simpl in Hl. lia.
Qed.

(** After at most [d] round trips, where [d] bounds the number of
    characters in excess of the number of words, nothing changes. *)
Lemma iter_step_stabilises (rules : list merge_rule) (d : nat) :
  rules_ok rules ->
  forall ws,
    Forall clean_word ws ->
    (length (concat ws) - length ws <= d)%nat ->
    exists k, (k <= d)%nat
              /\ Forall clean_word (iter_step rules k ws)
              /\ iter_step rules (S k) ws = iter_step rules k ws.
Proof.
  intros Hok. induction d as [|d IH]; intros ws Hws Hslack;
    destruct (step_facts Hok Hws) as (Ec & Hc & Hlen & Hfix);
    pose proof (length_le_concat (clean_words_nonempty Hc)) as Hbound;
    rewrite Ec in Hbound.
  - exists 0%nat. split; [lia|]. split; [exact Hws|].
    simpl. apply Hfix. lia.
  - destruct (Nat.eq_dec (length (step rules ws)) (length ws)) as [E|E].
    + exists 0%nat. split; [lia|]. split; [exact Hws|]. simpl. now apply Hfix.
    + destruct (IH (step rules ws) Hc) as (k & Hk & Hck & Hstab).
      * rewrite Ec. lia.
      * exists (S k). split; [lia|]. split; [exact Hck | exact Hstab].
Qed.

Lemma concat_split_acc_length (s acc : str) :
  (length (concat (split_acc acc s)) <= length acc + length s)%nat.
Proof.
  revert acc; induction s as [|c s IH]; intros acc; simpl.
  - destruct acc; simpl; [lia|]. rewrite app_nil_r, length_app, length_rev.
    simpl. lia.
  - destruct (isspace c).
    + specialize (IH []). simpl in IH.
      destruct acc; simpl; [lia|].
      rewrite !length_app, length_rev. simpl. lia.
    + specialize (IH (c :: acc)). simpl in IH. lia.
Qed.

Lemma In_tail_text (f : item -> str) (rest : list item) (ch : char) :
  In ch (tail_text f rest) -> ch = 32%N \/ exists y, In y rest /\ In ch (f y).
Proof.
  induction rest as [|y rest IH]; simpl; [tauto|].
  intros [<-|Hin]; auto.
  apply in_app_iff in Hin. destruct Hin as [Hin|Hin]; [right; eauto|].
  apply IH in Hin. destruct Hin as [->|(z & Hz & Hch)]; eauto.
Qed.

Lemma join_words (ws : list str) :
  Forall clean_word ws ->
  split (join SPACE ws) = ws
  /\ forall ch, In ch (join SPACE ws) ->
                ch = 32%N \/ exists w, In w ws /\ In ch w.
Proof.
  intros Hws. destruct Hws as [|w ws Hw Hws]; [simpl; tauto|].
  assert (Ew : List.map bare (List.map Plain ws) = ws).
  { rewrite map_map. simpl. now rewrite map_id. }
  assert (Hwl : forall p, clean_word p -> word_like p).
  { intros p [Hne Hc]. split; auto.
    eapply Forall_impl; [|exact Hc]. simpl; tauto. }
  assert (Ej : join SPACE (w :: ws)
               = bare (Plain w) ++ tail_text bare (List.map Plain ws)).
  { rewrite <- join_items. cbn [List.map bare]. now rewrite Ew. }
  rewrite Ej. split.
  - unfold split. rewrite split_text.
    + cbn [bare]. now rewrite Ew.
    + apply Forall_map. eapply Forall_impl; [|exact Hws]. simpl. auto.
    + cbn [bare]. auto.
  - intros ch Hin. apply in_app_iff in Hin. destruct Hin as [Hin|Hin].
    + right. exists w. simpl in *. auto.
    + apply In_tail_text in Hin. destruct Hin as [->|(y & Hy & Hch)]; auto.
      apply in_map_iff in Hy. destruct Hy as (p & <- & Hp).
      right. exists p. simpl in *. auto.
Qed.

Variables (order : list str) (corpus : str) (target : Z).
Let tk := train order corpus target.
Let rules := merges tk.

(** A text made of clean words of known characters is a clean text. *)
Lemma join_clean_text (ws : list str) :
  In END_OF_WORD (vocab tk) ->
  Forall clean_word ws ->
  (forall w ch, In w ws -> In ch w -> In [ch] (vocab tk)) ->
  clean_text tk (join SPACE ws).
Proof.
  intros Hmark Hws Hknown. destruct (join_words Hws) as [_ Hin].
  split; [|split; [exact Hmark|]].
  - apply Forall_forall. intros ch Hch. apply Hin in Hch.
    destruct Hch as [->|(w & Hw & Hch)]; [discriminate|].
    rewrite Forall_forall in Hws. destruct (Hws w Hw) as [_ Hc].
    unfold clean_str in Hc. rewrite Forall_forall in Hc. now apply Hc.
  - intros ch Hch Hsp. apply Hin in Hch.
    destruct Hch as [->|(w & Hw & Hch)]; [discriminate | eauto].
Qed.

Lemma In_concat_chars (l : list str) (w : str) (ch : char) :
  In w l -> In ch w -> In ch (concat l).
Proof. intros Hw Hch. apply in_concat. eauto. Qed.

(** [n + 1] round trips of a clean text, word by word. *)
Lemma iterate_round_trip_words (n : nat) :
  forall ws,
    In END_OF_WORD (vocab tk) ->
    Forall clean_word ws ->
    (forall ch, In ch (concat ws) -> In [ch] (vocab tk)) ->
    iterate_round_trip tk n (join SPACE ws)
    = Ok (join SPACE (iter_step rules n ws)).
Proof.
  induction n as [|n IH]; intros ws Hmark Hws Hknown; [reflexivity|].
  assert (Hclean : clean_text tk (join SPACE ws)).
  { apply join_clean_text; auto. intros w ch Hw Hch.
    apply Hknown. eapply In_concat_chars; eauto. }
  cbn [iterate_round_trip iter_step].
  unfold tk. rewrite round_trip_clean by exact Hclean.
  cbn [bind]. fold tk rules.
  destruct (join_words Hws) as [-> _].
  destruct (step_facts (trained_rules_ok order corpus target) Hws)
    as (Ec & Hc & _).
  fold tk rules in Ec, Hc.
  apply IH; auto. rewrite Ec. exact Hknown.
Qed.

End FixedPoint.

Lemma step_iter_step (rules : list BPE.merge_rule) (k : nat) (ws : list str) :
  step rules (iter_step rules k ws) = iter_step rules (S k) ws.
Proof.
  revert ws; induction k as [|k IH]; intros ws; [reflexivity|].
  cbn [iter_step] in *. now rewrite IH.
Qed.

Lemma iter_step_concat (rules : list BPE.merge_rule) (k : nat) :
  rules_ok rules ->
  forall ws, Forall clean_word ws -> concat (iter_step rules k ws) = concat ws.
Proof.
  intros Hok. induction k as [|k IH]; intros ws Hws; [reflexivity|].
  destruct (step_facts Hok Hws) as (Ec & Hc & _).
  cbn [iter_step]. now rewrite IH, Ec.
Qed.

(** ** C8: repeated round trips *)




(** ** Training does not depend on the enumeration of the control tokens *)

Section Scan.
Import BPE.

Lemma flush_map (classify : str -> entry) (acc : str) :
  flush classify acc = List.map (reclass classify) (flush Ord acc).
Proof. destruct acc; reflexivity. Qed.

Lemma scan_reclass (classify : str -> entry) (T : list str) (s : str) :
  forall k acc,
    scan classify T k acc s = List.map (reclass classify) (scan Ord T k acc s).
Proof.
  induction s as [|c s IH]; intros k acc; cbn [scan].
  - apply flush_map.
  - destruct k as [|k]; [|apply IH].
    destruct (match_tokens T (c :: s)) as [tok|].
    + rewrite map_app, <- flush_map. cbn [List.map reclass]. now rewrite IH.
    + destruct (isspace c); [|apply IH].
      now rewrite map_app, <- flush_map, IH.
Qed.

Lemma scan_no_tokens (classify : str -> entry) (s : str) :
  forall acc, scan classify [] 0 acc s = List.map classify (split_acc acc s).
Proof.
  induction s as [|c s IH]; intros acc; cbn [scan split_acc].
  - destruct acc; reflexivity.
  - unfold match_tokens. cbn [find]. destruct (isspace c); [|apply IH].
    rewrite IH. destruct acc; reflexivity.
Qed.

Lemma scan_skip (classify : str -> entry) (T : list str) (p acc r : str) :
  scan classify T (length p) acc (p ++ r) = scan classify T 0 acc r.
Proof.
  induction p as [|c p IH]; [reflexivity|].
  simpl. exact IH.
Qed.

Lemma starts_with_decompose (p s : str) :
  starts_with p s = true -> s = p ++ skipn (length p) s.
Proof.
  revert s; induction p as [|a p IH]; intros [|b s]; simpl;
    try discriminate; auto.
  intros H. apply andb_true_iff in H. destruct H as [E H].
  apply eqb_eq in E. subst b. f_equal. now apply IH.
Qed.

Lemma scan_match (classify : str -> entry) (T : list str) (tok acc r : str) :
  tok <> [] -> match_tokens T (tok ++ r) = Some tok ->
  scan classify T 0 acc (tok ++ r)
  = flush classify acc ++ Tok tok :: scan classify T 0 [] r.
Proof.
  intros Hne Hm. destruct tok as [|c tok]; [congruence|].
  change ((c :: tok) ++ r) with (c :: (tok ++ r)) in *.
  cbn [scan]. rewrite Hm.
  replace (length (c :: tok) - 1)%nat with (length tok) by (simpl; lia).
  now rewrite scan_skip.
Qed.

(** The shape of a control token: ['<'] followed by four characters that
    are neither ['<'] nor a space. *)
Lemma special_shaped (tok : str) : In tok special_tokens -> shaped tok.
Proof.
  simpl. intros [<-|[<-|[<-|[]]]]; eexists; (split; [reflexivity|]);
    (split; [reflexivity|]); repeat constructor; discriminate.
Qed.

Lemma starts_with_firstn (p s : str) :
  starts_with p s = true -> firstn (length p) s = p.
Proof.
  intros H. rewrite (starts_with_decompose p s H) at 1.
  rewrite firstn_app, Nat.sub_diag, firstn_all. simpl. apply app_nil_r.
Qed.

Lemma starts_with_same_length (p q s : str) :
  starts_with p s = true -> starts_with q s = true ->
  length p = length q -> p = q.
Proof.
  revert q s; induction p as [|a p IH]; intros [|b q] [|c s]; simpl;
    try discriminate; auto.
  intros Hp Hq Hl.
  apply andb_true_iff in Hp. apply andb_true_iff in Hq.
  destruct Hp as [Ea Hp], Hq as [Eb Hq].
  apply eqb_eq in Ea, Eb. subst. f_equal. eapply IH; eauto.
Qed.

Lemma shaped_match_unique (t t' s : str) :
  shaped t -> shaped t' ->
  starts_with t s = true -> starts_with t' s = true -> t = t'.
Proof.
  intros (t1 & -> & L1 & _) (t2 & -> & L2 & _) H1 H2.
  apply (starts_with_same_length _ _ s); auto.
  simpl. f_equal. etransitivity; [exact L1 | symmetry; exact L2].
Qed.

Lemma match_tokens_head (T : list str) (c : char) (s : str) :
  Forall shaped T -> c <> 60%N -> match_tokens T (c :: s) = None.
Proof.
  intros HT Hc. unfold match_tokens.
  induction HT as [|t T (t1 & -> & _) _ IH]; [reflexivity|].
  cbn [find starts_with].
  now rewrite (eqb_neq (x := 60%N) (y := c)) by congruence.
Qed.

Lemma match_tokens_Some (T : list str) (s tok : str) :
  match_tokens T s = Some tok -> In tok T /\ starts_with tok s = true.
Proof. unfold match_tokens. intros H. now apply find_some in H. Qed.

Lemma match_tokens_unique (T : list str) (s tok : str) :
  Forall shaped T -> In tok T -> starts_with tok s = true ->
  match_tokens T s = Some tok.
Proof.
  intros HT Hin Hs. unfold match_tokens.
  destruct (find (fun t => starts_with t s) T) as [t|] eqn:E.
  - apply find_some in E. destruct E as [Ht Hst].
    rewrite Forall_forall in HT. f_equal.
    eapply shaped_match_unique; eauto.
  - eapply find_none in E; eauto. simpl in E. congruence.
Qed.

(** The match at a position depends on the set of tokens only. *)
Lemma match_tokens_same_set (T T' : list str) (s : str) :
  Forall shaped T -> Forall shaped T' ->
  (forall t, In t T <-> In t T') ->
  match_tokens T s = match_tokens T' s.
Proof.
  intros HT HT' Hset.
  destruct (match_tokens T s) as [tok|] eqn:E.
  - apply match_tokens_Some in E. destruct E as [Hin Hs].
    symmetry. apply match_tokens_unique; auto. now apply Hset.
  - destruct (match_tokens T' s) as [tok|] eqn:E'; [|reflexivity].
    apply match_tokens_Some in E'. destruct E' as [Hin Hs].
    apply Hset in Hin.
    rewrite (@match_tokens_unique T s tok HT Hin Hs) in E. discriminate.
Qed.

Lemma scan_same_set (classify : str -> entry) (T T' : list str) (s : str) :
  Forall shaped T -> Forall shaped T' ->
  (forall t, In t T <-> In t T') ->
  forall k acc, scan classify T k acc s = scan classify T' k acc s.
Proof.
  intros HT HT' Hset. induction s as [|c s IH]; intros k acc; cbn [scan].
  - reflexivity.
  - destruct k as [|k]; [|apply IH].
    rewrite (@match_tokens_same_set T T' (c :: s) HT HT' Hset).
    destruct (match_tokens T' (c :: s)); [now rewrite IH|].
    destruct (isspace c); now rewrite IH.
Qed.

Lemma scan_word (classify : str -> entry) (T : list str) (w r : str) :
  Forall shaped T ->
  Forall (fun ch => isspace ch = false /\ ch <> 60%N) w ->
  forall acc, scan classify T 0 acc (w ++ r) = scan classify T 0 (rev w ++ acc) r.
Proof.
  intros HT Hw. induction Hw as [|ch w [Hsp Hlt] _ IH]; intros acc.
  - reflexivity.
  - cbn [app scan]. rewrite match_tokens_head, Hsp by assumption.
    rewrite IH. simpl. now rewrite <- app_assoc.
Qed.

Lemma scan_space (classify : str -> entry) (T : list str) (acc r : str) :
  Forall shaped T ->
  scan classify T 0 acc (32%N :: r)
  = flush classify acc ++ scan classify T 0 [] r.
Proof.
  intros HT. cbn [scan]. now rewrite match_tokens_head by (auto; discriminate).
Qed.

(** Replacing a control token does not change whether a string without
    ['<'] and spaces is a prefix. *)
Lemma prefix_stable (old' new' p s : str) :
  Forall (fun ch => ch <> 60%N /\ ch <> 32%N) p ->
  starts_with p (replace_skip (60%N :: old') (32%N :: new') 0 s)
  = starts_with p s.
Proof.
  intros Hp. revert s. induction Hp as [|a p [Ha1 Ha2] _ IH]; intros s.
  - reflexivity.
  - destruct s as [|c s]; [reflexivity|].
    cbn [replace_skip].
    destruct (starts_with (60%N :: old') (c :: s)) eqn:E.
    + cbn [starts_with] in E. apply andb_true_iff in E. destruct E as [E _].
      apply eqb_eq in E. subst c. cbn [app starts_with].
      rewrite (eqb_neq (x := a) (y := 32%N)) by assumption.
      now rewrite (eqb_neq (x := a) (y := 60%N)) by assumption.
    + cbn [starts_with]. now rewrite IH.
Qed.

Lemma replace_through_token (old' new tok' r : str) :
  shaped tok' ->
  starts_with (60%N :: old') (tok' ++ r) = false ->
  replace_skip (60%N :: old') new 0 (tok' ++ r)
  = tok' ++ replace_skip (60%N :: old') new 0 r.
Proof.
  intros (t1 & -> & _ & Ht1) Hno.
  change ((60%N :: t1) ++ r) with (60%N :: (t1 ++ r)) in *.
  cbn [replace_skip]. rewrite Hno. cbn [app]. f_equal.
  apply replace_skip_no_head.
  eapply Forall_impl; [|exact Ht1]. simpl. tauto.
Qed.

Lemma match_tokens_tail (T : list str) (tok' x y : str) :
  Forall shaped T -> shaped tok' ->
  match_tokens T (tok' ++ x) = match_tokens T (tok' ++ y).
Proof.
  intros HT (t1 & -> & L1 & _). unfold match_tokens.
  induction HT as [|t T (t2 & -> & L2 & _) _ IH]; [reflexivity|].
  assert (Hl : (length (60%N :: t2) <= length (60%N :: t1))%nat).
  { simpl. apply le_n_S, Nat.eq_le_incl.
    etransitivity; [exact L2 | symmetry; exact L1]. }
  cbn [find]. rewrite !starts_with_app by exact Hl.
  destruct (starts_with (60%N :: t2) (60%N :: t1)); auto.
Qed.

Lemma match_tokens_replace_stable (T : list str) (old' new' : str)
    (c : char) (s : str) :
  Forall shaped T ->
  match_tokens T (c :: replace_skip (60%N :: old') (32%N :: new') 0 s)
  = match_tokens T (c :: s).
Proof.
  intros HT. unfold match_tokens.
  induction HT as [|t T0 (t1 & -> & _ & Ht1) _ IH]; [reflexivity|].
  cbn [find starts_with]. rewrite prefix_stable by assumption.
  now rewrite IH.
Qed.

Section ReplaceOne.
Variables (classify : str -> entry) (T : list str) (old' ph : str).
Let tok : str := 60%N :: old'.
Hypothesis Htok : shaped tok.
Hypothesis HT : Forall shaped T.
Hypothesis Hph_ne : ph <> [].
Hypothesis Hph : Forall (fun ch => isspace ch = false /\ ch <> 60%N) ph.
Hypothesis Hclass : classify ph = Tok tok.

Let new : str := SPACE ++ ph ++ SPACE.

Lemma scan_new (acc r : str) :
  scan classify T 0 acc (new ++ r)
  = flush classify acc ++ Tok tok :: scan classify T 0 [] r.
Proof.
  unfold new. change (SPACE ++ ph ++ SPACE) with (32%N :: (ph ++ [32%N])).
  cbn [app]. rewrite scan_space by assumption. f_equal.
  rewrite <- app_assoc, scan_word by assumption.
  cbn [app]. rewrite scan_space by assumption.
  rewrite app_nil_r. unfold flush.
  destruct (rev ph) eqn:E.
  - apply (f_equal (@rev _)) in E. rewrite rev_involutive in E. simpl in E.
    congruence.
  - now rewrite <- E, rev_involutive, Hclass.
Qed.

(** Replacing the token by its placeholder, then scanning for the tokens of
    [T], is scanning the original text for the token and those of [T]. *)
Lemma scan_replace (n : nat) :
  forall s acc,
    (length s <= n)%nat ->
    scan classify T 0 acc (replace tok new s)
    = scan classify (tok :: T) 0 acc s.
Proof.
  assert (HT' : Forall shaped (tok :: T)) by (constructor; assumption).
  unfold replace.
  induction n as [|n IH]; intros s acc Hlen.
  - destruct s; [reflexivity | simpl in Hlen; lia].
  - destruct s as [|c s']; [reflexivity|].
    destruct (starts_with tok (c :: s')) eqn:Etok.
    + (* the token itself *)
      pose proof (starts_with_decompose _ _ Etok) as Es.
      set (r := skipn (length tok) (c :: s')) in *.
      assert (Hr : (length r <= n)%nat).
      { apply (f_equal (@length _)) in Es. rewrite length_app in Es.
        simpl in Es, Hlen. lia. }
      rewrite Es. unfold tok at 1 2. fold tok.
      unfold tok at 1. rewrite replace_skip_match. fold tok.
      unfold new at 2. fold new.
      change (32%N :: (ph ++ SPACE)) with new.
      rewrite scan_new, scan_match.
      * now rewrite IH.
      * discriminate.
      * apply match_tokens_unique; auto; [now left|].
        apply starts_with_self_app.
    + destruct (match_tokens T (c :: s')) as [tok'|] eqn:Em.
      * (* another token *)
        apply match_tokens_Some in Em. destruct Em as [Hin' Hs'].
        pose proof (starts_with_decompose _ _ Hs') as Es.
        set (r := skipn (length tok') (c :: s')) in *.
        assert (Hsh : shaped tok').
        { rewrite Forall_forall in HT. auto. }
        assert (Hr : (length r <= n)%nat).
        { apply (f_equal (@length _)) in Es. rewrite length_app in Es.
          destruct Hsh as (t1 & -> & L1 & _). simpl in Es, Hlen. lia. }
        rewrite Es in Etok |- *.
        unfold tok at 1. rewrite replace_through_token by assumption.
        fold tok.
        assert (Hm : forall x, match_tokens T (tok' ++ x) = Some tok').
        { intros x. apply match_tokens_unique; auto.
          apply starts_with_self_app. }
        assert (Hne : tok' <> []).
        { destruct Hsh as (t1 & -> & _). discriminate. }
        rewrite !scan_match; auto.
        -- now rewrite IH.
        -- apply match_tokens_unique; auto; [now right|].
           apply starts_with_self_app.
      * (* an ordinary character *)
        assert (Hnone : match_tokens T
                          (c :: replace_skip tok new 0 s') = None).
        { unfold tok, new.
          change (SPACE ++ ph ++ SPACE) with (32%N :: (ph ++ SPACE)).
          now rewrite match_tokens_replace_stable. }
        assert (Hnone' : match_tokens (tok :: T) (c :: s') = None).
        { unfold match_tokens in *. cbn [find]. now rewrite Etok. }
        unfold tok at 1. cbn [replace_skip]. fold tok. rewrite Etok.
        cbn [scan]. rewrite Hnone, Hnone'.
        simpl in Hlen.
        destruct (isspace c); [f_equal|]; apply IH; lia.
Qed.

End ReplaceOne.

End Scan.


(** *** Renaming the keys of a dictionary of counts *)

Section Rekey.
Context {K : Type} `{Eqb K}.

Lemma inj_on_incl (g : K -> K) (l l' : list K) :
  incl l l' -> inj_on g l' -> inj_on g l.
Proof. intros Hi Hinj x y Hx Hy. apply Hinj; auto. Qed.

Lemma get_rekeyed (g : K -> K) (d : dict K Z) (k : K) :
  inj_on g (k :: keys d) -> get (rekeyed g d) (g k) = get d k.
Proof.
  induction d as [|[k' v] d IH]; intros Hinj; simpl; auto.
  destruct (eqb_spec k' k) as [->|Hn].
  - now rewrite eqb_refl.
  - rewrite eqb_neq.
    + apply IH. eapply inj_on_incl; [|exact Hinj].
      intros x [<-|Hx]; simpl; auto.
    + intros E. apply Hn. apply Hinj; simpl; auto.
Qed.

Lemma set_rekeyed (g : K -> K) (d : dict K Z) (k : K) (v : Z) :
  inj_on g (k :: keys d) ->
  rekeyed g (set d k v) = set (rekeyed g d) (g k) v.
Proof.
  induction d as [|[k' v'] d IH]; intros Hinj; simpl; auto.
  destruct (eqb_spec k' k) as [->|Hn].
  - now rewrite eqb_refl.
  - rewrite (eqb_neq (x := g k') (y := g k)).
    + simpl. f_equal. apply IH. eapply inj_on_incl; [|exact Hinj].
      intros x [<-|Hx]; simpl; auto.
    + intros E. apply Hn. apply Hinj; simpl; auto.
Qed.

Lemma incr_rekeyed (g : K -> K) (d : dict K Z) (k : K) (n : Z) :
  inj_on g (k :: keys d) ->
  rekeyed g (incr d k n) = incr (rekeyed g d) (g k) n.
Proof.
  intros Hinj. unfold incr, get_or.
  now rewrite set_rekeyed, get_rekeyed.
Qed.

Lemma count_all_rekeyed (g : K -> K) (ks : list K) :
  inj_on g ks ->
  count_all [] (List.map g ks) = rekeyed g (count_all [] ks).
Proof.
  induction ks as [|k ks IH] using rev_ind; intros Hinj; [reflexivity|].
  rewrite map_app. simpl List.map. rewrite !count_all_snoc.
  rewrite IH by (eapply inj_on_incl; [|exact Hinj]; intros x Hx;
                 apply in_app_iff; now left).
  symmetry. apply incr_rekeyed.
  eapply inj_on_incl; [|exact Hinj].
  intros x [<-|Hx].
  - apply in_app_iff. right. now left.
  - rewrite keys_count_all, In_distinct in Hx.
    apply in_app_iff. now left.
Qed.

Lemma NoDup_map_inj_on (g : K -> K) (l : list K) :
  inj_on g l -> NoDup l -> NoDup (List.map g l).
Proof.
  intros Hinj Hnd. induction Hnd as [|x l Hx Hnd IH]; simpl; constructor.
  - intros Hin. apply in_map_iff in Hin. destruct Hin as (y & E & Hy).
    apply Hinj in E; simpl; auto. subst y. auto.
  - apply IH. eapply inj_on_incl; [|exact Hinj]. intros y Hy. now right.
Qed.

(** Writing the entries of a dictionary of counts under renamed keys, one
    after the other, counts the renamed stream. *)
Lemma fold_set_rekeyed (g : K -> K) (ks : list K) :
  inj_on g ks ->
  fold_left (fun v e => set v (g (fst e)) (snd e)) (count_all [] ks) []
  = count_all [] (List.map g ks).
Proof.
  intros Hinj. rewrite count_all_rekeyed by assumption.
  rewrite (fold_set_fresh (fun e => g (fst e)) snd).
  - reflexivity.
  - rewrite <- (map_map fst g). apply NoDup_map_inj_on.
    + eapply inj_on_incl; [|exact Hinj]. intros x Hx.
      change (List.map fst (count_all [] ks)) with (keys (count_all [] ks)) in Hx.
      rewrite keys_count_all, In_distinct in Hx. exact Hx.
    + apply NoDup_keys_count_all.
  - simpl. auto.
Qed.

End Rekey.


(** *** The training vocabulary counts the entries of the corpus *)

Section InitialVocab.
Import BPE.

Lemma raw_vocab_fold (pm : dict str str) (words : list str) (d : dict str Z) :
  fold_left (raw_vocab_step pm) words d = count_all d (List.map (raw_key pm) words).
Proof.
  revert d. induction words as [|w words IH]; intros d; [reflexivity|].
  simpl. rewrite IH. unfold count_all. simpl. f_equal.
  unfold raw_vocab_step, raw_key. now destruct (mem pm w).
Qed.

Lemma restore_fold (pm : dict str str) (raw v : dict str Z) :
  fold_left (restore_step pm) raw v
  = fold_left (fun v e => set v (restored pm (fst e)) (snd e)) raw v.
Proof.
  revert v. induction raw as [|e raw IH]; intros v; [reflexivity|].
  simpl. rewrite IH. f_equal.
  unfold restore_step, restored. now destruct (get pm (fst e)).
Qed.

Section Protected.
Variable pm : dict str str.
Hypothesis Hfree : forall k t, get pm k = Some t -> ~ In 32%N k /\ ~ In 32%N t.
Hypothesis Hinj : forall k k' t, get pm k = Some t -> get pm k' = Some t -> k = k'.

Lemma word_key_space (w : str) :
  In 32%N (join SPACE (chars w) ++ SPACE ++ END_OF_WORD).
Proof. apply in_app_iff. right. now left. Qed.

Lemma restored_raw_key (w : str) :
  restored pm (raw_key pm w) = entry_key (classify_by pm w).
Proof.
  unfold raw_key, mem, classify_by.
  destruct (get pm w) as [t|] eqn:E.
  - unfold restored. now rewrite E.
  - unfold restored.
    destruct (get pm (join SPACE (chars w) ++ SPACE ++ END_OF_WORD)) as [t|] eqn:E'.
    + exfalso. apply Hfree in E'. apply (proj1 E'), word_key_space.
    + reflexivity.
Qed.

Lemma get_raw_key (w : str) :
  get pm (raw_key pm w)
  = match get pm w with Some t => Some t | None => None end.
Proof.
  unfold raw_key, mem.
  destruct (get pm w) as [t|] eqn:E; [exact E|].
  destruct (get pm (join SPACE (chars w) ++ SPACE ++ END_OF_WORD)) as [t|] eqn:E'.
  - exfalso. apply Hfree in E'. apply (proj1 E'), word_key_space.
  - reflexivity.
Qed.

Lemma restored_inj (words : list str) :
  inj_on (restored pm) (List.map (raw_key pm) words).
Proof.
  intros x y Hx Hy.
  apply in_map_iff in Hx. destruct Hx as (w & <- & _).
  apply in_map_iff in Hy. destruct Hy as (w' & <- & _).
  unfold restored. rewrite !get_raw_key.
  unfold raw_key, mem.
  destruct (get pm w) as [t|] eqn:E; destruct (get pm w') as [t'|] eqn:E'.
  - intros <-. eapply Hinj; eauto.
  - intros ->. exfalso. apply Hfree in E. apply (proj2 E), word_key_space.
  - intros <-. exfalso. apply Hfree in E'. apply (proj2 E'), word_key_space.
  - auto.
Qed.

Lemma vocab_of_words (words : list str) :
  fold_left (restore_step pm) (fold_left (raw_vocab_step pm) words []) []
  = count_all [] (List.map entry_key (List.map (classify_by pm) words)).
Proof.
  rewrite raw_vocab_fold, restore_fold.
  rewrite fold_set_rekeyed by apply restored_inj.
  f_equal. rewrite !map_map. apply map_ext. intros w. apply restored_raw_key.
Qed.

End Protected.

Lemma protect_three (a b c corpus : str) :
  protect 0 [a; b; c] [] corpus
  = (protected a b c,
     replace c (SPACE ++ placeholder 2 ++ SPACE)
       (replace b (SPACE ++ placeholder 1 ++ SPACE)
          (replace a (SPACE ++ placeholder 0 ++ SPACE) corpus))).
Proof. reflexivity. Qed.

Lemma get_protected (a b c k t : str) :
  get (protected a b c) k = Some t ->
  (k = placeholder 0 /\ t = a) \/ (k = placeholder 1 /\ t = b)
  \/ (k = placeholder 2 /\ t = c).
Proof.
  unfold protected. cbn [get].
  destruct (eqb_spec (placeholder 0) k) as [<-|_]; [intros [= <-]; auto|].
  destruct (eqb_spec (placeholder 1) k) as [<-|_]; [intros [= <-]; auto|].
  destruct (eqb_spec (placeholder 2) k) as [<-|_]; [intros [= <-]; auto|].
  discriminate.
Qed.

Lemma get_protected_None (a b c w : str) :
  existsb (eqb w) placeholders = false -> get (protected a b c) w = None.
Proof.
  unfold placeholders, protected. cbn [existsb get].
  destruct (eqb_spec w (placeholder 0)) as [->|H0]; [discriminate|].
  destruct (eqb_spec w (placeholder 1)) as [->|H1]; [discriminate|].
  destruct (eqb_spec w (placeholder 2)) as [->|H2]; [discriminate|].
  intros _.
  rewrite (eqb_neq (x := placeholder 0) (y := w)) by congruence.
  rewrite (eqb_neq (x := placeholder 1) (y := w)) by congruence.
  now rewrite (eqb_neq (x := placeholder 2) (y := w)) by congruence.
Qed.

Lemma special_no_space (t : str) : In t special_tokens -> ~ In 32%N t.
Proof.
  simpl. intros [<-|[<-|[<-|[]]]]; simpl; intros H;
    repeat (destruct H as [H|H]; [discriminate|]); exact H.
Qed.

Lemma placeholder_plain (i : nat) :
  (i < 3)%nat ->
  placeholder i <> []
  /\ Forall (fun ch => isspace ch = false /\ ch <> 60%N) (placeholder i).
Proof.
  intros Hi.
  destruct i as [|[|[|i]]]; [| | |lia];
    (split; [discriminate|]); repeat constructor; discriminate.
Qed.

Lemma placeholder_no_space (i : nat) : (i < 3)%nat -> ~ In 32%N (placeholder i).
Proof.
  intros Hi Hin. destruct (placeholder_plain Hi) as [_ HF].
  rewrite Forall_forall in HF. apply HF in Hin. now destruct Hin.
Qed.

(** The training vocabulary counts the entries of the corpus, whichever
    way the set of control tokens is enumerated. *)
Lemma initial_vocab_entries (a b c corpus : str) :
  Permutation [a; b; c] special_tokens ->
  placeholder_free corpus = true ->
  initial_vocab [a; b; c] corpus
  = count_all [] (List.map entry_key (entries corpus)).
Proof.
  intros HP Hfree.
  assert (Ha : In a special_tokens) by (eapply Permutation_in; [exact HP|simpl; auto]).
  assert (Hb : In b special_tokens) by (eapply Permutation_in; [exact HP|simpl; auto]).
  assert (Hc : In c special_tokens) by (eapply Permutation_in; [exact HP|simpl; auto]).
  assert (Hnd : NoDup [a; b; c]).
  { eapply Permutation_NoDup; [symmetry; exact HP|].
    repeat constructor; simpl; intuition discriminate. }
  assert (Hab : a <> b /\ a <> c /\ b <> c).
  { inversion Hnd as [|? ? Hna Hnd']; subst.
    inversion Hnd' as [|? ? Hnb _]; subst.
    simpl in Hna, Hnb. repeat split; intros ->; tauto. }
  destruct Hab as (Hab & Hac & Hbc).
  unfold initial_vocab. rewrite protect_three.
  rewrite vocab_of_words.
  - f_equal. f_equal. unfold split. rewrite <- scan_no_tokens.
    destruct (special_shaped Hc) as (c' & -> & Hc').
    destruct (special_shaped Hb) as (b' & -> & Hb').
    destruct (special_shaped Ha) as (a' & -> & Ha').
    destruct (@placeholder_plain 0) as [N0 P0]; [lia|].
    destruct (@placeholder_plain 1) as [N1 P1]; [lia|].
    destruct (@placeholder_plain 2) as [N2 P2]; [lia|].
    erewrite scan_replace; [| | |exact N2|exact P2| |reflexivity];
      [|now apply special_shaped|constructor|reflexivity].
    erewrite scan_replace; [| | |exact N1|exact P1| |reflexivity];
      [|now apply special_shaped
       |repeat constructor; now apply special_shaped|reflexivity].
    erewrite scan_replace; [| | |exact N0|exact P0| |reflexivity];
      [|now apply special_shaped
       |repeat constructor; now apply special_shaped|reflexivity].
    rewrite (@scan_same_set _ _ special_tokens).
    + rewrite scan_reclass. fold (entries corpus).
      unfold placeholder_free in Hfree. rewrite forallb_forall in Hfree.
      rewrite <- (map_id (entries corpus)) at 2.
      apply map_ext_in. intros [t|w] Hin; [reflexivity|].
      apply Hfree in Hin. apply negb_true_iff in Hin.
      cbn [reclass]. unfold classify_by.
      now rewrite get_protected_None.
    + repeat constructor; now apply special_shaped.
    + rewrite Forall_forall. intros t Ht. now apply special_shaped.
    + intros t. split; intros Ht.
      * eapply Permutation_in; [exact HP|exact Ht].
      * eapply Permutation_in; [symmetry; exact HP|exact Ht].
  - intros k t Hg. apply get_protected in Hg.
    destruct Hg as [[-> ->]|[[-> ->]|[-> ->]]]; split;
      try (apply placeholder_no_space; lia); now apply special_no_space.
  - intros k k' t Hg Hg'. apply get_protected in Hg, Hg'.
    destruct Hg as [[-> ->]|[[-> ->]|[-> ->]]];
      destruct Hg' as [[-> E]|[[-> E]|[-> E]]]; congruence.
Qed.

Lemma permutation_of_three (order : list str) :
  Permutation order special_tokens ->
  exists a b c, order = [a; b; c].
Proof.
  intros HP. apply Permutation_length in HP.
  destruct order as [|a [|b [|c [|d order]]]]; try discriminate.
  now exists a, b, c.
Qed.

(** Training does not depend on the order in which the set of control
    tokens is enumerated, as long as no word of the corpus is itself one
    of the placeholder strings. *)
Lemma train_order_independent (order1 order2 : list str) (corpus : str)
    (target : Z) :
  Permutation order1 special_tokens ->
  Permutation order2 special_tokens ->
  placeholder_free corpus = true ->
  train order1 corpus target = train order2 corpus target.
Proof.
  intros H1 H2 Hfree.
  destruct (permutation_of_three H1) as (a1 & b1 & c1 & ->).
  destruct (permutation_of_three H2) as (a2 & b2 & c2 & ->).
  unfold train, train_loop.
  now rewrite !initial_vocab_entries by assumption.
Qed.

End InitialVocab.

(** The condition on the corpus cannot be dropped: a corpus with the word
    [SPECIAL0PLACEHOLDER] is read as the control token that happens to be
    enumerated first. *)
Lemma placeholder_word_order_sensitive :
  BPE.merges (BPE.train [lit "<EOS>"; lit "<EOP>"; lit "<EOT>"]
                        (lit "SPECIAL0PLACEHOLDER <EOS> ab ab ab") 5)
  <> BPE.merges (BPE.train [lit "<EOP>"; lit "<EOS>"; lit "<EOT>"]
                           (lit "SPECIAL0PLACEHOLDER <EOS> ab ab ab") 5).
Proof. vm_compute. discriminate. Qed.

(** ** C7: training is reproducible *)



(* ================================================================== *)
(** * Further properties of the codec *)
(* ================================================================== *)

(** ** The index built by [_build_index] *)

Section IndexRange.
Import BPE.

Lemma length_sorted (l : list str) : length (sorted l) = length l.
Proof. symmetry. apply Permutation_length, sorted_perm. Qed.

Lemma token2id_range (vocab : list str) (t : str) (i : Z) :
  NoDup vocab ->
  get (build_token2id vocab) t = Some i ->
  (0 <= i < Z.of_nat (length vocab))%Z /\ In t vocab.
Proof.
  intros Hnd Hg. apply get_token2id in Hg; [|assumption].
  destruct Hg as [Hi Hn]. split.
  - assert (Hlt : (Z.to_nat i < length (sorted vocab))%nat).
    { apply nth_error_Some. congruence. }
    rewrite length_sorted in Hlt. lia.
  - apply nth_error_In in Hn.
    eapply Permutation_in; [symmetry; apply sorted_perm | exact Hn].
Qed.

Lemma id2token_defined (vocab : list str) (i : Z) :
  NoDup vocab -> (0 <= i < Z.of_nat (length vocab))%Z ->
  exists t, get (build_id2token (build_token2id vocab)) i = Some t.
Proof.
  intros Hnd Hi.
  destruct (nth_error (sorted vocab) (Z.to_nat i)) as [t|] eqn:E.
  - exists t. apply get_id2token; [assumption|].
    apply get_token2id; [assumption|]. split; [lia | exact E].
  - apply nth_error_None in E. rewrite length_sorted in E. lia.
Qed.

(** The id looked up by [encode], with its fallback [0], is an id of the
    index as soon as the vocabulary is not empty. *)
Lemma lookup_in_range (vocab : list str) (x : str) :
  NoDup vocab -> vocab <> [] ->
  (0 <= get_or (build_token2id vocab) x 0 < Z.of_nat (length vocab))%Z.
Proof.
  intros Hnd Hne. unfold get_or.
  destruct (get (build_token2id vocab) x) as [i|] eqn:E.
  - now apply token2id_range in E.
  - destruct vocab; [congruence | simpl; lia].
Qed.

End IndexRange.

(** X1.  [_build_index] numbers a vocabulary without repetition by the
    ranks [0 .. len(vocab) - 1]: [id2token] is the inverse of [token2id],
    the tokens that have an id are exactly those of the vocabulary, and
    the ids in use are exactly the integers from [0] below the size of
    the vocabulary. *)
Theorem build_index_bijection (vocab : list str) :
  NoDup vocab ->
  let t2i := BPE.build_token2id vocab in
  let i2t := BPE.build_id2token t2i in
  (forall t i, get t2i t = Some i <-> get i2t i = Some t)
  /\ (forall t, In t vocab <-> exists i, get t2i t = Some i)
  /\ (forall i, (0 <= i < Z.of_nat (length vocab))%Z
                <-> exists t, get i2t i = Some t).
Proof.
  intros Hnd t2i i2t. split; [|split].
  - intros t i. symmetry. now apply get_id2token.
  - intros t. split.
    + now apply token2id_defined.
    + intros [i Hi]. now apply token2id_range in Hi.
  - intros i. split.
    + now apply id2token_defined.
    + intros [t Ht]. apply get_id2token in Ht; [|assumption].
      now apply token2id_range in Ht.
Qed.

Lemma build_index_bijection_witness :
  get (BPE.build_id2token (BPE.build_token2id [lit "b"; lit "a"])) 0%Z
  = Some (lit "a").
Proof.
  assert (Hnd : NoDup [lit "b"; lit "a"]).
  { repeat constructor; simpl; intuition discriminate. }
  apply (proj1 (build_index_bijection Hnd)). reflexivity.
Defined.

(** X2.  A trained codec encodes every text, and every id it emits is an
    id of the index: it lies between [0] and the size of the vocabulary
    and [id2token] maps it to a token.  This includes the fallback id [0]
    that stands for a symbol missing from the vocabulary. *)
Theorem encode_ids_in_range
    (order : list str) (corpus : str) (target : Z) (text : str) :
  let tk := BPE.train order corpus target in
  exists ids,
    BPE.encode tk text = Ok ids
    /\ Forall (fun i => (0 <= i < Z.of_nat (length (BPE.vocab tk)))%Z
                        /\ exists t, get (BPE.id2token tk) i = Some t) ids.
Proof.
  intros tk. eexists. split; [apply encode_trained|].
  pose proof (NoDup_train_vocab order corpus target) as Hnd.
  assert (Hne : BPE.vocab tk <> []).
  { intros E.
    pose proof (special_in_train_vocab order corpus target
                  (c := lit "<EOS>")) as Hin.
    fold tk in Hin. rewrite E in Hin. apply Hin. simpl. auto. }
  assert (Hid : forall x,
             (0 <= get_or (BPE.token2id tk) x 0
              < Z.of_nat (length (BPE.vocab tk)))%Z
             /\ exists t, get (BPE.id2token tk)
                              (get_or (BPE.token2id tk) x 0%Z) = Some t).
  { intros x. pose proof (lookup_in_range x Hnd Hne) as Hr.
    split; [exact Hr|]. now apply id2token_defined. }
  apply Forall_forall. intros i Hi.
  apply in_flat_map in Hi. destruct Hi as (part & _ & Hi).
  unfold BPE.encode_part in Hi. destruct part as [|c part]; [destruct Hi|].
  destruct (BPE.is_special (c :: part)).
  - destruct Hi as [<-|[]]. apply Hid.
  - apply in_flat_map in Hi. destruct Hi as (word & _ & Hi).
    apply in_map_iff in Hi. destruct Hi as (tok & <- & _). apply Hid.
Qed.

(** ** Saving and loading a codec *)

Section CodecPersistence.
Import BPE.

Lemma distinct_NoDup {K} `{Eqb K} (l : list K) : NoDup l -> distinct l = l.
Proof.
  induction l as [|x l IH] using rev_ind; intros Hnd; [reflexivity|].
  rewrite distinct_snoc.
  assert (Hnd' : NoDup l /\ ~ In x l).
  { apply NoDup_remove in Hnd. rewrite app_nil_r in Hnd. exact Hnd. }
  destruct Hnd' as [Hl Hx]. rewrite IH by assumption.
  now rewrite (proj2 (existsb_eqb_false x l) Hx).
Qed.

(** Encoding and decoding read the merge rules and the two dictionaries
    only. *)
Lemma encode_same_index (tk tk' : BPETokenizer) (text : str) :
  merges tk' = merges tk -> token2id tk' = token2id tk ->
  encode tk' text = encode tk text.
Proof.
  intros Em Et. unfold encode, encode_part. now rewrite Em, Et.
Qed.

Lemma decode_same_index (tk tk' : BPETokenizer) (ids : list Z) :
  id2token tk' = id2token tk -> decode tk' ids = decode tk ids.
Proof. intros Ei. unfold decode. now rewrite Ei. Qed.

End CodecPersistence.

(** X3.  The file written by [save] restores the codec: whatever the
    order in which the vocabulary set was listed in the file, [load]
    rebuilds the same merge rules and the same two dictionaries as the
    trained codec had, so the restored codec encodes and decodes exactly
    like the trained one. *)
Theorem codec_save_load
    (order : list str) (corpus : str) (target : Z) (listing : list str) :
  let tk := BPE.train order corpus target in
  Permutation listing (BPE.vocab tk) ->
  let tk' := BPE.load {| BPE.st_vocab := listing;
                         BPE.st_merges := BPE.st_merges (BPE.save tk) |} in
  BPE.merges tk' = BPE.merges tk
  /\ BPE.token2id tk' = BPE.token2id tk
  /\ BPE.id2token tk' = BPE.id2token tk
  /\ (forall text, BPE.encode tk' text = BPE.encode tk text)
  /\ (forall ids, BPE.decode tk' ids = BPE.decode tk ids).
Proof.
  intros tk Hp tk'.
  assert (Hnd : NoDup listing).
  { eapply Permutation_NoDup; [symmetry; exact Hp|].
    apply NoDup_train_vocab. }
  assert (Et : BPE.token2id tk' = BPE.token2id tk).
  { change (BPE.token2id tk')
      with (BPE.build_token2id (distinct listing)).
    change (BPE.token2id tk) with (BPE.build_token2id (BPE.vocab tk)).
    rewrite (distinct_NoDup Hnd). unfold BPE.build_token2id.
    now rewrite (sorted_permutation_invariant Hp). }
  assert (Ei : BPE.id2token tk' = BPE.id2token tk).
  { change (BPE.id2token tk') with (BPE.build_id2token (BPE.token2id tk')).
    rewrite Et. reflexivity. }
  split; [reflexivity|]. split; [exact Et|]. split; [exact Ei|]. split.
  - intros text. now apply encode_same_index.
  - intros ids. now apply decode_same_index.
Qed.

Lemma codec_save_load_witness :
  BPE.token2id (BPE.load (BPE.save (BPE.train BPE.special_tokens
                                              (lit "ab ab <EOS>") 5)))
  = BPE.token2id (BPE.train BPE.special_tokens (lit "ab ab <EOS>") 5).
Proof.
  exact (proj1 (proj2 (@codec_save_load BPE.special_tokens
                         (lit "ab ab <EOS>") 5 _ (Permutation_refl _)))).
Defined.

(** ** The size of the trained vocabulary *)

Section VocabularySize.
Import BPE.

Lemma length_add {K} `{Eqb K} (s : list K) (x : K) :
  (length s <= length (add s x) <= length s + 1)%nat.
Proof.
  unfold add. destruct (existsb (eqb x) s); [lia|].
  rewrite length_app. simpl. lia.
Qed.

Lemma length_union {K} `{Eqb K} (a b : list K) :
  (length a <= length (union a b) <= length a + length b)%nat.
Proof.
  unfold union. revert a. induction b as [|x b IH]; intros a; simpl; [lia|].
  destruct (existsb (eqb x) a).
  - specialize (IH a). lia.
  - specialize (IH (a ++ [x])). rewrite length_app in IH. simpl in IH. lia.
Qed.

(** Every turn of the loop adds one rule and at most one token. *)
Lemma merge_loop_unique_length (n : nat) (st : loop_state) :
  (length (ls_unique st) <= length (ls_unique (merge_loop n st)))%nat
  /\ (length (ls_unique (merge_loop n st)) + length (ls_merges st)
      <= length (ls_unique st) + length (ls_merges (merge_loop n st)))%nat.
Proof.
  revert st; induction n as [|n IH]; intros st; simpl; [lia|].
  destruct (mergeable (ls_vocab st)) as [|p rest]; [lia|].
  match goal with |- context [merge_loop n ?s] => specialize (IH s) end.
  simpl in IH. rewrite length_app in IH. simpl in IH.
  pose proof (length_add (ls_unique st)
                (fst (max_by_value p rest) ++ snd (max_by_value p rest))).
  lia.
Qed.

End VocabularySize.

(** X4.  The vocabulary of a trained codec holds the three control
    tokens and every token of the initial inventory; it has at most one
    token more per merge rule, so its size is at most
    [max(target_vocab_size, len(inventory)) + 3]. *)
Theorem vocabulary_size_bounds (order : list str) (corpus : str) (target : Z) :
  let inventory := BPE.initial_tokens (BPE.initial_vocab order corpus) in
  let tk := BPE.train order corpus target in
  (forall c, In c BPE.special_tokens -> In c (BPE.vocab tk))
  /\ (forall t, In t inventory -> In t (BPE.vocab tk))
  /\ (3 <= length (BPE.vocab tk))%nat
  /\ (length inventory <= length (BPE.vocab tk))%nat
  /\ (length (BPE.vocab tk)
      <= length inventory + length (BPE.merges tk) + 3)%nat
  /\ (Z.of_nat (length (BPE.vocab tk))
      <= Z.max target (Z.of_nat (length inventory)) + 3)%Z.
Proof.
  intros inventory tk.
  set (st0 := {| BPE.ls_vocab := BPE.initial_vocab order corpus;
                 BPE.ls_unique := inventory; BPE.ls_merges := [] |}).
  set (n := Z.to_nat (BPE.num_merges target inventory)).
  assert (Est : BPE.train_loop order corpus target = BPE.merge_loop n st0)
    by reflexivity.
  pose proof (merge_loop_unique_length n st0) as [Hlow Hup].
  pose proof (merge_loop_count n st0) as [Hcount _].
  pose proof (length_union (BPE.ls_unique (BPE.merge_loop n st0))
                BPE.special_tokens) as [Hu1 Hu2].
  change (union _ BPE.special_tokens) with (BPE.vocab tk) in Hu1, Hu2.
  change (BPE.ls_merges (BPE.merge_loop n st0)) with (BPE.merges tk)
    in Hup, Hcount.
  change (length (BPE.ls_unique st0)) with (length inventory) in Hlow, Hup.
  change (length (BPE.ls_merges st0)) with 0%nat in Hup, Hcount.
  change (length BPE.special_tokens) with 3%nat in Hu2.
  assert (Hspecial : forall c, In c BPE.special_tokens -> In c (BPE.vocab tk)).
  { intros c Hc. now apply special_in_train_vocab. }
  split; [exact Hspecial|]. split; [|split; [|split; [|split]]].
  - intros t Ht. unfold tk. rewrite train_vocab. apply In_union. left.
    rewrite Est. now apply merge_loop_incl.
  - assert (Hincl : incl BPE.special_tokens (BPE.vocab tk))
      by (intros c Hc; now apply Hspecial).
    apply NoDup_incl_length in Hincl; [exact Hincl|].
    repeat constructor; simpl; intuition discriminate.
  - lia.
  - lia.
  - unfold n, BPE.num_merges in Hcount. lia.
Qed.

(** ** Encoding reads control tokens and words *)

Section EncodeEntries.
Import BPE.
Variable tk : BPETokenizer.

Lemma encode_part_plain (p : str) :
  is_special p = false ->
  encode_part tk p = flat_map (word_ids tk) (split p).
Proof.
  intros Hs. unfold encode_part. destruct p as [|c p]; [reflexivity|].
  now rewrite Hs.
Qed.

Lemma special_matches (p s : str) :
  is_special p = true -> match_special (p ++ s) <> None.
Proof.
  intros Hs E. unfold is_special in Hs. apply existsb_exists in Hs.
  destruct Hs as (t & Ht & Hpt). apply eqb_eq in Hpt. subst t.
  unfold match_special in E.
  eapply find_none in E; [|exact Ht]. simpl in E.
  now rewrite starts_with_self_app in E.
Qed.

Lemma flush_ids (acc : str) :
  flat_map (entry_ids tk) (flush Ord acc)
  = flat_map (word_ids tk) (split_acc acc []).
Proof. destruct acc; reflexivity. Qed.

(** The piece collected by [re.split] and the words collected by the scan
    hold the same characters: [W] are the words of the piece that are
    complete, [acc] is its last, unfinished word. *)
Lemma encode_scan (s : str) :
  forall k cur acc W,
    (k = 0%nat \/ (cur = [] /\ acc = [] /\ W = [])) ->
    (forall r, split_acc [] (rev cur ++ r) = W ++ split_acc acc r) ->
    (cur <> [] -> match_special (rev cur ++ s) = None) ->
    flat_map (encode_part tk) (re_split_acc k cur s)
    = flat_map (word_ids tk) W
      ++ flat_map (entry_ids tk) (scan Ord special_tokens k acc s).
Proof.
  induction s as [|c s IH]; intros k cur acc W Hk HR HJ.
  - cbn [re_split_acc scan flat_map]. rewrite app_nil_r, flush_ids.
    rewrite <- flat_map_app, <- HR, app_nil_r.
    apply encode_part_plain.
    destruct (is_special (rev cur)) eqn:Es; [|reflexivity].
    exfalso. destruct cur as [|x cur]; [discriminate|].
    apply (special_matches _ [] Es). apply HJ. discriminate.
  - destruct k as [|k].
    + cbn [re_split_acc scan].
      change (match_tokens special_tokens (c :: s)) with (match_special (c :: s)).
      destruct (match_special (c :: s)) as [tok|] eqn:Em.
      * cbn [flat_map]. rewrite flat_map_app. cbn [flat_map entry_ids].
        assert (Hp : encode_part tk (rev cur)
                     = flat_map (word_ids tk) W
                       ++ flat_map (entry_ids tk) (flush Ord acc)).
        { rewrite flush_ids, <- flat_map_app.
          specialize (HR []). rewrite app_nil_r in HR. rewrite <- HR.
          apply encode_part_plain.
          destruct (is_special (rev cur)) eqn:Es; [|reflexivity].
          exfalso. destruct cur as [|x cur]; [discriminate|].
          apply (special_matches _ (c :: s) Es). apply HJ. discriminate. }
        rewrite Hp, <- app_assoc. f_equal. f_equal.
        apply match_special_Some in Em. destruct Em as [Hin _].
        rewrite (encode_part_special tk Hin). cbn [app]. f_equal.
        rewrite (IH (length tok - 1)%nat [] [] []); auto; congruence.
      * destruct (isspace c) eqn:Ec.
        -- rewrite (IH 0%nat (c :: cur) [] (W ++ split_acc acc [])); auto.
           ++ rewrite flat_map_app, !flat_map_app, flush_ids.
              now rewrite app_assoc.
           ++ intros r. cbn [rev]. rewrite <- app_assoc. cbn [app].
              rewrite HR. cbn [split_acc]. rewrite Ec.
              rewrite <- app_assoc. f_equal. now destruct acc.
           ++ intros _. cbn [rev]. rewrite <- app_assoc. cbn [app].
              destruct cur as [|x cur]; [exact Em|].
              apply HJ. discriminate.
        -- rewrite (IH 0%nat (c :: cur) (c :: acc) W); auto.
           ++ intros r. cbn [rev]. rewrite <- app_assoc. cbn [app].
              rewrite HR. cbn [split_acc]. now rewrite Ec.
           ++ intros _. cbn [rev]. rewrite <- app_assoc. cbn [app].
              destruct cur as [|x cur]; [exact Em|].
              apply HJ. discriminate.
    + destruct Hk as [Hk|(-> & -> & ->)]; [discriminate|].
      cbn [re_split_acc scan]. apply IH; auto. congruence.
Qed.

(** [encode] reads the text as the sequence of its control tokens and of
    the words between them. *)
Lemma encode_entries (text : str) :
  flat_map (encode_part tk) (re_split text)
  = flat_map (entry_ids tk) (entries text).
Proof.
  unfold re_split, entries.
  rewrite (encode_scan text (k := 0) (cur := []) (acc := []) (W := []));
    auto; congruence.
Qed.

End EncodeEntries.

Section EntriesSpace.
Import BPE.

Lemma starts_with_before_space (tok s r : str) (sp : char) :
  Forall (fun ch => isspace ch = false) tok -> isspace sp = true ->
  starts_with tok (s ++ sp :: r) = starts_with tok s.
Proof.
  intros Htok Hsp. revert s.
  induction Htok as [|a tok Ha _ IH]; intros s; [reflexivity|].
  destruct s as [|b s]; cbn [app starts_with].
  - rewrite (eqb_neq (x := a) (y := sp)); [reflexivity | congruence].
  - now rewrite IH.
Qed.

Lemma special_no_whitespace (tok : str) :
  In tok special_tokens -> Forall (fun ch => isspace ch = false) tok.
Proof.
  simpl. intros [<-|[<-|[<-|[]]]]; repeat constructor.
Qed.

Lemma match_special_before_space (s r : str) (sp : char) :
  isspace sp = true -> match_special (s ++ sp :: r) = match_special s.
Proof.
  intros Hsp. unfold match_special.
  assert (H : forall T, Forall (fun t => In t special_tokens) T ->
            find (fun tok => starts_with tok (s ++ sp :: r)) T
            = find (fun tok => starts_with tok s) T).
  { induction 1 as [|t T Ht _ IH]; [reflexivity|]. cbn [find].
    rewrite starts_with_before_space, IH;
      auto using special_no_whitespace. }
  apply H. apply Forall_forall. auto.
Qed.

Lemma scan_app_space (classify : str -> entry) (t1 t2 : str) (sp : char) :
  isspace sp = true ->
  forall k acc, (k <= length t1)%nat ->
    scan classify special_tokens k acc (t1 ++ sp :: t2)
    = scan classify special_tokens k acc t1
      ++ scan classify special_tokens 0 [] t2.
Proof.
  intros Hsp. induction t1 as [|c t1 IH]; intros k acc Hk.
  - assert (k = 0)%nat by (simpl in Hk; lia). subst k.
    cbn [app scan].
    rewrite match_tokens_head.
    + now rewrite Hsp.
    + apply Forall_forall. intros t Ht. now apply special_shaped.
    + intros ->. discriminate.
  - cbn [app scan]. destruct k as [|k].
    + change (match_tokens special_tokens (c :: t1 ++ sp :: t2))
        with (match_special ((c :: t1) ++ sp :: t2)).
      rewrite match_special_before_space by assumption.
      change (match_special (c :: t1))
        with (match_tokens special_tokens (c :: t1)).
      destruct (match_tokens special_tokens (c :: t1)) as [tok|] eqn:Em.
      * apply match_tokens_Some in Em. destruct Em as [_ Hst].
        apply starts_with_length in Hst. simpl in Hst.
        rewrite IH by lia. now rewrite <- app_assoc.
      * destruct (isspace c).
        -- rewrite IH by lia. now rewrite <- app_assoc.
        -- apply IH. lia.
    + apply IH. simpl in Hk. lia.
Qed.

(** The entries of two texts joined by a white-space character *)
Lemma entries_app_space (t1 t2 : str) (sp : char) :
  isspace sp = true ->
  entries (t1 ++ sp :: t2) = entries t1 ++ entries t2.
Proof.
  intros Hsp. unfold entries. apply scan_app_space; [assumption | lia].
Qed.

End EntriesSpace.

(** X5.  Encoding is compositional over white space: for a trained codec
    and two texts joined by a white-space character, the ids are the
    ids of the first text followed by the ids of the second.  White space
    itself has no id. *)
Theorem encode_across_space
    (order : list str) (corpus : str) (target : Z) (t1 t2 : str) (sp : char) :
  isspace sp = true ->
  let tk := BPE.train order corpus target in
  exists ids1 ids2,
    BPE.encode tk t1 = Ok ids1
    /\ BPE.encode tk t2 = Ok ids2
    /\ BPE.encode tk (t1 ++ sp :: t2) = Ok (ids1 ++ ids2)
    /\ BPE.encode tk [sp] = Ok [].
Proof.
  intros Hsp tk. do 2 eexists.
  split; [apply encode_trained|]. split; [apply encode_trained|].
  unfold tk. rewrite !encode_trained, !encode_entries.
  rewrite (@entries_app_space t1 t2 sp Hsp), flat_map_app.
  split; [reflexivity|].
  change [sp] with ([] ++ sp :: @nil char).
  rewrite (@entries_app_space [] [] sp Hsp). reflexivity.
Qed.

Lemma encode_across_space_witness :
  exists ids1 ids2,
    BPE.encode abc_codec (lit "abc") = Ok ids1
    /\ BPE.encode abc_codec (lit "b") = Ok ids2
    /\ BPE.encode abc_codec (lit "abc b") = Ok (ids1 ++ ids2).
Proof.
  destruct (@encode_across_space BPE.special_tokens (lit "b b b b abc abc") 6
              (lit "abc") (lit "b") 32%N eq_refl)
    as (ids1 & ids2 & H1 & H2 & H12 & _).
  exists ids1, ids2. repeat split; assumption.
Defined.

(** ** The symbols of a word *)

(** X14.  [_tokenize_word] with the rules of a trained codec cuts a word
    into consecutive pieces: the symbols are non-empty chunks of the word,
    in order, the last symbol ends with the marker [</w>], and the
    symbols concatenate to the word followed by the marker.  A word of
    [n] characters has between 1 and [n + 1] symbols. *)
Theorem tokenize_word_lossless
    (order : list str) (corpus : str) (target : Z) (w : str) :
  let syms := BPE.tokenize_word (BPE.merges (BPE.train order corpus target)) w in
  concat syms = w ++ BPE.END_OF_WORD
  /\ (exists chunks body,
         syms = chunks ++ [body ++ BPE.END_OF_WORD]
         /\ concat chunks ++ body = w)
  /\ Forall (fun s => s <> []) syms
  /\ (1 <= length syms <= length w + 1)%nat.
Proof.
  intros syms.
  destruct (tokenize_word_syms w (trained_rules_ok order corpus target))
    as (chunks & body & E & Ew & Hne).
  fold syms in E.
  assert (Hlen : (length chunks <= length (concat chunks))%nat)
    by (now apply length_le_concat).
  rewrite E. split; [|split; [|split]].
  - rewrite concat_app. cbn [concat]. rewrite app_nil_r, app_assoc.
    now rewrite Ew.
  - eauto.
  - apply Forall_app. split; [exact Hne|].
    constructor; [|constructor].
    intros Hnil. apply app_eq_nil in Hnil. destruct Hnil. discriminate.
  - rewrite length_app. cbn [length]. rewrite <- Ew, length_app. lia.
Qed.

(** ** One round trip *)

(** X15.  One round trip [decode(encode(t))] of a trained codec, on a
    text without ['<'] whose characters and the marker are tokens of the
    vocabulary, keeps every character that is not white space, in order;
    it never joins two words, so the number of words does not decrease;
    and when it splits no word, the words are unchanged. *)
Theorem round_trip_keeps_characters
    (order : list str) (corpus : str) (target : Z) (t : str) :
  let tk := BPE.train order corpus target in
  clean_text tk t ->
  exists u,
    BPE.round_trip tk t = Ok u
    /\ concat (split u) = concat (split t)
    /\ (length (split t) <= length (split u))%nat
    /\ (length (split u) = length (split t) -> split u = split t).
Proof.
  intros tk Hclean.
  pose proof (trained_rules_ok order corpus target) as Hok.
  pose proof (clean_text_words Hclean) as Hws0.
  assert (Hws : Forall clean_word (split t)).
  { eapply Forall_impl; [|exact Hws0]. simpl. tauto. }
  destruct (step_facts Hok Hws) as (Ec & Hc & Hlen & Hfix).
  eexists. split; [apply round_trip_clean; exact Hclean|].
  destruct (join_words Hc) as [-> _]. auto.
Qed.

Lemma round_trip_keeps_characters_witness :
  exists u,
    BPE.round_trip abc_codec (lit "abc") = Ok u
    /\ concat (split u) = lit "abc".
Proof.
  assert (Hclean : clean_text abc_codec (lit "abc")).
  { split; [|split].
    - repeat constructor; discriminate.
    - vm_compute. tauto.
    - intros ch Hch _. simpl in Hch.
      destruct Hch as [<-|[<-|[<-|[]]]]; vm_compute; tauto. }
  destruct (@round_trip_keeps_characters BPE.special_tokens
              (lit "b b b b abc abc") 6 (lit "abc") Hclean)
    as (u & Hu & Ec & _).
  exists u. split; [exact Hu | exact Ec].
Defined.

(* ================================================================== *)
(** * Further properties of the trigram model *)
(* ================================================================== *)

(** ** Bounds on the interpolated probability *)

Section ProbabilityBounds.
Import Trigram.

Variables (l1 l2 l3 : Q) (corpus : str) (m : TrigramModel).
Hypothesis Htrained : trained l1 l2 l3 corpus m.

Let tokens := split corpus.

Lemma ratio_le_1 (a b : Z) : (0 < b)%Z -> (a <= b)%Z ->
  inject_Z a / inject_Z b <= 1.
Proof.
  intros Hb Hab. apply Qle_shift_div_r.
  - change 0 with (inject_Z 0). now rewrite <- Zlt_Qlt.
  - rewrite Qmult_1_l. now rewrite <- Zle_Qle.
Qed.

Lemma cond_term_le_1 {C} `{Eqb C} (c : C) (w : str) (ks : list (C * str)) :
  (occ (c, w) ks =? 0)%Z = false ->
  inject_Z (occ (c, w) ks) / inject_Z (Formula.occ_ctx c ks) <= 1.
Proof.
  intros E. apply Z.eqb_neq in E.
  pose proof (occ_nonneg (c, w) ks). pose proof (occ_le_occ_ctx c w ks).
  apply ratio_le_1; lia.
Qed.

Lemma P_uni_le_1 w3 : Formula.P_uni tokens w3 <= 1.
Proof.
  unfold Formula.P_uni.
  destruct (Z.eqb_spec (occ w3 tokens) 0) as [E|E].
  - destruct (trained_vocab_size Htrained) as [Ev Hv].
    fold tokens in Ev. rewrite <- Ev.
    change 1 with (inject_Z 1) at 1. apply ratio_le_1; lia.
  - apply ratio_le_1.
    + destruct (trained_unfold Htrained) as (Hlen & _).
      fold tokens in Hlen. lia.
    + unfold occ. apply inj_le. apply filter_length_le.
Qed.

Lemma P_bi_le_1 w2 w3 : Formula.P_bi tokens w2 w3 <= 1.
Proof.
  unfold Formula.P_bi, Formula.mle_bi.
  destruct (occ (w2, w3) (bigrams tokens) =? 0)%Z eqn:E.
  - apply P_uni_le_1.
  - now apply cond_term_le_1.
Qed.

Lemma P_tri_le_1 w1 w2 w3 : Formula.P_tri tokens w1 w2 w3 <= 1.
Proof.
  unfold Formula.P_tri.
  destruct (occ ([w1; w2], w3) (trigrams tokens) =? 0)%Z eqn:E.
  - lra.
  - now apply cond_term_le_1.
Qed.

Lemma weighted_le (l p : Q) : 0 <= l -> p <= 1 -> l * p <= l.
Proof.
  intros Hl Hp.
  assert (0 <= l * (1 - p)) by (apply Qmult_le_0_compat; lra).
  lra.
Qed.

Lemma interpolated_le_weights w1 w2 w3 :
  0 <= l1 -> 0 <= l2 -> 0 <= l3 ->
  interpolated_prob m w1 w2 w3 <= l1 + l2 + l3.
Proof.
  intros H1 H2 H3. rewrite (interpolated_prob_formula Htrained).
  unfold Formula.interpolated. fold tokens.
  pose proof (weighted_le H1 (P_uni_le_1 w3)).
  pose proof (weighted_le H2 (P_bi_le_1 w2 w3)).
  pose proof (weighted_le H3 (P_tri_le_1 w1 w2 w3)).
  lra.
Qed.

End ProbabilityBounds.

(** X6.  For a model trained with non-negative weights, the interpolated
    probability of every triple of tokens, seen in training or not, lies
    between [0] and the sum of the weights (which is [1] up to [1e-6]);
    it is strictly positive as soon as the unigram or the bigram weight
    is: smoothing leaves no triple with probability zero. *)
Theorem interpolated_prob_bounds
    (l1 l2 l3 : Q) (corpus : str) (m : Trigram.TrigramModel) (w1 w2 w3 : str) :
  Trigram.trained l1 l2 l3 corpus m ->
  0 <= l1 -> 0 <= l2 -> 0 <= l3 ->
  0 <= Trigram.interpolated_prob m w1 w2 w3
  /\ Trigram.interpolated_prob m w1 w2 w3 <= l1 + l2 + l3
  /\ Trigram.interpolated_prob m w1 w2 w3 < 1 + Trigram.tolerance
  /\ (0 < l1 + l2 -> 0 < Trigram.interpolated_prob m w1 w2 w3).
Proof.
  intros Ht H1 H2 H3.
  pose proof (interpolated_le_weights Ht w1 w2 w3 H1 H2 H3) as Hle.
  split; [now apply (interpolated_nonneg Ht)|].
  split; [exact Hle|]. split.
  - destruct (trained_unfold Ht) as (_ & Htol & _).
    apply Qabs_Qlt_condition in Htol. lra.
  - intros H12. now apply (interpolated_pos Ht).
Qed.

Lemma interpolated_prob_bounds_witness :
  0 < Trigram.interpolated_prob abc_model (lit "x") (lit "y") (lit "z")
  /\ Trigram.interpolated_prob abc_model (lit "x") (lit "y") (lit "z") <= 1.
Proof.
  destruct (@interpolated_prob_bounds
              Trigram.default_lambda1 Trigram.default_lambda2
              Trigram.default_lambda3 (lit "a b c") abc_model
              (lit "x") (lit "y") (lit "z") abc_model_trained)
    as (_ & Hle & _ & Hpos); try (vm_compute; discriminate).
  split.
  - apply Hpos. reflexivity.
  - eapply Qle_trans; [exact Hle|]. vm_compute. discriminate.
Defined.

(** ** Saving and loading a model *)

Section ModelPersistence.
Import Trigram.

Lemma split_tab_acc_plain (a acc r : str) :
  ~ In 9%N a ->
  split_tab_acc acc (a ++ r) = split_tab_acc (rev a ++ acc) r.
Proof.
  revert acc. induction a as [|ch a IH]; intros acc Ha; [reflexivity|].
  cbn [app split_tab_acc].
  rewrite (eqb_neq (x := ch) (y := 9%N)) by (intros ->; apply Ha; now left).
  rewrite IH by (intros Hin; apply Ha; now right).
  cbn [rev]. now rewrite <- app_assoc.
Qed.

Lemma split_tab_pair (a b : str) :
  ~ In 9%N a -> ~ In 9%N b -> split_tab (a ++ TAB ++ b) = [a; b].
Proof.
  intros Ha Hb. unfold split_tab, TAB.
  rewrite split_tab_acc_plain by assumption.
  cbn [app split_tab_acc]. rewrite eqb_refl.
  rewrite app_nil_r, rev_involutive. f_equal.
  rewrite <- (app_nil_r b) at 1.
  rewrite split_tab_acc_plain by assumption.
  cbn [split_tab_acc]. now rewrite app_nil_r, rev_involutive.
Qed.

Lemma split_tab_file_key (c : list str) :
  pair_ctx c -> split_tab (file_key c) = c.
Proof. intros (a & b & -> & Ha & Hb). now apply split_tab_pair. Qed.

Lemma ctx_key_file_key (c : list str) :
  pair_ctx c -> ctx_key c = Ok (file_key c).
Proof. now intros (a & b & -> & _). Qed.

Lemma file_key_inj (l : list (list str)) :
  Forall pair_ctx l -> NoDup l -> NoDup (List.map file_key l).
Proof.
  intros Hall Hnd. induction Hnd as [|c l Hc Hnd IH]; simpl; constructor.
  - intros Hin. apply in_map_iff in Hin. destruct Hin as (c' & E & Hc').
    apply Hc. inversion Hall as [|? ? Hpc Hl]; subst.
    rewrite Forall_forall in Hl.
    rewrite <- (split_tab_file_key Hpc), <- E.
    now rewrite (split_tab_file_key (Hl c' Hc')).
  - apply IH. now inversion Hall.
Qed.

(** The loop of [save] over the trigram table *)
Lemma save_fold (items : dict (list str) (dict str Q)) :
  forall d,
    Forall pair_ctx (keys items) ->
    fold_left (fun acc item =>
                 d <- acc ;; k <- ctx_key (fst item) ;;
                 Ok (set d k (snd item)))
              items (Ok d)
    = Ok (fold_left (fun d item => set d (file_key (fst item)) (snd item))
                    items d).
Proof.
  induction items as [|[c row] items IH]; intros d Hall; [reflexivity|].
  inversion Hall as [|? ? Hc Hrest]; subst.
  cbn [fold_left bind fst snd].
  rewrite (ctx_key_file_key Hc). cbn [bind]. now apply IH.
Qed.

Lemma save_well_keyed (m : TrigramModel) :
  well_keyed m ->
  save m
  = Ok {| st_lambda1 := lambda1 m; st_lambda2 := lambda2 m;
          st_lambda3 := lambda3 m;
          st_unigram_probs := unigram_probs m;
          st_bigram_probs := bigram_probs m;
          st_trigram_probs :=
            List.map (fun it => (file_key (fst it), snd it)) (trigram_probs m);
          st_vocab_size := vocab_size m;
          st_total_tokens := total_tokens m |}.
Proof.
  intros [Hnd Hp _]. unfold save.
  rewrite save_fold by assumption.
  rewrite (fold_set_fresh (fun it => file_key (fst it)) snd).
  - reflexivity.
  - rewrite <- (map_map fst file_key). now apply file_key_inj.
  - simpl. auto.
Qed.

Lemma fold_left_mapped {A B X} (f : A -> B -> A) (g : X -> B) (l : list X) :
  forall a, fold_left f (List.map g l) a = fold_left (fun a x => f a (g x)) l a.
Proof. induction l as [|x l IH]; intros a; simpl; auto. Qed.

Lemma load_trigram_probs (m m0 : TrigramModel) (st : State) :
  well_keyed m0 -> save m0 = Ok st ->
  trigram_probs (load m st) = trigram_probs m0.
Proof.
  intros Hwk Hsave. rewrite (save_well_keyed Hwk) in Hsave.
  injection Hsave as <-. destruct Hwk as [Hnd Hp _].
  cbn [load trigram_probs st_trigram_probs].
  rewrite fold_left_mapped. cbn [fst snd].
  assert (E : forall items d,
             Forall pair_ctx (keys items) ->
             fold_left (fun (d : dict (list str) (dict str Q)) it =>
                          set d (split_tab (file_key (fst it))) (snd it))
                       items d
             = fold_left (fun d it => set d (fst it) (snd it)) items d).
  { induction items as [|[c row] items IH]; intros d Hall; [reflexivity|].
    inversion Hall as [|? ? Hc Hrest]; subst. cbn [fold_left fst snd].
    rewrite (split_tab_file_key Hc). now apply IH. }
  rewrite E by assumption.
  rewrite (fold_set_fresh fst snd); auto.
  cbn [app]. rewrite <- (map_id (trigram_probs m0)) at 2.
  apply map_ext. now intros [c row].
Qed.

(** *** The tables of every reachable model are well keyed *)

Lemma In_trigrams (tokens : list str) (c : list str) (w : str) :
  In (c, w) (trigrams tokens) ->
  exists a b, c = [a; b] /\ In a tokens /\ In b tokens.
Proof.
  induction tokens as [|x tokens IH]; [intros []|].
  destruct tokens as [|y [|z tokens]]; [intros [] | intros [] |].
  cbn [trigrams]. intros [[= <- <-]|Hin].
  - exists x, y. simpl. auto.
  - apply IH in Hin. destruct Hin as (a & b & -> & Ha & Hb).
    exists a, b. simpl. auto.
Qed.

Lemma token_no_tab (corpus : str) (w : str) :
  In w (split corpus) -> ~ In 9%N w.
Proof.
  intros Hin Htab. pose proof (split_words corpus) as Hall.
  rewrite Forall_forall in Hall. destruct (Hall w Hin) as [[_ Hw] _].
  rewrite Forall_forall in Hw. apply Hw in Htab. discriminate.
Qed.

Lemma trigrams_pair_ctx (corpus : str) (k : list str * str) :
  In k (trigrams (split corpus)) -> pair_ctx (fst k).
Proof.
  destruct k as [c w]. intros Hin. apply In_trigrams in Hin.
  destruct Hin as (a & b & -> & Ha & Hb).
  exists a, b. split; [reflexivity|]. split; eapply token_no_tab; eauto.
Qed.

Lemma keys_count_all_incl {K} `{Eqb K} (ks : list K) (d : dict K Z) (k : K) :
  In k (keys (count_all d ks)) -> In k (keys d) \/ In k ks.
Proof.
  revert d. induction ks as [|x ks IH]; intros d; [now left|].
  unfold count_all. cbn [fold_left]. intros Hin.
  apply (IH (incr d x 1%Z)) in Hin. destruct Hin as [Hin|Hin].
  - unfold incr in Hin.
    destruct (get d x) as [v|] eqn:E.
    + rewrite keys_set_present in Hin by congruence. now left.
    + rewrite keys_set_absent in Hin by assumption.
      apply in_app_iff in Hin. destruct Hin as [Hin|[<-|[]]]; [now left|].
      right. now left.
  - right. now right.
Qed.

Lemma keys_set_incl {K V} `{Eqb K} (d : dict K V) (k k' : K) (v : V) :
  In k' (keys (set d k v)) -> k' = k \/ In k' (keys d).
Proof.
  destruct (get d k) as [v0|] eqn:E.
  - rewrite keys_set_present by congruence. now right.
  - rewrite keys_set_absent by assumption. intros Hin.
    apply in_app_iff in Hin. destruct Hin as [Hin|[<-|[]]]; auto.
Qed.

Lemma keys_cond_probs_incl {C} `{Eqb C} (items : dict (C * str) Z)
    (tot : dict C Z) (probs : dict C (dict str Q)) (c : C) :
  In c (keys (cond_probs items tot probs)) ->
  In c (keys probs) \/ In c (List.map fst (keys items)).
Proof.
  unfold cond_probs. revert probs.
  induction items as [|[[c0 w0] n0] items IH]; intros probs; [now left|].
  cbn [fold_left]. intros Hin. apply IH in Hin.
  destruct Hin as [Hin|Hin]; [|right; now right].
  unfold cond_step in Hin. apply keys_set_incl in Hin.
  destruct Hin as [->|Hin]; [right; now left|].
  destruct (mem probs c0); [now left|].
  apply keys_set_incl in Hin. destruct Hin as [->|Hin]; [|now left].
  right. now left.
Qed.

Lemma train_well_keyed (m m' : TrigramModel) (corpus : str) :
  well_keyed m -> train m corpus = Ok m' -> well_keyed m'.
Proof.
  intros [Hnd Hp Hc]. unfold train.
  destruct (length (split corpus) <? 3)%nat; [discriminate|].
  intros [= <-].
  assert (Hcounts : Forall (fun k => pair_ctx (fst k))
                      (keys (count_all (trigram_counts m)
                                       (trigrams (split corpus))))).
  { apply Forall_forall. intros k Hk. apply keys_count_all_incl in Hk.
    destruct Hk as [Hk|Hk].
    - rewrite Forall_forall in Hc. now apply Hc.
    - eapply trigrams_pair_ctx; eauto. }
  constructor; cbn [train_tokens trigram_probs trigram_counts].
  - now apply NoDup_keys_cond_probs.
  - apply Forall_forall. intros c Hin. apply keys_cond_probs_incl in Hin.
    destruct Hin as [Hin|Hin].
    + rewrite Forall_forall in Hp. now apply Hp.
    + apply in_map_iff in Hin. destruct Hin as (k & <- & Hk).
      rewrite Forall_forall in Hcounts. now apply Hcounts.
  - exact Hcounts.
Qed.

Lemma reachable_well_keyed (m : TrigramModel) : reachable m -> well_keyed m.
Proof.
  induction 1 as [l1 l2 l3 m Hinit | m corpus m' _ IH Htrain
                  | m m0 st _ IH _ IH0 Hsave].
  - unfold init in Hinit. destruct (Qltb _ _); [|discriminate].
    injection Hinit as <-. constructor; simpl; constructor.
  - eapply train_well_keyed; eauto.
  - pose proof (load_trigram_probs m IH0 Hsave) as E.
    destruct IH0 as [Hnd Hp _]. destruct IH as [_ _ Hc].
    constructor; [rewrite E | rewrite E | ]; assumption.
Qed.

(** The queries read the weights, the three probability tables and the
    vocabulary size only. *)
Lemma same_tables_prob (m m' : TrigramModel) :
  lambda1 m' = lambda1 m -> lambda2 m' = lambda2 m -> lambda3 m' = lambda3 m ->
  unigram_probs m' = unigram_probs m -> bigram_probs m' = bigram_probs m ->
  trigram_probs m' = trigram_probs m -> vocab_size m' = vocab_size m ->
  (forall w1 w2 w3, interpolated_prob m' w1 w2 w3 = interpolated_prob m w1 w2 w3)
  /\ (forall w1 w2, next_token_dist m' w1 w2 = next_token_dist m w1 w2).
Proof.
  intros E1 E2 E3 Eu Eb Et Ev.
  assert (Hp : forall w1 w2 w3,
             interpolated_prob m' w1 w2 w3 = interpolated_prob m w1 w2 w3).
  { intros w1 w2 w3. unfold interpolated_prob.
    now rewrite E1, E2, E3, Eu, Eb, Et, Ev. }
  split; [exact Hp|].
  intros w1 w2. unfold next_token_dist, candidates.
  rewrite Eu, Eb, Et.
  match goal with |- context [List.map _ ?l] => set (cs := l) end.
  assert (Em : List.map (fun w3 => (w3, interpolated_prob m' w1 w2 w3)) cs
               = List.map (fun w3 => (w3, interpolated_prob m w1 w2 w3)) cs).
  { apply map_ext. intros w3. now rewrite Hp. }
  now rewrite Em.
Qed.

End ModelPersistence.

Section SameTables.
Import Trigram.
Variables (m m' : TrigramModel).
Hypothesis Eu : unigram_probs m' = unigram_probs m.
Hypothesis Hprob :
  forall w1 w2 w3, interpolated_prob m' w1 w2 w3 = interpolated_prob m w1 w2 w3.
Hypothesis Hdist :
  forall w1 w2, next_token_dist m' w1 w2 = next_token_dist m w1 w2.

Lemma same_tables_perplexity (log exp : Q -> Q) (test_corpus : str) :
  perplexity log exp m' test_corpus = perplexity log exp m test_corpus.
Proof.
  unfold perplexity. destruct (length (split test_corpus) <? 3)%nat; auto.
  match goal with
  | |- context [fold_left ?f ?l ?a] =>
      assert (E : forall l0 a0,
                 fold_left f l0 a0
                 = fold_left
                     (fun (acc : Q * Z) (w : str * str * str) =>
                        let '(w1, w2, w3) := w in
                        (fst acc + log (pymax (interpolated_prob m w1 w2 w3)
                                              floor_prob),
                         (snd acc + 1)%Z)) l0 a0)
  end.
  { induction l0 as [|[[w1 w2] w3] l0 IH]; intros a0; [reflexivity|].
    cbn [fold_left]. rewrite Hprob. apply IH. }
  now rewrite E.
Qed.

Lemma same_tables_generate
    (rng : Type) (random_seed : Z -> rng)
    (choices : rng -> list str -> list Q -> result (str * rng))
    (pow : Q -> Q -> result Q)
    (seed : list str) (max_length : Z) (temperature : Q) (top_k : option Z)
    (rseed : option Z) (g : rng) :
  generate random_seed choices pow m' seed max_length temperature top_k rseed g
  = generate random_seed choices pow m seed max_length temperature top_k rseed g.
Proof.
  unfold generate, generate_tokens. rewrite Eu.
  destruct (length seed <? 2)%nat; [reflexivity|].
  destruct (unigram_probs m) as [|u us]; [reflexivity|].
  f_equal.
  generalize (match rseed with Some n => random_seed n | None => g end).
  generalize seed. induction (Z.to_nat max_length) as [|n IH];
    intros tokens g0; [reflexivity|].
  cbn [generate_loop]. rewrite Hdist.
  destruct (next_token_dist m _ _) as [|e d]; [reflexivity|].
  destruct (apply_temperature pow temperature (e :: d)) as [d1|];
    [|reflexivity].
  cbn [bind]. destruct (top_k_filter top_k d1) as [d2|]; [|reflexivity].
  cbn [bind]. destruct (choices g0 (keys d2) (values d2)) as [[x g']|];
    [|reflexivity].
  cbn [bind fst snd]. destruct (eqb x EOT_TOKEN); [reflexivity|]. apply IH.
Qed.

End SameTables.



(** ** The counts collected by training *)

Section TrainedCounts.
Import Trigram.

Lemma length_bigrams (l : list str) : length (bigrams l) = (length l - 1)%nat.
Proof.
  induction l as [|a l IH]; [reflexivity|].
  destruct l as [|b l]; [reflexivity|].
  change (bigrams (a :: b :: l)) with ((a, b) :: bigrams (b :: l)).
  cbn [length] in *. rewrite IH. lia.
Qed.

Lemma length_trigrams (l : list str) : length (trigrams l) = (length l - 2)%nat.
Proof.
  induction l as [|a l IH]; [reflexivity|].
  destruct l as [|b [|c l]]; [reflexivity | reflexivity |].
  change (trigrams (a :: b :: c :: l))
    with (([a; b], c) :: trigrams (b :: c :: l)).
  cbn [length] in *. rewrite IH. lia.
Qed.

Lemma total_count_all {K} `{Eqb K} (ks : list K) :
  total_count (count_all [] ks) = Z.of_nat (length ks).
Proof.
  unfold total_count, values.
  now rewrite fold_add_fsum, fsum_count_all, filter_true_id.
Qed.

End TrainedCounts.

(** X8.  After one training run on a fresh model, each count table holds
    the number of occurrences of its keys in the token stream of the
    corpus: the unigram counts add up to [total_tokens], the number of
    tokens of the corpus, which is at least 3; the bigram counts add up to
    [total_tokens - 1], the trigram counts to [total_tokens - 2]; and
    [vocab_size] is the number of distinct tokens, which is also the
    number of entries of the unigram tables. *)
Theorem trained_counts
    (l1 l2 l3 : Q) (corpus : str) (m : Trigram.TrigramModel) :
  Trigram.trained l1 l2 l3 corpus m ->
  let tokens := split corpus in
  (forall w, get_or (Trigram.unigram_counts m) w 0%Z = occ w tokens)
  /\ (forall a b, get_or (Trigram.bigram_counts m) (a, b) 0%Z
                  = occ (a, b) (Trigram.bigrams tokens))
  /\ (forall a b c, get_or (Trigram.trigram_counts m) ([a; b], c) 0%Z
                    = occ ([a; b], c) (Trigram.trigrams tokens))
  /\ (Trigram.total_tokens m = Z.of_nat (length tokens)
      /\ 3 <= Trigram.total_tokens m)%Z
  /\ total_count (Trigram.unigram_counts m) = Trigram.total_tokens m
  /\ total_count (Trigram.bigram_counts m) = (Trigram.total_tokens m - 1)%Z
  /\ total_count (Trigram.trigram_counts m) = (Trigram.total_tokens m - 2)%Z
  /\ (Trigram.vocab_size m = Z.of_nat (length (distinct tokens))
      /\ Trigram.vocab_size m = Z.of_nat (length (Trigram.unigram_counts m))
      /\ Trigram.vocab_size m = Z.of_nat (length (Trigram.unigram_probs m))).
Proof.
  intros Ht tokens. subst tokens.
  pose proof (trained_vocab_size Ht) as [Ev _].
  pose proof (trained_unigram_probs Ht) as Eu.
  destruct (trained_unfold Ht) as (Hlen & _ & ->).
  cbn [Trigram.train_tokens Trigram.unigram_counts Trigram.bigram_counts
       Trigram.trigram_counts Trigram.total_tokens Trigram.vocab_size] in *.
  split; [intros w; apply get_or_count_all|].
  split; [intros a b; apply get_or_count_all|].
  split; [intros a b c; apply get_or_count_all|].
  split; [split; [reflexivity | lia]|].
  split; [apply total_count_all|].
  split; [rewrite total_count_all, length_bigrams; lia|].
  split; [rewrite total_count_all, length_trigrams; lia|].
  split; [exact Ev|]. split; [reflexivity|].
  rewrite Eu, length_map. reflexivity.
Qed.

Lemma trained_counts_witness :
  total_count (Trigram.bigram_counts abc_model)
  = (Trigram.total_tokens abc_model - 1)%Z.
Proof.
  exact (proj1 (proj2 (proj2 (proj2 (proj2 (proj2
           (trained_counts abc_model_trained))))))).
Defined.

(** ** The candidates of the next token *)

Section CandidateSet.
Import Trigram.

Lemma keys_row_of {C} `{Eqb C} (tot : dict C Z) (c : C)
    (items : dict (C * str) Z) :
  keys (row_of tot c items)
  = List.map snd (filter (fun k => eqb (fst k) c) (keys items)).
Proof.
  unfold row_of, keys. induction items as [|[[c' w'] n] items IH]; auto.
  simpl. destruct (eqb c' c); simpl; now rewrite IH.
Qed.

Lemma In_keys_row_of {C} `{Eqb C} (tot : dict C Z) (c : C)
    (items : dict (C * str) Z) (w : str) :
  In w (keys (row_of tot c items)) <-> In (c, w) (keys items).
Proof.
  rewrite keys_row_of, in_map_iff. split.
  - intros ([c' w'] & <- & Hin). apply filter_In in Hin.
    destruct Hin as [Hin Hc]. simpl in Hc. apply eqb_eq in Hc. now subst c'.
  - intros Hin. exists (c, w). split; [reflexivity|].
    apply filter_In. split; [exact Hin|]. simpl. apply eqb_refl.
Qed.

Lemma NoDup_keys_row_of {C} `{Eqb C} (tot : dict C Z) (c : C)
    (items : dict (C * str) Z) :
  NoDup (keys items) -> NoDup (keys (row_of tot c items)).
Proof.
  rewrite keys_row_of. generalize (keys items). intros l Hnd.
  induction Hnd as [|[c' w'] l Hx Hnd IH]; simpl; [constructor|].
  destruct (eqb_spec c' c) as [->|Hc]; simpl; [|exact IH].
  constructor; [|exact IH].
  intros Hin. apply in_map_iff in Hin. destruct Hin as ([c2 w2] & E & Hin).
  simpl in E. subst w2. apply filter_In in Hin. destruct Hin as [Hin Hc].
  simpl in Hc. apply eqb_eq in Hc. subst c2. auto.
Qed.

Lemma In_bigrams (tokens : list str) (a b : str) :
  In (a, b) (bigrams tokens) -> In a tokens /\ In b tokens.
Proof.
  induction tokens as [|x tokens IH]; [intros []|].
  destruct tokens as [|y tokens]; [intros []|].
  change (bigrams (x :: y :: tokens)) with ((x, y) :: bigrams (y :: tokens)).
  intros [[= <- <-]|Hin].
  - simpl. auto.
  - apply IH in Hin. simpl in *. tauto.
Qed.

Lemma In_trigrams_next (tokens : list str) (c : list str) (w : str) :
  In (c, w) (trigrams tokens) -> In w tokens.
Proof.
  induction tokens as [|x tokens IH]; [intros []|].
  destruct tokens as [|y [|z tokens]]; [intros [] | intros [] |].
  change (trigrams (x :: y :: z :: tokens))
    with (([x; y], z) :: trigrams (y :: z :: tokens)).
  intros [[= <- <-]|Hin].
  - simpl. auto.
  - apply IH in Hin. simpl in *. tauto.
Qed.

Variables (l1 l2 l3 : Q) (corpus : str) (m : TrigramModel).
Hypothesis Htrained : trained l1 l2 l3 corpus m.

Lemma trigram_row (w1 w2 : str) :
  get_or (trigram_probs m) [w1; w2] []
  = row_of (context_totals (count_all [] (trigrams (split corpus))))
           [w1; w2] (count_all [] (trigrams (split corpus))).
Proof.
  rewrite (trained_trigram_probs Htrained).
  apply get_or_row, NoDup_keys_count_all.
Qed.

Lemma bigram_row (w2 : str) :
  get_or (bigram_probs m) w2 []
  = row_of (context_totals (count_all [] (bigrams (split corpus))))
           w2 (count_all [] (bigrams (split corpus))).
Proof.
  rewrite (trained_bigram_probs Htrained).
  apply get_or_row, NoDup_keys_count_all.
Qed.

Lemma keys_unigram_probs : keys (unigram_probs m) = distinct (split corpus).
Proof.
  rewrite (trained_unigram_probs Htrained).
  unfold keys. rewrite map_map. cbn [fst].
  change (List.map (fun x : str * Z => fst x) (count_all [] (split corpus)))
    with (keys (count_all [] (split corpus))).
  apply keys_count_all.
Qed.

Lemma candidates_are_tokens (w1 w2 w : str) :
  In w (candidates m w1 w2) <-> In w (split corpus).
Proof.
  split; [|now apply (vocabulary_in_candidates w1 w2 Htrained)].
  unfold candidates. rewrite !In_union.
  rewrite trigram_row, bigram_row, keys_unigram_probs.
  rewrite !In_keys_row_of, !keys_count_all, !In_distinct.
  intros [[Hin|Hin]|Hin].
  - eapply In_trigrams_next; eauto.
  - now apply In_bigrams in Hin.
  - exact Hin.
Qed.

Lemma NoDup_candidates (w1 w2 : str) : NoDup (candidates m w1 w2).
Proof.
  unfold candidates. apply NoDup_union, NoDup_union.
  rewrite trigram_row. apply NoDup_keys_row_of, NoDup_keys_count_all.
Qed.

Lemma keys_next_token_dist (m0 : TrigramModel) (w1 w2 : str) :
  keys (next_token_dist m0 w1 w2) = candidates m0 w1 w2.
Proof.
  unfold next_token_dist.
  assert (E : keys (List.map (fun w3 => (w3, interpolated_prob m0 w1 w2 w3))
                             (candidates m0 w1 w2)) = candidates m0 w1 w2).
  { unfold keys. rewrite map_map. cbn [fst]. apply map_id. }
  destruct (Qltb 0 _); [|exact E].
  unfold scale, keys in *. rewrite map_map. cbn [fst]. exact E.
Qed.

End CandidateSet.

(** X9.  For a trained model the candidates of the next token are,
    whatever the context, exactly the tokens of the training corpus, each
    listed once: the trigram and bigram continuations add nothing to the
    unigram vocabulary, and the distribution has [vocab_size] entries. *)
Theorem next_token_dist_support
    (l1 l2 l3 : Q) (corpus : str) (m : Trigram.TrigramModel) (w1 w2 : str) :
  Trigram.trained l1 l2 l3 corpus m ->
  NoDup (keys (Trigram.next_token_dist m w1 w2))
  /\ (forall w, In w (keys (Trigram.next_token_dist m w1 w2))
                <-> In w (split corpus))
  /\ Z.of_nat (length (Trigram.next_token_dist m w1 w2)) = Trigram.vocab_size m.
Proof.
  intros Ht. rewrite keys_next_token_dist.
  pose proof (NoDup_candidates Ht w1 w2) as Hnd.
  assert (Hiff : forall w, In w (Trigram.candidates m w1 w2)
                           <-> In w (split corpus))
    by (intros w; now apply candidates_are_tokens with (l1 := l1) (l2 := l2)
                                                       (l3 := l3)).
  split; [exact Hnd|]. split; [exact Hiff|].
  destruct (trained_vocab_size Ht) as [-> _]. f_equal.
  rewrite <- (length_map fst).
  change (List.map fst (Trigram.next_token_dist m w1 w2))
    with (keys (Trigram.next_token_dist m w1 w2)).
  rewrite keys_next_token_dist.
  apply Permutation_length, NoDup_Permutation; auto.
  - apply NoDup_distinct.
  - intros w. now rewrite Hiff, In_distinct.
Qed.

Lemma next_token_dist_support_witness :
  Z.of_nat (length (Trigram.next_token_dist abc_model (lit "x") (lit "y")))
  = Trigram.vocab_size abc_model.
Proof.
  exact (proj2 (proj2 (@next_token_dist_support _ _ _ _ abc_model
                         (lit "x") (lit "y") abc_model_trained))).
Defined.

(** ** What [generate] returns *)

Section GenerateOutput.
Import Trigram.
Variable rng : Type.
Variable random_seed : Z -> rng.
Variable choices : rng -> list str -> list Q -> result (str * rng).
Variable pow : Q -> Q -> result Q.
Hypothesis choices_sound :
  forall g words weights w g',
    choices g words weights = Ok (w, g') -> In w words.
Variables (m : TrigramModel) (temperature : Q) (top_k : option Z).

Lemma keys_scale (t : Q) (d : dict str Q) : keys (scale t d) = keys d.
Proof. unfold scale, keys. rewrite map_map. reflexivity. Qed.

Lemma keys_renormalise (d d' : dict str Q) :
  renormalise d = Ok d' -> keys d' = keys d.
Proof.
  unfold renormalise. destruct d as [|e d]; [now intros [= <-]|].
  destruct (Qeq_bool _ 0); [discriminate|].
  intros [= <-]. exact (keys_scale _ (e :: d)).
Qed.

Lemma keys_powered (f : Q -> result Q) (d d' : dict str Q) :
  mapM (fun kv => v <- f (snd kv) ;; Ok (fst kv, v)) d = Ok d' ->
  keys d' = keys d.
Proof.
  revert d'. induction d as [|[k v] d IH]; intros d'; cbn [mapM].
  - now intros [= <-].
  - cbn [fst snd]. destruct (f v) as [v'|]; [|discriminate]. cbn [bind].
    match goal with
    | |- context [bind ?r _] => destruct r as [ys|] eqn:E; [|discriminate]
    end.
    cbn [bind]. intros [= <-]. cbn [keys List.map fst]. f_equal.
    now apply IH.
Qed.

Lemma keys_apply_temperature (d d' : dict str Q) :
  apply_temperature pow temperature d = Ok d' -> keys d' = keys d.
Proof.
  unfold apply_temperature.
  destruct (Qeq_bool temperature 1); [now intros [= <-]|].
  destruct (Qeq_bool temperature 0); [discriminate|].
  match goal with
  | |- context [bind ?r _] => destruct r as [powered|] eqn:E; [|discriminate]
  end.
  cbn [bind]. intros Hr. apply keys_renormalise in Hr.
  apply (keys_powered (fun v => pow v (1 / temperature))) in E. congruence.
Qed.

Lemma sorted_desc_member (l : list (str * Q)) (y : str * Q) :
  In y (sorted_desc l) -> In y l.
Proof.
  induction l as [|x l IH]; [auto|]. cbn [sorted_desc fold_right].
  fold (sorted_desc l). generalize (sorted_desc l) IH. clear IH.
  intros s IH. induction s as [|z s IHs]; cbn [insert_desc].
  - intros [<-|[]]. now left.
  - destruct (Qle_bool (snd z) (snd x)).
    + intros [<-|Hin]; [now left | right; now apply IH].
    + intros [<-|Hin].
      * right. apply IH. now left.
      * apply IHs; [|exact Hin]. intros Hy. apply IH. now right.
Qed.

Lemma firstn_member {A} (n : nat) (l : list A) (x : A) :
  In x (firstn n l) -> In x l.
Proof.
  revert l; induction n as [|n IH]; intros [|y l]; simpl; try tauto.
  intros [->|Hin]; auto.
Qed.

Lemma keys_top_k_filter (d d' : dict str Q) :
  top_k_filter top_k d = Ok d' -> incl (keys d') (keys d).
Proof.
  unfold top_k_filter. destruct top_k as [k|]; [|intros [= <-]; apply incl_refl].
  intros Hr. apply keys_renormalise in Hr. rewrite Hr.
  intros w Hw. unfold keys in *. apply in_map_iff in Hw.
  destruct Hw as (kv & <- & Hin). apply in_map.
  apply sorted_desc_member. unfold slice_to in Hin.
  destruct (0 <=? k)%Z; eapply firstn_member; eauto.
Qed.

(** Every drawn token is a candidate of the context it was drawn in. *)
Lemma generate_loop_drawn (n : nat) :
  forall tokens g toks,
    generate_loop choices pow m temperature top_k n tokens g = Ok toks ->
    exists drawn,
      toks = tokens ++ drawn
      /\ Forall (fun t => exists w1 w2, In t (candidates m w1 w2)) drawn.
Proof.
  induction n as [|n IH]; intros tokens g toks Hrun; cbn [generate_loop] in Hrun.
  - injection Hrun as <-. exists []. now rewrite app_nil_r.
  - set (w1 := nth (length tokens - 2) tokens []) in *.
    set (w2 := nth (length tokens - 1) tokens []) in *.
    pose proof (keys_next_token_dist m w1 w2) as Hk.
    destruct (next_token_dist m w1 w2) as [|e d] eqn:Ed.
    { injection Hrun as <-. exists []. now rewrite app_nil_r. }
    destruct (apply_temperature pow temperature (e :: d)) as [d1|] eqn:E1;
      cbn [bind] in Hrun; [|discriminate].
    destruct (top_k_filter top_k d1) as [d2|] eqn:E2;
      cbn [bind] in Hrun; [|discriminate].
    destruct (choices g (keys d2) (values d2)) as [[x g']|] eqn:E3;
      cbn [bind fst snd] in Hrun; [|discriminate].
    assert (Hx : In x (candidates m w1 w2)).
    { rewrite <- Hk. apply keys_apply_temperature in E1. rewrite <- E1.
      apply (keys_top_k_filter _ E2). eapply choices_sound; eauto. }
    destruct (eqb x EOT_TOKEN).
    + injection Hrun as <-. exists [x]. split; [reflexivity|].
      constructor; [eauto | constructor].
    + apply IH in Hrun. destruct Hrun as (drawn & -> & Hall).
      exists (x :: drawn). rewrite <- app_assoc. split; [reflexivity|].
      constructor; eauto.
Qed.

End GenerateOutput.

(** X10.  Whenever [generate] returns on a trained model, with a random
    source that draws from the words it is given, the text is the seed
    (of at least 2 tokens) followed by the drawn tokens, joined by single
    spaces; at most [max_length] tokens are drawn, each of them is a token
    of the training corpus, only the last one can be [<EOT>], and fewer
    than [max_length] are drawn only if the last one is [<EOT>]. *)
Theorem generate_output
    (rng : Type) (random_seed : Z -> rng)
    (choices : rng -> list str -> list Q -> result (str * rng))
    (pow : Q -> Q -> result Q)
    (l1 l2 l3 : Q) (corpus : str) (m : Trigram.TrigramModel)
    (seed : list str) (max_length : Z) (temperature : Q) (top_k : option Z)
    (rseed : option Z) (g : rng) (text : str) :
  Trigram.trained l1 l2 l3 corpus m ->
  (forall g words weights w g',
      choices g words weights = Ok (w, g') -> In w words) ->
  Trigram.generate random_seed choices pow m seed max_length temperature
                   top_k rseed g = Ok text ->
  exists drawn,
    text = join (lit " ") (seed ++ drawn)
    /\ (2 <= length seed)%nat
    /\ (length drawn <= Z.to_nat max_length)%nat
    /\ Forall (fun t => In t (split corpus)) drawn
    /\ Forall (fun t => t <> Trigram.EOT_TOKEN) (removelast drawn)
    /\ (length drawn = Z.to_nat max_length
        \/ last drawn [] = Trigram.EOT_TOKEN).
Proof.
  intros Ht Hsound Hrun.
  unfold Trigram.generate, Trigram.generate_tokens in Hrun.
  destruct (Nat.ltb_spec (length seed) 2) as [|Hseed];
    [discriminate|].
  pose proof (trained_unigram_nonempty Ht) as Hne.
  destruct (Trigram.unigram_probs m) as [|u us] eqn:Eu; [congruence|].
  match type of Hrun with
  | bind ?r _ = _ => destruct r as [toks|] eqn:Eloop; [|discriminate]
  end.
  cbn [bind] in Hrun. injection Hrun as <-.
  pose proof Eloop as Eloop'.
  apply generate_loop_shape in Eloop; [|rewrite Eu; discriminate].
  apply generate_loop_drawn in Eloop'; [|exact Hsound].
  destruct Eloop as (drawn & -> & Hlen & Hnot & Hlast).
  destruct Eloop' as (drawn' & E & Hall).
  apply app_inv_head in E. subst drawn'.
  exists drawn. repeat split; auto.
  eapply Forall_impl; [|exact Hall].
  intros t (w1 & w2 & Hin). eapply candidates_are_tokens; eauto.
Qed.

Lemma first_choice_sound (g : unit) (words : list str) (weights : list Q)
    (w : str) (g' : unit) :
  first_choice g words weights = Ok (w, g') -> In w words.
Proof.
  destruct words as [|x words]; [discriminate|].
  intros [= <- _]. now left.
Defined.

Lemma generate_output_witness :
  exists drawn,
    lit "a b c a" = join (lit " ") ([lit "a"; lit "b"] ++ drawn)
    /\ Forall (fun t => In t (split (lit "a b c"))) drawn.
Proof.
  assert (Hrun : Trigram.generate (fun _ => tt) first_choice no_pow abc_model
                   [lit "a"; lit "b"] 2 1 (Some 50%Z) None tt
                 = Ok (lit "a b c a")) by (vm_compute; reflexivity).
  destruct (@generate_output unit (fun _ : Z => tt) first_choice no_pow
              _ _ _ _ abc_model [lit "a"; lit "b"] 2 1
              (Some 50%Z) None tt _ abc_model_trained first_choice_sound Hrun)
    as (drawn & E & _ & _ & Hall & _).
  exists drawn. split; assumption.
Defined.

(** ** The top-k filter *)

Section TopK.
Import Trigram.

Lemma insert_desc_perm (x : str * Q) (l : list (str * Q)) :
  Permutation (x :: l) (insert_desc x l).
Proof.
  induction l as [|y l IH]; cbn [insert_desc]; [apply Permutation_refl|].
  destruct (Qle_bool (snd y) (snd x)); [apply Permutation_refl|].
  eapply perm_trans; [apply perm_swap|]. now apply perm_skip.
Qed.

Lemma sorted_desc_perm (l : list (str * Q)) : Permutation l (sorted_desc l).
Proof.
  induction l as [|x l IH]; [constructor|].
  cbn [sorted_desc fold_right]. fold (sorted_desc l).
  eapply perm_trans; [|apply insert_desc_perm]. now apply perm_skip.
Qed.

Lemma insert_desc_sorted (x : str * Q) (l : list (str * Q)) :
  StronglySorted at_least l -> StronglySorted at_least (insert_desc x l).
Proof.
  induction 1 as [|y l Hs IH Hall]; cbn [insert_desc].
  - repeat constructor.
  - destruct (Qle_bool (snd y) (snd x)) eqn:E.
    + apply Qle_bool_iff in E. constructor; [now constructor|].
      constructor; [exact E|].
      eapply Forall_impl; [|exact Hall]. unfold at_least. intros z Hz. lra.
    + constructor; [exact IH|].
      apply Forall_forall. intros z Hz.
      apply (Permutation_in _ (Permutation_sym (insert_desc_perm x l))) in Hz.
      destruct Hz as [<-|Hz].
      * unfold at_least. destruct (Qlt_le_dec (snd x) (snd y)) as [Hlt|Hle].
        -- lra.
        -- apply Qle_bool_iff in Hle. congruence.
      * rewrite Forall_forall in Hall. now apply Hall.
Qed.

Lemma sorted_desc_sorted (l : list (str * Q)) :
  StronglySorted at_least (sorted_desc l).
Proof.
  induction l as [|x l IH]; [constructor|].
  cbn [sorted_desc fold_right]. now apply insert_desc_sorted.
Qed.

Lemma sorted_app_order {A} (R : A -> A -> Prop) (l1 l2 : list A) :
  StronglySorted R (l1 ++ l2) ->
  forall x y, In x l1 -> In y l2 -> R x y.
Proof.
  induction l1 as [|a l1 IH]; intros Hs x y Hx Hy; [destruct Hx|].
  cbn [app] in Hs. inversion Hs as [|? ? Hs' Hall]; subst.
  destruct Hx as [<-|Hx].
  - rewrite Forall_forall in Hall. apply Hall, in_app_iff. now right.
  - now apply IH.
Qed.

Lemma renormalise_sum (d d' : dict str Q) :
  renormalise d = Ok d' -> d <> [] ->
  d' = scale (sum (values d)) d /\ sum (values d') == 1.
Proof.
  unfold renormalise. destruct d as [|e d]; [congruence|].
  destruct (Qeq_bool (sum (values (e :: d))) 0) eqn:E; [discriminate|].
  intros [= <-] _. split; [reflexivity|].
  change (sum (values (scale (sum (values (e :: d))) (e :: d))) == 1).
  rewrite values_scale, (sum_map_div (fun v => v)), map_id.
  apply Qeq_bool_neq in E. field. exact E.
Qed.

End TopK.

(** X11.  The top-k filter of [generate], for [top_k >= 0], keeps
    [min(top_k, len(dist))] candidates, none of them less probable than a
    candidate it drops, and divides the kept weights by their total: when
    it returns a non-empty distribution, its values sum to 1. *)
Theorem top_k_keeps_most_probable (k : Z) (dist d' : dict str Q) :
  (0 <= k)%Z ->
  Trigram.top_k_filter (Some k) dist = Ok d' ->
  exists kept dropped,
    Permutation (kept ++ dropped) dist
    /\ length kept = Nat.min (Z.to_nat k) (length dist)
    /\ (forall x y, In x kept -> In y dropped -> snd y <= snd x)
    /\ keys d' = keys kept
    /\ (kept <> [] ->
        d' = Trigram.scale (sum (values kept)) kept /\ sum (values d') == 1).
Proof.
  intros Hk Hrun. unfold Trigram.top_k_filter, Trigram.slice_to in Hrun.
  destruct (Z.leb_spec 0 k) as [_|]; [|lia].
  set (kept := firstn (Z.to_nat k) (Trigram.sorted_desc dist)) in *.
  exists kept, (skipn (Z.to_nat k) (Trigram.sorted_desc dist)).
  split; [|split; [|split; [|split]]].
  - unfold kept. rewrite firstn_skipn.
    apply Permutation_sym, sorted_desc_perm.
  - unfold kept. rewrite length_firstn.
    now rewrite <- (Permutation_length (sorted_desc_perm dist)).
  - intros x y Hx Hy.
    apply (sorted_app_order (R := at_least) kept
             (skipn (Z.to_nat k) (Trigram.sorted_desc dist))); auto.
    unfold kept. rewrite firstn_skipn. apply sorted_desc_sorted.
  - now apply keys_renormalise.
  - intros Hne. now apply renormalise_sum.
Qed.

Lemma top_k_keeps_most_probable_witness :
  exists kept dropped,
    Permutation (kept ++ dropped)
                [(lit "a", 1 # 4); (lit "b", 1 # 2); (lit "c", 1 # 4)]
    /\ length kept = 1%nat
    /\ (forall x y, In x kept -> In y dropped -> snd y <= snd x).
Proof.
  assert (Hk : (0 <= 1)%Z) by lia.
  destruct (@top_k_keeps_most_probable 1
              [(lit "a", 1 # 4); (lit "b", 1 # 2); (lit "c", 1 # 4)] _
              Hk eq_refl)
    as (kept & dropped & Hp & Hl & Ho & _).
  exists kept, dropped. split; [exact Hp|]. split; [exact Hl | exact Ho].
Defined.

(* ================================================================== *)
(** * Properties of the generation service *)
(* ================================================================== *)

(** ** The seed built from a prefix *)

Section StripWords.

Lemma split_lstrip (s : str) : split (lstrip s) = split s.
Proof.
  induction s as [|c s IH]; [reflexivity|].
  unfold split in *. cbn [lstrip split_acc].
  destruct (isspace c) eqn:Ec; [exact IH|].
  cbn [split_acc]. now rewrite Ec.
Qed.

Lemma split_acc_trailing_space (s acc : str) (c : char) :
  isspace c = true -> split_acc acc (s ++ [c]) = split_acc acc s.
Proof.
  intros Hc. revert acc. induction s as [|x s IH]; intros acc.
  - cbn [app split_acc]. rewrite Hc. now destruct acc.
  - cbn [app split_acc]. destruct (isspace x); now rewrite ?IH.
Qed.

Lemma split_rstrip (s : str) : split (rev (lstrip (rev s))) = split s.
Proof.
  induction s as [|c s IH] using rev_ind; [reflexivity|].
  rewrite rev_unit. cbn [lstrip]. destruct (isspace c) eqn:Ec.
  - rewrite IH. unfold split. now rewrite split_acc_trailing_space.
  - now rewrite <- rev_unit, rev_involutive.
Qed.

(** [strip] does not change the words of a text. *)
Lemma split_strip (s : str) : split (strip s) = split s.
Proof. unfold strip. now rewrite split_rstrip, split_lstrip. Qed.

Lemma filter_nonempty_words (ws : list str) :
  Forall word_like ws ->
  filter (fun t => match t with [] => false | _ => true end) ws = ws.
Proof.
  induction 1 as [|w ws [Hne _] _ IH]; [reflexivity|].
  cbn [filter]. destruct w; [congruence|]. now rewrite IH.
Qed.

Lemma words_word_like (s : str) : Forall word_like (split s).
Proof.
  eapply Forall_impl; [|apply split_words]. now intros w [Hw _].
Qed.

Lemma build_seed_cases (prefix : str) :
  Service.build_seed prefix
  = match split prefix with
    | [] => []
    | [w] => [w; w]
    | ws => ws
    end.
Proof.
  unfold Service.build_seed.
  rewrite split_strip, filter_nonempty_words by apply words_word_like.
  now destruct (split prefix) as [|w [|w' ws]].
Qed.

Lemma build_seed_word_like (prefix : str) :
  Forall word_like (Service.build_seed prefix).
Proof.
  rewrite build_seed_cases. pose proof (words_word_like prefix) as Hall.
  destruct (split prefix) as [|w [|w' ws]]; auto.
  inversion Hall; subst. constructor; [assumption|]. now constructor.
Qed.

Lemma build_seed_length (prefix : str) :
  split prefix <> [] -> (2 <= length (Service.build_seed prefix))%nat.
Proof.
  rewrite build_seed_cases.
  destruct (split prefix) as [|w [|w' ws]]; [congruence | |]; simpl; lia.
Qed.

End StripWords.

(** X12.  [_build_seed] returns the white-space separated words of the
    prefix, a single word twice, and nothing for a prefix without a word:
    stripping the prefix and filtering empty strings change nothing.  The
    seed therefore never has exactly one token, and none of its tokens is
    empty or contains white space. *)
Theorem build_seed_words (prefix : str) :
  Service.build_seed prefix
  = match split prefix with
    | [] => []
    | [w] => [w; w]
    | ws => ws
    end
  /\ length (Service.build_seed prefix) <> 1%nat
  /\ (Service.build_seed prefix = [] <-> split prefix = [])
  /\ Forall word_like (Service.build_seed prefix).
Proof.
  pose proof (build_seed_word_like prefix) as Hall.
  pose proof (build_seed_cases prefix) as E.
  split; [exact E|]. rewrite E in *.
  destruct (split prefix) as [|w [|w' ws]]; cbn [length];
    repeat split; auto; discriminate.
Qed.

(** ** Serving a request *)

Section JoinWords.

Lemma split_join_words (ws : list str) :
  Forall word_like ws -> split (join (lit " ") ws) = ws.
Proof.
  intros Hws. destruct Hws as [|w ws Hw Hws]; [reflexivity|].
  assert (Ew : List.map bare (List.map Plain ws) = ws).
  { rewrite map_map. simpl. now rewrite map_id. }
  change (lit " ") with BPE.SPACE.
  assert (Ej : join BPE.SPACE (w :: ws)
               = bare (Plain w) ++ tail_text bare (List.map Plain ws)).
  { rewrite <- join_items. cbn [List.map bare]. now rewrite Ew. }
  rewrite Ej. unfold split. rewrite split_text.
  - cbn [bare]. now rewrite Ew.
  - apply Forall_map. eapply Forall_impl; [|exact Hws]. simpl. auto.
  - cbn [bare]. auto.
Qed.

End JoinWords.

Section ServiceRuns.
Import Trigram.
Variable rng : Type.
Variable random_seed : Z -> rng.
Variable choices : rng -> list str -> list Q -> result (str * rng).
Variable pow : Q -> Q -> result Q.
Hypothesis choices_total :
  forall g words weights,
    words <> [] -> length words = length weights ->
    Forall (fun x => 0 < x) weights ->
    exists w g', choices g words weights = Ok (w, g').
Hypothesis pow_positive :
  forall v e, 0 < v -> exists v', pow v e = Ok v' /\ 0 < v'.

Variables (l1 l2 l3 : Q) (corpus : str) (m : TrigramModel).
Hypothesis Htrained : trained l1 l2 l3 corpus m.
Hypotheses (H1 : 0 <= l1) (H2 : 0 <= l2) (H3 : 0 <= l3) (H12 : 0 < l1 + l2).
Variables (temperature : Q) (top_k : Z).
Hypothesis Htemp : 0 < temperature.
Hypothesis Htopk : (1 <= top_k)%Z.

Lemma powered_positive (d : dict str Q) :
  Forall (fun v => 0 < v) (values d) ->
  exists d',
    mapM (fun kv => v <- pow (snd kv) (1 / temperature) ;; Ok (fst kv, v)) d
    = Ok d'
    /\ Forall (fun v => 0 < v) (values d') /\ length d' = length d.
Proof.
  induction d as [|[k v] d IH]; intros Hall; cbn [mapM].
  - exists []. repeat split; auto.
  - inversion Hall as [|? ? Hv Hd]; subst.
    destruct (pow_positive (1 / temperature) Hv) as (v' & Ev & Hv').
    destruct (IH Hd) as (d' & Ed & Hd' & Hlen).
    cbn [fst snd]. rewrite Ev. cbn [bind].
    rewrite Ed. cbn [bind].
    exists ((k, v') :: d'). repeat split.
    + constructor; assumption.
    + simpl. now rewrite Hlen.
Qed.

Lemma apply_temperature_positive (d : dict str Q) :
  positive_dist d ->
  exists d', apply_temperature pow temperature d = Ok d' /\ positive_dist d'.
Proof.
  intros [Hne Hall]. unfold apply_temperature.
  destruct (Qeq_bool temperature 1); [exists d; now split|].
  destruct (Qeq_bool temperature 0) eqn:E0.
  - apply Qeq_bool_iff in E0. lra.
  - destruct (powered_positive d Hall) as (d1 & -> & H1' & Hlen).
    cbn [bind]. apply renormalise_positive. split; [|exact H1'].
    destruct d1; [|discriminate]. destruct d; [congruence | discriminate].
Qed.

Lemma service_loop_returns (n : nat) (tokens : list str) (g : rng) :
  exists toks,
    generate_loop choices pow m temperature (Some top_k) n tokens g = Ok toks.
Proof.
  revert tokens g. induction n as [|n IH]; intros tokens g;
    cbn [generate_loop]; [eauto|].
  set (w1 := nth (length tokens - 2) tokens []).
  set (w2 := nth (length tokens - 1) tokens []).
  pose proof (next_token_dist_positive Htrained H1 H2 H3 H12 w1 w2) as Hd.
  destruct (next_token_dist m w1 w2) as [|e d]; [eauto|].
  destruct (apply_temperature_positive Hd) as (d1 & -> & Hd1). cbn [bind].
  assert (Hk : forall k, Some top_k = Some k -> (1 <= k)%Z)
    by (now intros k [= <-]).
  destruct (top_k_filter_positive pow 0 Hk Hd1) as (d2 & -> & Hne & Hall).
  cbn [bind].
  destruct (choices_total g (words := keys d2) (weights := values d2))
    as (w & g' & ->); auto.
  - destruct d2; [congruence | discriminate].
  - unfold keys, values. now rewrite !length_map.
  - cbn [bind fst snd]. destruct (eqb w EOT_TOKEN); eauto.
Qed.

End ServiceRuns.

Section ServiceGenerate.
Import Trigram.
Variable rng : Type.
Variable random_seed : Z -> rng.
Variable choices : rng -> list str -> list Q -> result (str * rng).
Variable pow : Q -> Q -> result Q.
Hypothesis choices_total :
  forall g words weights,
    words <> [] -> length words = length weights ->
    Forall (fun x => 0 < x) weights ->
    exists w g', choices g words weights = Ok (w, g').
Hypothesis choices_sound :
  forall g words weights w g',
    choices g words weights = Ok (w, g') -> In w words.
Hypothesis pow_positive :
  forall v e, 0 < v -> exists v', pow v e = Ok v' /\ 0 < v'.

Variables (l1 l2 l3 : Q) (corpus : str) (m : TrigramModel).
Hypothesis Htrained : trained l1 l2 l3 corpus m.
Hypotheses (H1 : 0 <= l1) (H2 : 0 <= l2) (H3 : 0 <= l3) (H12 : 0 < l1 + l2).

(** [generate] on the trained model, for a sampling temperature above 0
    and a top-k bound of at least 1 *)
Lemma generate_runs (seed : list str) (max_length : Z) (temperature : Q)
    (top_k : Z) (g : rng) :
  0 < temperature -> (1 <= top_k)%Z -> (2 <= length seed)%nat ->
  exists drawn,
    generate random_seed choices pow m seed max_length temperature
             (Some top_k) None g
    = Ok (join (lit " ") (seed ++ drawn))
    /\ (length drawn <= Z.to_nat max_length)%nat
    /\ Forall (fun t => In t (split corpus)) drawn
    /\ Forall (fun t => t <> EOT_TOKEN) (removelast drawn)
    /\ (length drawn = Z.to_nat max_length \/ last drawn [] = EOT_TOKEN).
Proof.
  intros Htemp Htopk Hseed.
  pose proof (trained_unigram_nonempty Htrained) as Hne.
  destruct (@service_loop_returns rng choices pow choices_total pow_positive
              l1 l2 l3 corpus m Htrained H1 H2 H3 H12 temperature top_k
              Htemp Htopk (Z.to_nat max_length) seed g)
    as (toks & Hloop).
  pose proof Hloop as Hshape.
  apply generate_loop_shape in Hshape; [|exact Hne].
  destruct Hshape as (drawn & -> & Hlen & Hnot & Hlast).
  pose proof Hloop as Hdrawn.
  apply generate_loop_drawn in Hdrawn; [|exact choices_sound].
  destruct Hdrawn as (drawn' & E & Hall).
  apply app_inv_head in E. subst drawn'.
  exists drawn. split; [|repeat split; auto].
  - unfold generate, generate_tokens.
    destruct (Nat.ltb_spec (length seed) 2); [lia|].
    destruct (unigram_probs m) as [|u us]; [congruence|].
    now rewrite Hloop.
  - eapply Forall_impl; [|exact Hall].
    intros t (w1 & w2 & Hin).
    now apply (candidates_are_tokens Htrained w1 w2 t).
Qed.

End ServiceGenerate.

(** X13.  The service end to end.  The model was trained with
    non-negative weights, [lambda1 + lambda2 > 0], saved, and restored by
    [lifespan]; the random source answers on positive weights with one of
    the words it is given, and exponentiation keeps positive numbers
    positive.  Then every request that the schema accepts and whose
    prefix contains a word is answered, without exception: the generated
    text is the seed followed by between 1 and [max_length] tokens of the
    training corpus, [token_count] counts the seed and these tokens, and
    [stopped_at_eot] tells whether the last token is [<EOT>]; when it is
    not, exactly [max_length] tokens were generated. *)
Theorem service_generate
    (rng : Type) (random_seed : Z -> rng)
    (choices : rng -> list str -> list Q -> result (str * rng))
    (pow : Q -> Q -> result Q)
    (l1 l2 l3 : Q) (corpus : str) (m0 : Trigram.TrigramModel)
    (bpe_file : BPE.State) (st : Trigram.State) (gl : Service.Globals)
    (req : Service.GenerateRequest) (g : rng) :
  (forall g words weights,
      words <> [] -> length words = length weights ->
      Forall (fun x => 0 < x) weights ->
      exists w g', choices g words weights = Ok (w, g')) ->
  (forall g words weights w g',
      choices g words weights = Ok (w, g') -> In w words) ->
  (forall v e, 0 < v -> exists v', pow v e = Ok v' /\ 0 < v') ->
  Trigram.trained l1 l2 l3 corpus m0 ->
  0 <= l1 -> 0 <= l2 -> 0 <= l3 -> 0 < l1 + l2 ->
  Trigram.save m0 = Ok st ->
  Service.lifespan bpe_file st = Ok gl ->
  Service.accepted req ->
  split (Service.prefix req) <> [] ->
  let seed := Service.build_seed (Service.prefix req) in
  exists drawn,
    Service.generate random_seed choices pow gl req g
    = Service.Returns
        {| Service.generated_text := join (lit " ") (seed ++ drawn);
           Service.token_count := Z.of_nat (length seed + length drawn);
           Service.stopped_at_eot := eqb (last drawn []) (lit "<EOT>") |}
    /\ (1 <= length drawn <= Z.to_nat (Service.max_length req))%nat
    /\ Forall (fun t => In t (split corpus)) drawn
    /\ Forall (fun t => t <> lit "<EOT>") (removelast drawn)
    /\ (last drawn [] <> lit "<EOT>" ->
        length drawn = Z.to_nat (Service.max_length req)).
Proof.
  intros Htotal Hsound Hpow Ht H1 H2 H3 H12 Hsave Hlife Hacc Hword seed.
  destruct Hacc as (_ & Hmax & [Htemp _] & Htopk).
  (* the restored model answers like the trained one *)
  unfold Service.lifespan in Hlife.
  rewrite fresh_model_init in Hlife. cbn [bind] in Hlife.
  injection Hlife as <-.
  set (m' := Trigram.load fresh_model st).
  assert (Hwk : well_keyed m0).
  { apply reachable_well_keyed.
    destruct Ht as (mi & Hinit & Htrain).
    eapply Trigram.reach_train; [|exact Htrain].
    eapply Trigram.reach_init; exact Hinit. }
  pose proof (load_trigram_probs fresh_model Hwk Hsave) as Etri.
  fold m' in Etri.
  pose proof Hsave as Hst. rewrite (save_well_keyed Hwk) in Hst.
  injection Hst as <-.
  destruct (@same_tables_prob m0 m') as [_ Hdist]; try reflexivity; auto.
  assert (Egen : forall sd,
             Trigram.generate random_seed choices pow m' sd
               (Service.max_length req) (Service.temperature req)
               (Some (Service.top_k req)) None g
             = Trigram.generate random_seed choices pow m0 sd
                 (Service.max_length req) (Service.temperature req)
                 (Some (Service.top_k req)) None g).
  { intros sd. apply same_tables_generate; [reflexivity | exact Hdist]. }
  (* the seed *)
  pose proof (build_seed_length _ Hword) as Hlen. fold seed in Hlen.
  pose proof (build_seed_word_like (Service.prefix req)) as Hseed.
  fold seed in Hseed.
  assert (Htemp' : 0 < Service.temperature req) by lra.
  destruct (@generate_runs rng random_seed choices pow Htotal Hsound Hpow
              l1 l2 l3 corpus m0 Ht H1 H2 H3 H12 seed
              (Service.max_length req) (Service.temperature req)
              (Service.top_k req) g Htemp' (proj1 Htopk) Hlen)
    as (drawn & Hrun & Hdl & Hall & Hnot & Hlast).
  assert (Hd1 : (1 <= length drawn)%nat).
  { destruct drawn as [|t drawn]; [|simpl; lia].
    destruct Hlast as [E|E]; [simpl in E; lia | vm_compute in E; discriminate]. }
  exists drawn. split; [|repeat split; auto].
  - unfold Service.generate. cbn [Service.tokenizer Service.model].
    fold m'. change (Service.build_seed (Service.prefix req)) with seed.
    assert (Hwords : Forall word_like (seed ++ drawn)).
    { apply Forall_app. split; [exact Hseed|].
      eapply Forall_impl; [|exact Hall]. intros t Hin.
      pose proof (words_word_like corpus) as Hc.
      rewrite Forall_forall in Hc. now apply Hc. }
    clearbody seed. destruct seed as [|s0 seed']; [simpl in Hlen; lia|].
    rewrite Egen, Hrun. rewrite (split_join_words Hwords), length_app.
    f_equal.
    destruct ((s0 :: seed') ++ drawn) as [|x rest] eqn:Eall; [discriminate|].
    rewrite <- Eall. rewrite last_app_nonempty; [reflexivity|].
    destruct drawn; [simpl in Hd1; lia | discriminate].
  - intros Hne. destruct Hlast as [E|E]; [exact E | contradiction].
Qed.

Lemma first_choice_total (g : unit) (words : list str) (weights : list Q) :
  words <> [] -> length words = length weights ->
  Forall (fun x => 0 < x) weights ->
  exists w g', first_choice g words weights = Ok (w, g').
Proof.
  intros Hne _ _. destruct words as [|w words]; [congruence|].
  exists w, g. reflexivity.
Defined.

Lemma no_pow_positive (v e : Q) :
  0 < v -> exists v', no_pow v e = Ok v' /\ 0 < v'.
Proof. intros Hv. exists v. split; [reflexivity | exact Hv]. Defined.

Lemma service_generate_witness :
  exists drawn,
    (1 <= length drawn <= 10)%nat
    /\ Forall (fun t => In t (split (lit "a b c"))) drawn.
Proof.
  assert (Hsave : exists st, Trigram.save abc_model = Ok st)
    by (eexists; reflexivity).
  destruct Hsave as [st Hsave].
  assert (Hlife : exists gl,
             Service.lifespan (BPE.save abc_codec) st = Ok gl)
    by (eexists; reflexivity).
  destruct Hlife as [gl Hlife].
  set (req := {| Service.prefix := lit "a"; Service.max_length := 10;
                 Service.temperature := 4 # 10; Service.top_k := 5 |}).
  assert (Hacc : Service.accepted req).
  { unfold Service.accepted, req. cbn.
    repeat split; try lia; vm_compute; discriminate. }
  assert (Hword : split (Service.prefix req) <> []) by discriminate.
  destruct (@service_generate unit (fun _ => tt) first_choice no_pow
              Trigram.default_lambda1 Trigram.default_lambda2
              Trigram.default_lambda3 (lit "a b c") abc_model
              (BPE.save abc_codec) st gl req tt
              first_choice_total first_choice_sound no_pow_positive
              abc_model_trained)
    as (drawn & _ & Hlen & Hall & _); auto;
    try (vm_compute; discriminate); try reflexivity.
  exists drawn. split; [exact Hlen | exact Hall].
Defined.

(* ================================================================== *)
(** * Properties of the training loop of the codec *)
(* ================================================================== *)

(** ** The pair statistics *)

Section PairStatistics.
Import BPE.

Lemma get_or_incr_other {K} `{Eqb K} (d : dict K Z) (k k' : K) (n : Z) :
  k <> k' -> get_or (incr d k n) k' 0%Z = get_or d k' 0%Z.
Proof. intros Hk. unfold get_or. now rewrite get_incr_other. Qed.

(** The inner loop over the adjacent pairs of one entry *)
Lemma add_pairs_weight (ps : list (str * str)) :
  forall (d : dict (str * str) Z) (f : Z) (p : str * str),
    get_or (fold_left (fun pairs q => incr pairs q f) ps d) p 0%Z
    = (get_or d p 0 + f * occ p ps)%Z.
Proof.
  induction ps as [|q ps IH]; intros d f p; cbn [fold_left].
  - unfold occ. simpl. lia.
  - rewrite IH. unfold occ at 2. cbn [filter].
    destruct (eqb_spec p q) as [->|Hpq].
    + rewrite get_or_incr_same. unfold occ. cbn [length]. lia.
    + rewrite get_or_incr_other by congruence. unfold occ. lia.
Qed.

Lemma add_pairs_keys (ps : list (str * str)) :
  forall (d : dict (str * str) Z) (f : Z) (p : str * str),
    In p (keys (fold_left (fun pairs q => incr pairs q f) ps d))
    <-> In p (keys d) \/ In p ps.
Proof.
  induction ps as [|q ps IH]; intros d f p; cbn [fold_left].
  - simpl. tauto.
  - rewrite IH, keys_incr.
    destruct (existsb (eqb q) (keys d)) eqn:E.
    + apply existsb_eqb_In in E. simpl. split; [tauto|].
      intros [Hin|[<-|Hin]]; auto.
    + rewrite in_app_iff. simpl. tauto.
Qed.

Lemma add_pairs_nodup (ps : list (str * str)) :
  forall (d : dict (str * str) Z) (f : Z),
    NoDup (keys d) ->
    NoDup (keys (fold_left (fun pairs q => incr pairs q f) ps d)).
Proof.
  induction ps as [|q ps IH]; intros d f Hnd; cbn [fold_left]; auto.
  apply IH. now apply NoDup_keys_incr.
Qed.

Lemma get_stats_fold (vocab : dict str Z) :
  forall (d : dict (str * str) Z) (p : str * str),
    let out := fold_left
                 (fun pairs entry =>
                    fold_left (fun pairs q => incr pairs q (snd entry))
                              (adjacent (split (fst entry))) pairs)
                 vocab d in
    get_or out p 0%Z = (get_or d p 0 + pair_weight p vocab)%Z
    /\ (In p (keys out)
        <-> In p (keys d)
            \/ exists e, In e vocab /\ In p (adjacent (split (fst e))))
    /\ (NoDup (keys d) -> NoDup (keys out)).
Proof.
  induction vocab as [|e vocab IH]; intros d p; cbn [fold_left].
  - cbn [pair_weight fold_right]. split; [lia|]. split; [|auto].
    split; [tauto|]. intros [Hin|(e & [] & _)]. exact Hin.
  - destruct (IH (fold_left (fun pairs q => incr pairs q (snd e))
                            (adjacent (split (fst e))) d) p)
      as (Hw & Hk & Hnd).
    split; [|split].
    + rewrite Hw, add_pairs_weight. cbn [pair_weight fold_right].
      fold (pair_weight p vocab). lia.
    + rewrite Hk, add_pairs_keys. split.
      * intros [[Hin|Hin]|(e' & He' & Hin)]; eauto.
        -- right. exists e. split; [now left | exact Hin].
        -- right. exists e'. split; [now right | exact Hin].
      * intros [Hin|(e' & [<-|He'] & Hin)]; eauto.
    + intros Hd. apply Hnd. now apply add_pairs_nodup.
Qed.

End PairStatistics.

(** X16.  [get_stats] returns, for every pair of symbols, the sum over
    the entries of the vocabulary of the entry's frequency times the
    number of places where the two symbols are adjacent in the entry; the
    pairs it lists are exactly those adjacent in some entry, each once. *)
Theorem get_stats_weights (vocab : dict str Z) (p : str * str) :
  get_or (BPE.get_stats vocab) p 0%Z = pair_weight p vocab
  /\ (In p (keys (BPE.get_stats vocab))
      <-> exists word freq,
            In (word, freq) vocab /\ In p (BPE.adjacent (split word)))
  /\ NoDup (keys (BPE.get_stats vocab)).
Proof.
  destruct (get_stats_fold vocab [] p) as (Hw & Hk & Hnd).
  split; [|split].
  - exact Hw.
  - unfold BPE.get_stats. rewrite Hk. split.
    + intros [[]|([word freq] & He & Hin)]. eauto.
    + intros (word & freq & He & Hin). right. exists (word, freq). auto.
  - apply Hnd. constructor.
Qed.

(** ** The substitution of [merge_vocab] merges symbols *)

Section PatternSub.
Import BPE.
Variables (bigram merged : str).

Lemma join_cons2 (x y : str) (rest : list str) :
  join SPACE (x :: y :: rest) = x ++ 32%N :: join SPACE (y :: rest).
Proof. reflexivity. Qed.

(** Inside a symbol nothing matches: the characters are copied. *)
Lemma sub_scan_copy (u r : str) :
  Forall (fun ch => isspace ch = false) u ->
  sub_scan bigram merged 0 false (u ++ r)
  = u ++ sub_scan bigram merged 0 false r.
Proof.
  induction 1 as [|c u Hc _ IH]; [reflexivity|].
  cbn [app sub_scan andb]. now rewrite Hc, IH.
Qed.

Lemma sub_scan_separator (r : str) :
  sub_scan bigram merged 0 false (32%N :: r)
  = 32%N :: sub_scan bigram merged 0 true r.
Proof. reflexivity. Qed.

Lemma sub_scan_head (c : char) (s : str) :
  sub_scan bigram merged 0 true (c :: s)
  = if starts_with bigram (c :: s)
       && followed_by_boundary (length bigram) (c :: s)
    then merged ++ sub_scan bigram merged (length bigram - 1) (isspace c) s
    else c :: sub_scan bigram merged 0 (isspace c) s.
Proof. reflexivity. Qed.

(** The rest of a match is skipped. *)
Lemma sub_scan_skip (p r : str) (ab : bool) :
  sub_scan bigram merged (length p) ab (p ++ r)
  = sub_scan bigram merged 0
             (match rev p with [] => ab | c :: _ => isspace c end) r.
Proof.
  revert ab. induction p as [|c p IH]; intros ab; [reflexivity|].
  cbn [length app sub_scan]. rewrite IH. cbn [rev].
  destruct (rev p) as [|x l]; reflexivity.
Qed.

End PatternSub.

Section BigramMatch.
Import BPE.

(** A word followed by a boundary is determined by the text. *)
Lemma word_prefix_unique (u u' t t' : str) :
  Forall (fun ch => isspace ch = false) u ->
  Forall (fun ch => isspace ch = false) u' ->
  boundary t -> boundary t' ->
  u ++ t = u' ++ t' -> u = u' /\ t = t'.
Proof.
  intros Hu. revert u'. induction Hu as [|c u Hc _ IH]; intros u' Hu' Ht Ht' E.
  - destruct Hu' as [|c' u' Hc' _]; [auto|].
    cbn [app] in E. destruct Ht as [->|(x & t0 & -> & Hx)]; [discriminate|].
    injection E as <- _. congruence.
  - destruct Hu' as [|c' u' Hc' Hu'].
    + cbn [app] in E. destruct Ht' as [->|(x & t0 & -> & Hx)]; [discriminate|].
      injection E as -> _. congruence.
    + cbn [app] in E. injection E as <- E.
      destruct (IH u' Hu' Ht Ht' E) as [-> ->]. auto.
Qed.

Lemma join_boundary (x : str) (rest : list str) :
  exists t, join SPACE (x :: rest) = x ++ t /\ boundary t
            /\ (rest = [] -> t = [])
            /\ (forall y rest', rest = y :: rest' ->
                                t = 32%N :: join SPACE (y :: rest')).
Proof.
  destruct rest as [|y rest].
  - exists []. cbn [join]. rewrite app_nil_r.
    repeat split; auto; [now left | discriminate].
  - exists (32%N :: join SPACE (y :: rest)). rewrite join_cons2.
    repeat split; auto.
    + right. eauto.
    + discriminate.
    + now intros y' rest' [= <- <-].
Qed.

Lemma followed_boundary (n : nat) (s : str) :
  followed_by_boundary n s = true -> boundary (skipn n s).
Proof.
  unfold followed_by_boundary. destruct (skipn n s) as [|c t] eqn:E.
  - now left.
  - intros Hc. right. eauto.
Qed.

Lemma word_like_plain (w : str) :
  word_like w -> Forall (fun ch => isspace ch = false) w.
Proof. now intros [_ H]. Qed.

(** The pattern matches at the start of a symbol exactly when the symbol
    and the next one are the two members of the pair. *)
Lemma bigram_match (a b x : str) (rest : list str) :
  word_like a -> word_like b -> word_like x -> Forall word_like rest ->
  starts_with (a ++ SPACE ++ b) (join SPACE (x :: rest))
  && followed_by_boundary (length (a ++ SPACE ++ b)) (join SPACE (x :: rest))
  = true ->
  x = a /\ exists rest', rest = b :: rest'.
Proof.
  intros Ha Hb Hx Hrest Hm. apply andb_true_iff in Hm.
  destruct Hm as [Hs Hf].
  apply followed_boundary in Hf. apply starts_with_decompose in Hs.
  set (r := skipn (length (a ++ SPACE ++ b)) (join SPACE (x :: rest))) in *.
  destruct (join_boundary x rest) as (t & Ej & Ht & Hnil & Hcons).
  rewrite Ej in Hs. rewrite <- app_assoc in Hs.
  assert (Hb1 : boundary (SPACE ++ b ++ r)).
  { right. exists 32%N, (b ++ r). split; reflexivity. }
  assert (Hs1 : x ++ t = a ++ SPACE ++ b ++ r).
  { rewrite Hs. now rewrite <- !app_assoc. }
  destruct (@word_prefix_unique x a t (SPACE ++ b ++ r)
              (word_like_plain Hx) (word_like_plain Ha) Ht Hb1 Hs1)
    as [-> Et].
  split; [reflexivity|].
  destruct rest as [|y rest'];
    [rewrite (Hnil eq_refl) in Et; discriminate|].
  rewrite (Hcons y rest' eq_refl) in Et.
  change (SPACE ++ b ++ r) with (32%N :: (b ++ r)) in Et.
  assert (Et' : join SPACE (y :: rest') = b ++ r)
    by (injection Et; intros E'; exact E').
  clear Et. rename Et' into Et.
  destruct (join_boundary y rest') as (t2 & Ej2 & Ht2 & _).
  rewrite Ej2 in Et. inversion Hrest as [|? ? Hy Hrest']; subst.
  destruct (@word_prefix_unique y b t2 r
              (word_like_plain Hy) (word_like_plain Hb) Ht2 Hf Et)
    as [-> _].
  eauto.
Qed.

End BigramMatch.

Section PatternSubSymbols.
Import BPE.
Variables (a b : str).
Hypothesis Ha : word_like a.
Hypothesis Hb : word_like b.

Let bigram := a ++ SPACE ++ b.
Let merged := a ++ b.

Lemma boundary_followed (n : nat) (s : str) :
  boundary (skipn n s) -> followed_by_boundary n s = true.
Proof.
  unfold followed_by_boundary.
  intros [->|(c & t & -> & Hc)]; [reflexivity | exact Hc].
Qed.

Lemma bigram_match_here (rest : list str) :
  starts_with bigram (join SPACE (a :: b :: rest))
  && followed_by_boundary (length bigram) (join SPACE (a :: b :: rest))
  = true.
Proof.
  destruct (join_boundary b rest) as (t & Ej & Ht & _).
  assert (E : join SPACE (a :: b :: rest) = bigram ++ t).
  { rewrite join_cons2, Ej. unfold bigram.
    now rewrite <- !app_assoc. }
  rewrite E, starts_with_self_app. cbn [andb].
  apply boundary_followed.
  rewrite skipn_app, Nat.sub_diag, skipn_all. exact Ht.
Qed.

Lemma apply_merge_nonempty (p : str * str) (m y : str) (rest : list str) :
  apply_merge p m (y :: rest) <> [].
Proof.
  destruct rest as [|z rest]; [discriminate|].
  rewrite apply_merge_cons2.
  destruct (eqb y (fst p) && eqb z (snd p)); discriminate.
Qed.

Lemma join_cons_nonempty (x : str) (l : list str) :
  l <> [] -> join SPACE (x :: l) = x ++ 32%N :: join SPACE l.
Proof. destruct l; [congruence | reflexivity]. Qed.

Lemma last_plain (p : str) (ab : bool) :
  p <> [] -> Forall (fun ch => isspace ch = false) p ->
  forall q, match rev (q ++ p) with [] => ab | c :: _ => isspace c end = false.
Proof.
  intros Hne Hp q. destruct (exists_last Hne) as (p' & c & ->).
  rewrite app_assoc, rev_unit.
  apply Forall_app in Hp. destruct Hp as [_ Hc]. now inversion Hc.
Qed.

(** On the symbols of an entry, the substitution is the merging loop of
    [_tokenize_word]. *)
Lemma pattern_sub_symbols (n : nat) :
  forall syms,
    (length syms <= n)%nat -> Forall word_like syms ->
    sub_scan bigram merged 0 true (join SPACE syms)
    = join SPACE (apply_merge (a, b) merged syms).
Proof.
  induction n as [|n IH]; intros syms Hlen Hsyms.
  { destruct syms; [reflexivity | simpl in Hlen; lia]. }
  destruct syms as [|x rest]; [reflexivity|].
  inversion Hsyms as [|? ? Hx Hrest]; subst.
  destruct (join_boundary x rest) as (t & Ej & Ht & Hnil & Hcons).
  destruct x as [|c x']; [destruct Hx; congruence|].
  pose proof (word_like_plain Hx) as Hxp. inversion Hxp as [|? ? Hc Hx']; subst.
  destruct (starts_with bigram (join SPACE ((c :: x') :: rest))
            && followed_by_boundary (length bigram)
                                    (join SPACE ((c :: x') :: rest))) eqn:Em.
  - (* the pair is here *)
    pose proof Em as Em'.
    apply (bigram_match Ha Hb Hx Hrest) in Em'.
    destruct Em' as [Ea (rest' & ->)].
    destruct (join_boundary b rest') as (t2 & Ej2 & Ht2 & Hnil2 & Hcons2).
    assert (Et : x' ++ t = (x' ++ SPACE ++ b) ++ t2).
    { rewrite (Hcons b rest' eq_refl), Ej2. now rewrite <- !app_assoc. }
    assert (Elen : (length bigram - 1 = length (x' ++ SPACE ++ b))%nat).
    { unfold bigram. rewrite <- Ea. cbn [app length]. lia. }
    assert (Escan : sub_scan bigram merged 0 true
                             (join SPACE ((c :: x') :: b :: rest'))
                    = merged ++ sub_scan bigram merged 0 false t2).
    { rewrite Ej at 1. change ((c :: x') ++ t) with (c :: (x' ++ t)).
      rewrite sub_scan_head.
      change (c :: (x' ++ t)) with ((c :: x') ++ t). rewrite <- Ej.
      match goal with
      | |- (if ?cond then _ else _) = _ =>
          assert (Ec : cond = true) by exact Em; rewrite Ec
      end.
      rewrite Et, Elen, sub_scan_skip.
      rewrite app_assoc.
      now rewrite (last_plain (isspace c) (proj1 Hb) (word_like_plain Hb)). }
    etransitivity; [exact Escan|].
    rewrite Ea, apply_merge_cons2. cbn [fst snd].
    rewrite !eqb_refl. cbn [andb].
    destruct rest' as [|y rest''].
    + rewrite (Hnil2 eq_refl). cbn [sub_scan apply_merge join].
      now rewrite app_nil_r.
    + rewrite (Hcons2 y rest'' eq_refl), sub_scan_separator.
      rewrite IH; [|simpl in *; lia | now inversion Hrest].
      now rewrite join_cons_nonempty by apply apply_merge_nonempty.
  - (* no match: the symbol is copied *)
    assert (Escan : sub_scan bigram merged 0 true
                             (join SPACE ((c :: x') :: rest))
                    = (c :: x') ++ sub_scan bigram merged 0 false t).
    { rewrite Ej at 1. change ((c :: x') ++ t) with (c :: (x' ++ t)).
      rewrite sub_scan_head.
      change (c :: (x' ++ t)) with ((c :: x') ++ t). rewrite <- Ej.
      match goal with
      | |- (if ?cond then _ else _) = _ =>
          assert (Ec : cond = false) by exact Em; rewrite Ec
      end.
      rewrite Hc. now rewrite sub_scan_copy. }
    etransitivity; [exact Escan|].
    destruct rest as [|y rest'].
    + rewrite (Hnil eq_refl). cbn [sub_scan apply_merge join].
      now rewrite app_nil_r.
    + rewrite (Hcons y rest' eq_refl), sub_scan_separator.
      rewrite IH; [|simpl in *; lia | exact Hrest].
      rewrite apply_merge_cons2. cbn [fst snd].
      match goal with
      | |- context [if ?cond then _ else _] => destruct cond eqn:Eab
      end.
      * exfalso. apply andb_true_iff in Eab. destruct Eab as [Ea Eb].
        apply eqb_eq in Ea, Eb. subst y. rewrite Ea in Em.
        rewrite bigram_match_here in Em. discriminate.
      * now rewrite join_cons_nonempty by apply apply_merge_nonempty.
Qed.

End PatternSubSymbols.

(** ** [merge_vocab] on the vocabulary of a corpus *)

Section MergeVocab.
Import BPE.

Lemma apply_merge_concat (a b : str) (n : nat) :
  forall syms, (length syms <= n)%nat ->
    concat (apply_merge (a, b) (a ++ b) syms) = concat syms.
Proof.
  induction n as [|n IH]; intros syms Hlen.
  { destruct syms; [reflexivity | simpl in Hlen; lia]. }
  destruct syms as [|x [|y rest]]; [reflexivity | reflexivity |].
  rewrite apply_merge_cons2. cbn [fst snd].
  destruct (eqb x a && eqb y b) eqn:E.
  - apply andb_true_iff in E. destruct E as [Ex Ey].
    apply eqb_eq in Ex, Ey. subst x y.
    cbn [concat]. rewrite IH by (simpl in Hlen; lia).
    now rewrite <- app_assoc.
  - cbn [concat]. rewrite IH by (simpl in *; lia). reflexivity.
Qed.

Lemma word_like_app (a b : str) : word_like a -> word_like b -> word_like (a ++ b).
Proof.
  intros [Ha Hap] [Hb Hbp]. split.
  - intros E. apply app_eq_nil in E. tauto.
  - apply Forall_app. auto.
Qed.

Lemma apply_merge_word_like (a b : str) (syms : list str) :
  word_like a -> word_like b -> Forall word_like syms ->
  Forall word_like (apply_merge (a, b) (a ++ b) syms).
Proof.
  intros Ha Hb Hs. apply Forall_forall. intros s Hin.
  apply apply_merge_In in Hin. destruct Hin as [Hin| ->].
  - rewrite Forall_forall in Hs. auto.
  - now apply word_like_app.
Qed.

Variables (a b : str).
Hypothesis Ha : word_like a.
Hypothesis Hb : word_like b.

Let rule : merge_rule := ((a, b), a ++ b).

Lemma pattern_sub_key (k : str) :
  symbol_key k ->
  pattern_sub (a, b) k = resegment [rule] k.
Proof.
  intros [Hw Hj]. unfold pattern_sub, resegment, merged_symbols.
  cbn [fst snd fold_left rule]. rewrite <- Hj at 1.
  now apply (pattern_sub_symbols Ha Hb (n := length (split k))).
Qed.

Lemma split_resegment (k : str) :
  symbol_key k ->
  split (resegment [rule] k) = apply_merge (a, b) (a ++ b) (split k).
Proof.
  intros [Hw _]. unfold resegment, merged_symbols. cbn [fold_left fst snd rule].
  change SPACE with (lit " ").
  apply split_join_words. now apply apply_merge_word_like.
Qed.

Lemma resegment_key (k : str) : symbol_key k -> symbol_key (resegment [rule] k).
Proof.
  intros Hk. pose proof (split_resegment Hk) as Es. split.
  - rewrite Es. apply apply_merge_word_like; auto. apply Hk.
  - rewrite Es. reflexivity.
Qed.

Lemma resegment_spell (k : str) :
  symbol_key k -> concat (split (resegment [rule] k)) = concat (split k).
Proof.
  intros Hk. rewrite (split_resegment Hk).
  now apply (apply_merge_concat a b (n := length (split k))).
Qed.

Variable V : dict str Z.
Hypothesis HV : corpus_vocab V.

Lemma resegment_inj : inj_on (resegment [rule]) (keys V).
Proof.
  intros k1 k2 H1 H2 E. apply (cv_spell HV); auto.
  rewrite <- (resegment_spell (cv_keys HV _ H1)).
  rewrite <- (resegment_spell (cv_keys HV _ H2)). now rewrite E.
Qed.

Lemma keys_segmented (rules : list merge_rule) (W : dict str Z) :
  keys (segmented rules W) = List.map (resegment rules) (keys W).
Proof. unfold segmented, keys. now rewrite !map_map. Qed.

Lemma merge_vocab_segmented : merge_vocab (a, b) V = segmented [rule] V.
Proof.
  unfold merge_vocab.
  assert (E : forall (W out : dict str Z),
             (forall k, In k (keys W) -> symbol_key k) ->
             fold_left (fun out e => set out (pattern_sub (a, b) (fst e))
                                        (snd e)) W out
             = fold_left (fun out e => set out (resegment [rule] (fst e))
                                          (snd e)) W out).
  { induction W as [|[k f] W IH]; intros out Hk; [reflexivity|].
    cbn [fold_left fst snd]. rewrite pattern_sub_key by (apply Hk; now left).
    apply IH. intros k' Hk'. apply Hk. now right. }
  rewrite E by apply (cv_keys HV).
  rewrite (fold_set_fresh (fun e => resegment [rule] (fst e)) snd).
  - reflexivity.
  - rewrite <- (map_map fst (resegment [rule])).
    apply NoDup_map_inj_on; [apply resegment_inj | apply (cv_nodup HV)].
  - simpl. auto.
Qed.

Lemma segmented_corpus_vocab : corpus_vocab (segmented [rule] V).
Proof.
  constructor.
  - rewrite keys_segmented.
    apply NoDup_map_inj_on; [apply resegment_inj | apply (cv_nodup HV)].
  - intros k Hk. rewrite keys_segmented in Hk. apply in_map_iff in Hk.
    destruct Hk as (k0 & <- & Hk0). apply resegment_key, (cv_keys HV), Hk0.
  - intros k1 k2 H1 H2 E. rewrite keys_segmented in H1, H2.
    apply in_map_iff in H1, H2.
    destruct H1 as (k1' & <- & H1). destruct H2 as (k2' & <- & H2).
    f_equal. apply (cv_spell HV); auto.
    rewrite <- (resegment_spell (cv_keys HV _ H1)).
    now rewrite <- (resegment_spell (cv_keys HV _ H2)).
Qed.

End MergeVocab.

(** ** Every rule merges a most frequent pair *)

Section BestPair.
Import BPE.

Lemma max_by_value_spec (rest : dict (str * str) Z) :
  forall best,
    exists v, In (max_by_value best rest, v) (best :: rest)
              /\ forall e, In e (best :: rest) -> (snd e <= v)%Z.
Proof.
  induction rest as [|p rest IH]; intros best; cbn [max_by_value].
  - exists (snd best). split; [left; now destruct best|].
    intros e [<-|[]]. lia.
  - destruct (Z.ltb_spec (snd best) (snd p)) as [Hlt|Hge].
    + destruct (IH p) as (v & Hin & Hmax). exists v. split.
      * right. exact Hin.
      * intros e [<-|He]; [|now apply Hmax].
        specialize (Hmax p (or_introl eq_refl)). lia.
    + destruct (IH best) as (v & Hin & Hmax). exists v. split.
      * destruct Hin as [Hin|Hin]; [left; exact Hin | right; right; exact Hin].
      * intros e [<-|[<-|He]].
        -- apply Hmax. now left.
        -- specialize (Hmax best (or_introl eq_refl)). lia.
        -- apply Hmax. now right.
Qed.

Lemma In_adjacent (l : list str) (x y : str) :
  In (x, y) (adjacent l) -> In x l /\ In y l.
Proof.
  induction l as [|a l IH]; [intros []|].
  destruct l as [|b l]; [intros []|].
  change (adjacent (a :: b :: l)) with ((a, b) :: adjacent (b :: l)).
  intros [[= <- <-]|Hin].
  - simpl. auto.
  - apply IH in Hin. simpl in *. tauto.
Qed.

Lemma mergeable_In (V : dict str Z) (q : str * str) (v : Z) :
  In (q, v) (mergeable V)
  <-> In (q, v) (get_stats V)
      /\ is_special (fst q) = false /\ is_special (snd q) = false.
Proof.
  unfold mergeable. rewrite filter_In. cbn [fst snd].
  rewrite andb_true_iff, !negb_true_iff. tauto.
Qed.

Lemma get_stats_value (V : dict str Z) (q : str * str) (v : Z) :
  In (q, v) (get_stats V) -> v = pair_weight q V.
Proof.
  intros Hin. destruct (get_stats_fold V [] q) as (Hw & _ & Hnd).
  apply In_get_nodup in Hin; [|apply Hnd; constructor].
  cbn [get_or get] in Hw. unfold get_stats in Hin.
  unfold get_or in Hw. rewrite Hin in Hw. lia.
Qed.

(** The pair of a best rule: adjacent in the vocabulary, without a
    control token, and of maximal weight among such pairs. *)
Lemma best_rule_maximal (V : dict str Z) (r : merge_rule) :
  best_rule V r ->
  In (fst r) (keys (get_stats V))
  /\ is_special (fst (fst r)) = false
  /\ is_special (snd (fst r)) = false
  /\ forall q, In q (keys (get_stats V)) ->
               is_special (fst q) = false -> is_special (snd q) = false ->
               (pair_weight q V <= pair_weight (fst r) V)%Z.
Proof.
  intros (_ & p & rest & Em & Er).
  destruct (max_by_value_spec rest p) as (v & Hin & Hmax).
  rewrite <- Er, <- Em in *.
  pose proof Hin as Hin'. apply mergeable_In in Hin'.
  destruct Hin' as (Hst & Hs1 & Hs2).
  pose proof (get_stats_value _ _ _ Hst) as Ev.
  split; [|split; [exact Hs1|split; [exact Hs2|]]].
  - unfold keys. change (fst r) with (fst (fst r, v)). now apply in_map.
  - intros q Hq H1 H2. unfold keys in Hq. apply in_map_iff in Hq.
    destruct Hq as ([q' vq] & Eq & Hq). cbn [fst] in Eq. subst q'.
    rewrite <- Ev, <- (get_stats_value _ _ _ Hq).
    apply (Hmax (q, vq)). apply mergeable_In. auto.
Qed.

End BestPair.

Section LoopSegmented.
Import BPE.
Variable V0 : dict str Z.
Hypothesis HV0 : corpus_vocab V0.

Lemma resegment_nil (k : str) : symbol_key k -> resegment [] k = k.
Proof. intros [_ Hj]. exact Hj. Qed.

Lemma segmented_nil : segmented [] V0 = V0.
Proof.
  unfold segmented. rewrite <- (map_id V0) at 2.
  apply map_ext_in. intros [k f] Hin. cbn [fst snd]. f_equal.
  apply resegment_nil, (cv_keys HV0).
  unfold keys. change k with (fst (k, f)). now apply in_map.
Qed.

Lemma loop_segmented_init (unique : list str) :
  loop_segmented V0 {| ls_vocab := V0; ls_unique := unique; ls_merges := [] |}.
Proof.
  constructor; cbn [ls_vocab ls_merges].
  - now rewrite segmented_nil.
  - now rewrite segmented_nil.
  - intros k Hk. now rewrite resegment_nil by (now apply (cv_keys HV0)).
Qed.

Lemma stats_pair_word_like (V : dict str Z) (q : str * str) :
  corpus_vocab V -> In q (keys (get_stats V)) ->
  word_like (fst q) /\ word_like (snd q).
Proof.
  intros HV Hq. destruct (get_stats_fold V [] q) as (_ & Hk & _).
  apply Hk in Hq. destruct Hq as [[]|(e & He & Hadj)].
  destruct q as [x y]. apply In_adjacent in Hadj.
  assert (Hkey : symbol_key (fst e)).
  { apply (cv_keys HV). unfold keys. now apply in_map. }
  destruct Hkey as [Hw _]. rewrite Forall_forall in Hw.
  cbn [fst snd]. split; apply Hw; tauto.
Qed.

Lemma merged_symbols_snoc (pre : list merge_rule) (r : merge_rule)
    (syms : list str) :
  merged_symbols (pre ++ [r]) syms
  = apply_merge (fst r) (snd r) (merged_symbols pre syms).
Proof. unfold merged_symbols. now rewrite fold_left_app. Qed.

Lemma loop_segmented_step (st : loop_state) (p : (str * str) * Z)
    (rest : dict (str * str) Z) (unique : list str) :
  loop_segmented V0 st ->
  mergeable (ls_vocab st) = p :: rest ->
  let best := max_by_value p rest in
  let r : merge_rule := (best, fst best ++ snd best) in
  loop_segmented V0 {| ls_vocab := merge_vocab best (ls_vocab st);
                       ls_unique := unique;
                       ls_merges := ls_merges st ++ [r] |}
  /\ best_rule (segmented (ls_merges st) V0) r.
Proof.
  intros [Hv Hc Hs] Em best r.
  set (pre := ls_merges st) in *.
  assert (Hbest : best_rule (segmented pre V0) r).
  { split; [reflexivity|]. exists p, rest. now rewrite <- Hv. }
  split; [|exact Hbest].
  destruct (best_rule_maximal Hbest) as (Hin & _).
  destruct (@stats_pair_word_like _ _ Hc Hin) as [Ha Hb].
  cbn [fst r] in Ha, Hb.
  destruct best as [a b] eqn:Eb. cbn [fst snd] in *.
  assert (Eres : forall k, In k (keys V0) ->
                   resegment [r] (resegment pre k) = resegment (pre ++ [r]) k).
  { intros k Hk. unfold resegment at 1 3.
    rewrite merged_symbols_snoc, <- (Hs k Hk). reflexivity. }
  assert (Eseg : segmented [r] (segmented pre V0) = segmented (pre ++ [r]) V0).
  { unfold segmented. rewrite map_map. apply map_ext_in.
    intros [k f] Hk. cbn [fst snd]. f_equal. apply Eres.
    unfold keys. change k with (fst (k, f)). now apply in_map. }
  constructor; cbn [ls_vocab ls_merges].
  - rewrite Hv. fold pre. rewrite <- Eseg.
    now apply merge_vocab_segmented.
  - rewrite <- Eseg. now apply segmented_corpus_vocab.
  - intros k Hk. rewrite <- (Eres k Hk), merged_symbols_snoc, <- (Hs k Hk).
    apply (split_resegment Ha Hb).
    apply (cv_keys Hc). rewrite keys_segmented. now apply in_map.
Qed.

Lemma merge_loop_extends (n : nat) (st : loop_state) :
  exists more, ls_merges (merge_loop n st) = ls_merges st ++ more.
Proof.
  revert st. induction n as [|n IH]; intros st; cbn [merge_loop].
  - exists []. now rewrite app_nil_r.
  - destruct (mergeable (ls_vocab st)) as [|p rest].
    + exists []. now rewrite app_nil_r.
    + match goal with |- context [merge_loop n ?s] => destruct (IH s) as [more E] end.
      cbn [ls_merges] in E. rewrite E, <- app_assoc. eauto.
Qed.

Lemma app_pivot {A} (l1 l2 t1 t2 : list A) (x y : A) :
  l1 ++ x :: t1 = l2 ++ y :: t2 -> length l1 = length l2 ->
  l1 = l2 /\ x = y.
Proof.
  revert l2. induction l1 as [|a l1 IH]; intros [|b l2] E Hlen;
    try discriminate.
  - injection E as -> _. auto.
  - injection E as -> E. injection Hlen as Hlen.
    destruct (IH l2 E Hlen) as [-> ->]. auto.
Qed.

(** Every rule added by the loop was a best rule for the vocabulary as
    segmented by the rules before it. *)
Lemma merge_loop_best (n : nat) :
  forall st,
    loop_segmented V0 st ->
    forall pre r post,
      ls_merges (merge_loop n st) = pre ++ r :: post ->
      (length (ls_merges st) <= length pre)%nat ->
      best_rule (segmented pre V0) r.
Proof.
  induction n as [|n IH]; intros st Hst pre r post E Hlen; cbn [merge_loop] in E.
  - rewrite E, length_app in Hlen. simpl in Hlen. lia.
  - destruct (mergeable (ls_vocab st)) as [|p rest] eqn:Em.
    + rewrite E, length_app in Hlen. simpl in Hlen. lia.
    + destruct (loop_segmented_step
                  (add (ls_unique st)
                       (fst (max_by_value p rest) ++ snd (max_by_value p rest)))
                  Hst Em) as [Hst' Hbest].
      destruct (Nat.eq_dec (length (ls_merges st)) (length pre)) as [El|Hne].
      * match type of E with
        | context [merge_loop n ?s] =>
            destruct (merge_loop_extends n s) as [more Emore]
        end.
        cbn [ls_merges] in Emore. rewrite Emore, <- app_assoc in E.
        cbn [app] in E. apply app_pivot in E; [|exact El].
        destruct E as [<- <-]. exact Hbest.
      * eapply IH; [exact Hst' | exact E |].
        cbn [ls_merges]. rewrite length_app. simpl. lia.
Qed.

End LoopSegmented.

(** ** The vocabulary of a corpus before the first merge *)

Section InitialCorpusVocab.
Import BPE.

Lemma join_snoc (l : list str) (x : str) :
  l <> [] -> join SPACE (l ++ [x]) = join SPACE l ++ SPACE ++ x.
Proof.
  induction l as [|y l IH]; [congruence|]. intros _.
  destruct l as [|z l]; [reflexivity|].
  change (join SPACE ((y :: z :: l) ++ [x]))
    with (y ++ SPACE ++ join SPACE ((z :: l) ++ [x])).
  rewrite IH by discriminate.
  change (join SPACE (y :: z :: l)) with (y ++ SPACE ++ join SPACE (z :: l)).
  now rewrite <- !app_assoc.
Qed.

Lemma chars_word_like (w : str) :
  Forall (fun ch => isspace ch = false) w -> Forall word_like (chars w).
Proof.
  induction 1 as [|c w Hc _ IH]; constructor; auto.
  split; [discriminate|]. now constructor.
Qed.

Lemma special_word_like (t : str) : In t special_tokens -> word_like t.
Proof.
  simpl. intros [<-|[<-|[<-|[]]]]; (split; [discriminate|]);
    repeat constructor.
Qed.

Lemma end_of_word_word_like : word_like END_OF_WORD.
Proof. split; [discriminate|]. repeat constructor. Qed.

Lemma entry_symbols_word_like (e : entry) :
  corpus_entry e -> Forall word_like (entry_symbols e).
Proof.
  destruct e as [t|w]; cbn [corpus_entry entry_symbols].
  - intros Ht. constructor; [now apply special_word_like|constructor].
  - intros [_ Hw]. apply Forall_app. split; [now apply chars_word_like|].
    constructor; [apply end_of_word_word_like|constructor].
Qed.

Lemma entry_key_join (e : entry) :
  corpus_entry e -> entry_key e = join SPACE (entry_symbols e).
Proof.
  destruct e as [t|w]; cbn [corpus_entry entry_symbols entry_key];
    [reflexivity|].
  intros [Hne _]. rewrite join_snoc; [reflexivity|].
  destruct w; [congruence|discriminate].
Qed.

Lemma split_entry_key (e : entry) :
  corpus_entry e -> split (entry_key e) = entry_symbols e.
Proof.
  intros He. rewrite (@entry_key_join e He).
  apply split_join_words, entry_symbols_word_like, He.
Qed.

Lemma entry_key_symbol_key (e : entry) :
  corpus_entry e -> symbol_key (entry_key e).
Proof.
  intros He. split; rewrite (@split_entry_key e He).
  - now apply entry_symbols_word_like.
  - symmetry. now apply entry_key_join.
Qed.

Lemma special_not_marked (t w : str) :
  In t special_tokens -> t <> w ++ END_OF_WORD.
Proof.
  intros Ht E. apply (f_equal (@rev char)) in E.
  rewrite rev_app_distr in E.
  simpl in Ht. destruct Ht as [<-|[<-|[<-|[]]]]; discriminate E.
Qed.

Lemma entry_key_spell (e1 e2 : entry) :
  corpus_entry e1 -> corpus_entry e2 ->
  concat (split (entry_key e1)) = concat (split (entry_key e2)) ->
  entry_key e1 = entry_key e2.
Proof.
  intros H1 H2. rewrite (@split_entry_key e1 H1), (@split_entry_key e2 H2).
  destruct e1 as [t1|w1], e2 as [t2|w2];
    cbn [entry_symbols entry_key concat corpus_entry] in *;
    rewrite ?concat_app, ?chars_concat; cbn [concat]; rewrite ?app_nil_r.
  - auto.
  - intros E. now apply special_not_marked in E.
  - intros E. symmetry in E. now apply special_not_marked in E.
  - intros E. apply app_inv_tail in E. now subst.
Qed.

(** Counting the keys of entries gives a vocabulary of a corpus, with
    positive frequencies. *)
Lemma entries_corpus_vocab (es : list entry) :
  Forall corpus_entry es ->
  corpus_vocab (count_all [] (List.map entry_key es)).
Proof.
  intros Hes. rewrite Forall_forall in Hes.
  assert (Hk : forall k, In k (keys (count_all [] (List.map entry_key es))) ->
                 exists e, k = entry_key e /\ corpus_entry e).
  { intros k Hin. rewrite keys_count_all, In_distinct in Hin.
    apply in_map_iff in Hin. destruct Hin as (e & <- & He). eauto. }
  constructor.
  - apply NoDup_keys_count_all.
  - intros k Hin. destruct (Hk k Hin) as (e & -> & He).
    now apply entry_key_symbol_key.
  - intros k1 k2 H1 H2.
    destruct (Hk k1 H1) as (e1 & -> & He1).
    destruct (Hk k2 H2) as (e2 & -> & He2).
    now apply entry_key_spell.
Qed.

Lemma initial_vocab_words (a b c corpus : str) :
  Permutation [a; b; c] special_tokens ->
  exists es, Forall corpus_entry es
    /\ initial_vocab [a; b; c] corpus = count_all [] (List.map entry_key es).
Proof.
  intros HP.
  assert (Hin : forall t, In t [a; b; c] -> In t special_tokens).
  { intros t. apply Permutation_in. exact HP. }
  assert (Hnd : NoDup [a; b; c]).
  { eapply Permutation_NoDup; [symmetry; exact HP|].
    repeat constructor; simpl; intuition discriminate. }
  assert (Hab : a <> b /\ a <> c /\ b <> c).
  { inversion Hnd as [|? ? Hna Hnd']; subst.
    inversion Hnd' as [|? ? Hnb _]; subst.
    simpl in Hna, Hnb. repeat split; intros ->; tauto. }
  destruct Hab as (Hab & Hac & Hbc).
  unfold initial_vocab. rewrite protect_three.
  match goal with
  | |- context [split ?s] => set (safe := s)
  end.
  exists (List.map (classify_by (protected a b c)) (split safe)). split.
  - apply Forall_forall. intros e He. apply in_map_iff in He.
    destruct He as (w & <- & Hw).
    pose proof (words_word_like safe) as Hws. rewrite Forall_forall in Hws.
    unfold classify_by.
    destruct (get (protected a b c) w) as [t|] eqn:Eg; cbn [corpus_entry].
    + apply get_protected in Eg.
      destruct Eg as [[_ ->]|[[_ ->]|[_ ->]]]; apply Hin; simpl; auto.
    + now apply Hws.
  - apply vocab_of_words.
    + intros k t Hg. apply get_protected in Hg.
      destruct Hg as [[-> ->]|[[-> ->]|[-> ->]]]; split;
        try (apply placeholder_no_space; lia);
        apply special_no_space, Hin; simpl; auto.
    + intros k k' t Hg Hg'. apply get_protected in Hg, Hg'.
      destruct Hg as [[-> ->]|[[-> ->]|[-> ->]]];
        destruct Hg' as [[-> E]|[[-> E]|[-> E]]]; congruence.
Qed.

Lemma initial_corpus_vocab (order : list str) (corpus : str) :
  Permutation order special_tokens ->
  corpus_vocab (initial_vocab order corpus)
  /\ Forall (fun e => (0 < snd e)%Z) (initial_vocab order corpus).
Proof.
  intros HP. destruct (@permutation_of_three order HP) as (a & b & c & ->).
  destruct (@initial_vocab_words a b c corpus HP) as (es & Hes & ->).
  split; [now apply entries_corpus_vocab|].
  apply Forall_forall. intros [k v] Hin. now apply In_count_all in Hin.
Qed.

End InitialCorpusVocab.

(** ** The weight of the chosen pair *)

Section ChosenPair.
Import BPE.

Lemma pair_weight_nonneg (q : str * str) (V : dict str Z) :
  Forall (fun e => (0 < snd e)%Z) V -> (0 <= pair_weight q V)%Z.
Proof.
  induction 1 as [|e V He _ IH]; cbn [pair_weight fold_right]; [lia|].
  fold (pair_weight q V).
  pose proof (occ_nonneg q (adjacent (split (fst e)))). nia.
Qed.

Lemma pair_weight_absent (q : str * str) (V : dict str Z) :
  ~ In q (keys (get_stats V)) -> pair_weight q V = 0%Z.
Proof.
  intros Hq. destruct (get_stats_fold V [] q) as (Hw & _).
  assert (Hw' : get_or (get_stats V) q 0%Z = pair_weight q V) by exact Hw.
  rewrite <- Hw'. apply get_None_keys in Hq. unfold get_or.
  now rewrite Hq.
Qed.

Lemma segmented_positive (rules : list merge_rule) (V : dict str Z) :
  Forall (fun e => (0 < snd e)%Z) V ->
  Forall (fun e => (0 < snd e)%Z) (segmented rules V).
Proof.
  intros HV. unfold segmented. apply Forall_map.
  eapply Forall_impl; [|exact HV]. now intros [k v].
Qed.

End ChosenPair.

Section ChosenPairWeight.
Import BPE.

Lemma pair_weight_positive (q : str * str) (V : dict str Z) (word : str)
    (freq : Z) :
  Forall (fun e => (0 < snd e)%Z) V ->
  In (word, freq) V -> In q (adjacent (split word)) ->
  (0 < pair_weight q V)%Z.
Proof.
  induction 1 as [|e V He HV IH]; intros Hin Hq; [destruct Hin|].
  cbn [pair_weight fold_right]. fold (pair_weight q V).
  pose proof (pair_weight_nonneg q HV) as Hnn.
  pose proof (occ_nonneg q (adjacent (split (fst e)))) as Ho.
  destruct Hin as [->|Hin].
  - apply occ_pos_In in Hq. cbn [fst snd] in *. nia.
  - specialize (IH Hin Hq). nia.
Qed.

Lemma stats_key_occurs (V : dict str Z) (q : str * str) :
  In q (keys (get_stats V)) ->
  exists word freq, In (word, freq) V /\ In q (adjacent (split word)).
Proof.
  intros Hq. destruct (get_stats_fold V [] q) as (_ & Hk & _).
  apply Hk in Hq. destruct Hq as [[]|([word freq] & He & Hin)]. eauto.
Qed.

End ChosenPairWeight.





(* ================================================================== *)
(** * Training a model a second time *)
(* ================================================================== *)

Section Overwrite.
Context {K V : Type} `{Eqb K}.

Lemma NoDup_app_disjoint {A} (l1 l2 : list A) (a : A) :
  NoDup (l1 ++ l2) -> In a l1 -> ~ In a l2.
Proof.
  induction l1 as [|x l1 IH]; [intros _ []|].
  simpl. intros Hnd [->|Hin] Ha; inversion Hnd as [|? ? Hx Hnd']; subst.
  - apply Hx, in_app_iff. now right.
  - now apply IH.
Qed.

Lemma set_keys_prefix (d : dict K V) (k : K) (v : V) :
  exists d' new, set d k v = d' ++ new /\ keys d' = keys d.
Proof.
  destruct (get d k) as [v0|] eqn:Eg.
  - exists (set d k v), []. rewrite app_nil_r. split; [reflexivity|].
    apply keys_set_present. congruence.
  - exists d, [(k, v)]. split; [now apply set_absent|reflexivity].
Qed.

Lemma fold_set_cons_other {A} (f : A -> K) (g : A -> V) (items : list A)
    (k : K) (v : V) :
  ~ In k (List.map f items) ->
  forall d,
    fold_left (fun p it => set p (f it) (g it)) items ((k, v) :: d)
    = (k, v) :: fold_left (fun p it => set p (f it) (g it)) items d.
Proof.
  induction items as [|x items IH]; intros Hk d; [reflexivity|].
  cbn [fold_left set]. simpl in Hk.
  rewrite (eqb_neq (x := k) (y := f x)) by (intros E; apply Hk; left; now rewrite E).
  apply IH. tauto.
Qed.

(** Writing every key of a dictionary again, in the order of the
    dictionary, replaces every value and keeps the order. *)
Lemma fold_set_overwrite {A} (f : A -> K) (g : A -> V) (items : list A) :
  NoDup (List.map f items) ->
  forall d, keys d = List.map f items ->
    fold_left (fun p it => set p (f it) (g it)) items d
    = List.map (fun it => (f it, g it)) items.
Proof.
  induction items as [|x items IH]; intros Hnd d Hd.
  - destruct d; [reflexivity|discriminate].
  - destruct d as [|[k v] d]; [discriminate|].
    injection Hd as -> Hd. inversion Hnd as [|? ? Hx Hnd']; subst.
    cbn [fold_left set map]. rewrite eqb_refl.
    rewrite fold_set_cons_other by exact Hx.
    f_equal. now apply IH.
Qed.

Lemma fold_set_extend {A} (f : A -> K) (g : A -> V) (old new : list A)
    (d : dict K V) :
  NoDup (List.map f (old ++ new)) ->
  keys d = List.map f old ->
  fold_left (fun p it => set p (f it) (g it)) (old ++ new) d
  = List.map (fun it => (f it, g it)) (old ++ new).
Proof.
  intros Hnd Hd. rewrite map_app in Hnd.
  rewrite fold_left_app.
  assert (E : fold_left (fun p it => set p (f it) (g it)) old d
              = List.map (fun it => (f it, g it)) old).
  { apply fold_set_overwrite; [|exact Hd].
    now apply NoDup_app_remove_r in Hnd. }
  rewrite E, fold_set_fresh; [now rewrite map_app| |].
  - now apply NoDup_app_remove_l in Hnd.
  - intros x Hx Hin. unfold keys in Hin. rewrite map_map in Hin.
    cbn [fst] in Hin.
    apply (NoDup_app_disjoint _ _ (f x) Hnd Hin). now apply in_map.
Qed.

End Overwrite.

Section CountMore.
Context {K : Type} `{Eqb K}.

Lemma count_all_app (d : dict K Z) (ks ks' : list K) :
  count_all d (ks ++ ks') = count_all (count_all d ks) ks'.
Proof. unfold count_all. now rewrite fold_left_app. Qed.

(** Counting more keys keeps the entries already there in place. *)
Lemma count_all_prefix (d : dict K Z) (ks : list K) :
  exists d' new, count_all d ks = d' ++ new /\ keys d' = keys d.
Proof.
  induction ks as [|k ks IH] using rev_ind.
  - exists d, []. now rewrite app_nil_r.
  - destruct IH as (d' & new & E & Hk).
    rewrite count_all_snoc. unfold incr.
    destruct (set_keys_prefix (count_all d ks) k
                (get_or (count_all d ks) k 0 + 1)%Z) as (X & new' & -> & HX).
    rewrite E in HX. unfold keys in HX. rewrite map_app in HX.
    apply map_eq_app in HX. destruct HX as (Xa & Xb & -> & Ha & _).
    exists Xa, (Xb ++ new'). split; [now rewrite app_assoc|].
    unfold keys. now rewrite Ha.
Qed.

End CountMore.

Section Retrained.
Import Trigram.

Variables (l1 l2 l3 : Q) (c1 c2 : str) (m1 m2 : TrigramModel).
Hypothesis Htrained : trained l1 l2 l3 c1 m1.
Hypothesis Hagain : train m1 c2 = Ok m2.

Let t1 := split c1.
Let t2 := split c2.

Lemma retrained_unfold :
  (3 <= length t2)%nat /\ m2 = train_tokens m1 t2.
Proof.
  unfold train in Hagain. fold t2 in Hagain.
  destruct (length t2 <? 3)%nat eqn:Hlen; [discriminate|].
  injection Hagain as <-. apply Nat.ltb_ge in Hlen. auto.
Qed.

Lemma retrained_unigram_counts :
  unigram_counts m2 = count_all [] (t1 ++ t2).
Proof.
  destruct retrained_unfold as (_ & ->).
  destruct (trained_unfold Htrained) as (_ & _ & ->).
  cbn [train_tokens unigram_counts]. fold t1. now rewrite count_all_app.
Qed.

Lemma retrained_unigram_probs :
  unigram_probs m2
  = List.map (fun kv => (fst kv, inject_Z (snd kv)
                                 / inject_Z (Z.of_nat (length t2))))
             (count_all [] (t1 ++ t2)).
Proof.
  pose proof (trained_unigram_probs Htrained) as E1. fold t1 in E1.
  destruct retrained_unfold as (_ & E2).
  assert (Eu : unigram_probs m2
               = fold_left (unigram_step (Z.of_nat (length t2)))
                           (count_all (unigram_counts m1) t2)
                           (unigram_probs m1)) by now rewrite E2.
  assert (Ec : unigram_counts m1 = count_all [] t1).
  { destruct (trained_unfold Htrained) as (_ & _ & ->). reflexivity. }
  rewrite Eu, Ec, E1. clear Eu Ec E1 E2.
  pose proof (NoDup_keys_count_all (t1 ++ t2)) as Hnd.
  rewrite count_all_app in *.
  destruct (count_all_prefix (count_all [] t1) t2) as (old & new & E & Hk).
  rewrite E in *. unfold unigram_step.
  apply (fold_set_extend fst
           (fun it => inject_Z (snd it) / inject_Z (Z.of_nat (length t2)))).
  - exact Hnd.
  - unfold keys in *. rewrite map_map. cbn [fst]. now rewrite Hk.
Qed.

End Retrained.

(** X19.  [train] does not start afresh: on an instance that was trained
    on a first corpus, a second call adds the counts of the second corpus
    to those of the first but divides by the number of tokens of the
    second corpus alone.  Every unigram probability is the count in both
    corpora over the length of the second, and the unigram probabilities
    add up to more than 1. *)
Theorem retraining_accumulates
    (l1 l2 l3 : Q) (c1 c2 : str) (m1 m2 : Trigram.TrigramModel) :
  Trigram.trained l1 l2 l3 c1 m1 ->
  Trigram.train m1 c2 = Ok m2 ->
  let t1 := split c1 in
  let t2 := split c2 in
  (forall w, get_or (Trigram.unigram_counts m2) w 0%Z
             = (occ w t1 + occ w t2)%Z)
  /\ Trigram.total_tokens m2 = Z.of_nat (length t2)
  /\ (forall w, In w (t1 ++ t2) ->
        get (Trigram.unigram_probs m2) w
        = Some (inject_Z (occ w t1 + occ w t2)
                / inject_Z (Z.of_nat (length t2))))
  /\ sum (values (Trigram.unigram_probs m2))
     == inject_Z (Z.of_nat (length t1 + length t2))
        / inject_Z (Z.of_nat (length t2))
  /\ 1 < sum (values (Trigram.unigram_probs m2)).
Proof.
  intros Ht Ha t1 t2.
  pose proof (@retrained_unigram_counts l1 l2 l3 c1 c2 m1 m2 Ht Ha) as Ec.
  pose proof (@retrained_unigram_probs l1 l2 l3 c1 c2 m1 m2 Ht Ha) as Ep.
  destruct (@retrained_unfold c2 m1 m2 Ha) as (Hlen2 & E2).
  destruct (trained_unfold Ht) as (Hlen1 & _ & _).
  fold t1 in Ec, Ep, Hlen1. fold t2 in Ec, Ep, Hlen2, E2.
  assert (Hsum : sum (values (Trigram.unigram_probs m2))
                 == inject_Z (Z.of_nat (length t1 + length t2))
                    / inject_Z (Z.of_nat (length t2))).
  { rewrite Ep. unfold values. rewrite map_map. cbn [snd].
    rewrite (sum_map_div (fun kv : str * Z => inject_Z (snd kv))).
    rewrite (sum_map_inject_Z (fun kv : str * Z => snd kv)).
    change (fold_right Z.add 0%Z (List.map (fun kv : str * Z => snd kv)
                                           (count_all [] (t1 ++ t2))))
      with (total_count (count_all [] (t1 ++ t2))).
    rewrite total_count_all, length_app. reflexivity. }
  split; [|split; [|split; [|split]]].
  - intros w. rewrite Ec, get_or_count_all. apply occ_app.
  - now rewrite E2.
  - intros w Hw. rewrite Ep.
    rewrite (get_map_values
               (fun c => inject_Z c / inject_Z (Z.of_nat (length t2)))).
    rewrite get_count_all. apply occ_pos_In in Hw.
    destruct (Z.eqb_spec (occ w (t1 ++ t2)) 0); [lia|].
    cbn [option_map]. now rewrite occ_app.
  - exact Hsum.
  - rewrite Hsum. apply Qlt_shift_div_l.
    + change 0 with (inject_Z 0). rewrite <- Zlt_Qlt. lia.
    + rewrite Qmult_1_l, <- Zlt_Qlt. lia.
Qed.

Lemma retraining_accumulates_witness :
  Trigram.train abc_model (lit "a b c")
  = Ok (Trigram.train_tokens abc_model (split (lit "a b c")))
  /\ sum (values (Trigram.unigram_probs
                    (Trigram.train_tokens abc_model (split (lit "a b c")))))
     == inject_Z 6 / inject_Z 3.
Proof.
  split; [reflexivity|].
  destruct (@retraining_accumulates
              Trigram.default_lambda1 Trigram.default_lambda2
              Trigram.default_lambda3 (lit "a b c") (lit "a b c") abc_model
              (Trigram.train_tokens abc_model (split (lit "a b c")))
              abc_model_trained eq_refl)
    as (_ & _ & _ & Hsum & _).
  exact Hsum.
Defined.
